(** * boxes.py: relative layout of rooms, shelves and wall openings

    A shallow embedding of [boxes.py] and the properties of its layout
    resolver, dimension adjuster and hole emitter.

    Python objects are modelled by value in a store keyed by name (the
    dictionary [boxes]); a reference to a record is its key.  Exceptions are
    the [Raise] results of an error monad.  Floats are IEEE binary64
    ([PrimFloat]), as Python's are. *)

From Stdlib Require Import ZArith String Ascii List Bool Lia DecimalString.
From Stdlib Require Import Permutation.
From Stdlib Require Import PrimFloat SpecFloat FloatOps.
Import ListNotations.
Open Scope string_scope.

Set Implicit Arguments.

(** ** Python values and exceptions *)

(** The values a spreadsheet cell or an attribute holds in this program. *)
#[warnings="-register-all"] Inductive pyval : Type :=
| PNone
| PStr (s : string)
| PInt (z : Z)
| PFloat (f : float)
| PList (l : list pyval).

Inductive exn : Type :=
| TypeError | ValueError | KeyError | IndexError
| AttributeError | OverflowError | RecursionError.

Inductive result (A : Type) : Type :=
| Ok (a : A)
| Raise (e : exn).
Arguments Raise {A} e.

Definition bind {A B} (m : result A) (k : A -> result B) : result B :=
  match m with
  | Ok a => k a
  | Raise e => Raise e
  end.

Declare Scope py_scope.
Delimit Scope py_scope with py.
Notation "x <- m ;; k" := (bind m (fun x => k))
  (at level 61, m at next level, right associativity) : py_scope.
Notation "' pat <- m ;; k" := (bind m (fun x => match x with pat => k end))
  (at level 61, pat pattern, m at next level, right associativity) : py_scope.
Open Scope py_scope.

(** [for x in l: s = body(s, x)], leaving at the first exception. *)
Fixpoint for_each {A S} (l : list A) (s : S) (body : S -> A -> result S)
  : result S :=
  match l with
  | [] => Ok s
  | x :: l' => s' <- body s x ;; for_each l' s' body
  end.

(** [enumerate(l)] *)
Fixpoint enumerate_from {A} (n : nat) (l : list A) : list (nat * A) :=
  match l with
  | [] => []
  | x :: l' => (n, x) :: enumerate_from (S n) l'
  end.
Definition enumerate {A} (l : list A) := enumerate_from 0 l.

(** [l[i]] and [l[i] = v] on a Python list. *)
Definition list_get {A} (l : list A) (i : nat) : result A :=
  match nth_error l i with
  | Some x => Ok x
  | None => Raise IndexError
  end.

Fixpoint list_set {A} (l : list A) (i : nat) (v : A) : result (list A) :=
  match l, i with
  | [], _ => Raise IndexError
  | _ :: l', O => Ok (v :: l')
  | x :: l', S i' => r <- list_set l' i' v ;; Ok (x :: r)
  end.

(** ** Numbers *)

(** An int converted to a float: rounded to nearest even, [OverflowError]
    when it is too large. *)
Definition float_of_int (z : Z) : result float :=
  let f := SF2Prim (binary_normalize prec emax z 0 false) in
  if is_infinity f then Raise OverflowError else Ok f.

(** The number [v] as a float, for arithmetic with a float and for [%g]:
    what is no number is a [TypeError]. *)
Definition as_float (v : pyval) : result float :=
  match v with
  | PFloat y => Ok y
  | PInt z => float_of_int z
  | _ => Raise TypeError
  end.

(** [x + v] for a float [x]. *)
Definition float_add (x : float) (v : pyval) : result float :=
  y <- as_float v ;; Ok (x + y)%float.

Fixpoint repeat_string (n : nat) (s : string) : string :=
  match n with
  | O => ""
  | S n' => s ++ repeat_string n' s
  end.

(** [a + b] *)
Definition py_add (a b : pyval) : result pyval :=
  match a, b with
  | PInt x, PInt y => Ok (PInt (x + y))
  | PFloat x, _ => r <- float_add x b ;; Ok (PFloat r)
  | PInt x, PFloat y => fx <- float_of_int x ;; Ok (PFloat (fx + y)%float)
  | PStr x, PStr y => Ok (PStr (x ++ y))
  | PList x, PList y => Ok (PList (x ++ y))
  | _, _ => Raise TypeError
  end.

(** [a * n] for an int literal [n]: a product of numbers, a repetition of
    strings and lists. *)
Definition py_mul_int (a : pyval) (n : Z) : result pyval :=
  match a with
  | PInt x => Ok (PInt (x * n))
  | PFloat x => y <- float_of_int n ;; Ok (PFloat (x * y)%float)
  | PStr s => Ok (PStr (repeat_string (Z.to_nat n) s))
  | PList l => Ok (PList (concat (repeat l (Z.to_nat n))))
  | PNone => Raise TypeError
  end.

(** Truth value of an object. *)
Definition truthy (v : pyval) : bool :=
  match v with
  | PNone => false
  | PStr s => negb (String.eqb s "")
  | PInt z => negb (Z.eqb z 0)
  | PFloat f => negb (PrimFloat.eqb f 0)
  | PList l => match l with [] => false | _ => true end
  end.

(** [a or b] *)
Definition py_or (a b : pyval) : pyval := if truthy a then a else b.

(** [v == s] for a string literal [s]. *)
Definition str_eq (v : pyval) (s : string) : bool :=
  match v with
  | PStr t => String.eqb t s
  | _ => false
  end.

(** [sub in s] on strings: [sub] occurs in [s]. *)
Fixpoint substring_of (sub s : string) : bool :=
  if String.prefix sub s then true
  else match s with
       | EmptyString => false
       | String _ s' => substring_of sub s'
       end.

(** [s in v] for a string literal [s]: a substring test on a string, a
    membership test on a list, a [TypeError] on what is not iterable. *)
Definition str_in (s : string) (v : pyval) : result bool :=
  match v with
  | PStr t => Ok (substring_of s t)
  | PList l => Ok (existsb (fun x => str_eq x s) l)
  | _ => Raise TypeError
  end.

(** ** Dictionaries

    A [dict] keeps its entries in insertion order.  The keys of this program
    are csv cells, strings or [None]; a float or a list is never used as a
    key, and none is ever found. *)

Definition key_eqb (a b : pyval) : bool :=
  match a, b with
  | PNone, PNone => true
  | PStr s, PStr t => String.eqb s t
  | PInt x, PInt y => Z.eqb x y
  | _, _ => false
  end.

Definition dict (V : Type) := list (pyval * V).

(** [d.get(k)] *)
Fixpoint dict_get {V} (k : pyval) (d : dict V) : option V :=
  match d with
  | [] => None
  | (k', v) :: d' => if key_eqb k k' then Some v else dict_get k d'
  end.

(** [d[k] = v]: the entry is replaced where it stands, or added at the
    end. *)
Fixpoint dict_set {V} (k : pyval) (v : V) (d : dict V) : dict V :=
  match d with
  | [] => [(k, v)]
  | (k', v') :: d' =>
      if key_eqb k k' then (k', v) :: d' else (k', v') :: dict_set k v d'
  end.

(** [k in d] *)
Definition dict_mem {V} (k : pyval) (d : dict V) : bool :=
  match dict_get k d with Some _ => true | None => false end.

(** [d[k]] *)
Definition getitem {V} (d : dict V) (k : pyval) : result V :=
  match dict_get k d with
  | Some v => Ok v
  | None => Raise KeyError
  end.

(** [d.get(k)] and [d.get(k, default)] on a row of cells. *)
Definition row := dict pyval.

Definition get (data : row) (k : string) : pyval :=
  match dict_get (PStr k) data with
  | Some v => v
  | None => PNone
  end.

Definition get_default (data : row) (k : string) (default : pyval) : pyval :=
  match dict_get (PStr k) data with
  | Some v => v
  | None => default
  end.

(** ** What the Python runtime and the colour module provide *)

Class PyRuntime : Type := {
  (** [float(s)] on a string; [None] is a [ValueError]. *)
  float_of_str : string -> option float;
  float_of_str_empty : float_of_str "" = None;
  (** ["%g" % x] on a float. *)
  format_g : float -> string;
  (** [repr(x)] of a float. *)
  repr_float : float -> string;
  (** [rgbcolour.rgbcolour(name, opacity)] *)
  rgbcolour : string -> pyval -> result pyval
}.

(** ** The record model *)

(** [class Hole]: a cuboid negative space, a door or a window. *)
Module Hole.
Record t : Type := mk {
  name : pyval;
  dimensions : list pyval;
  adjacent : pyval;
  direction : pyval;
  height : pyval;
  offset : pyval
}.
End Hole.

(** [class Box]: a cuboid positive space.  [dimensions] and [position] only
    ever hold floats: they are built by [float(...)] and [[0.0, 0.0, 0.0]],
    and every later element is a float plus or minus a number. *)
Module Box.
Record t : Type := mk {
  box_type : pyval;
  name : pyval;
  dimensions : list float;
  position : list float;
  adjacent : pyval;
  direction : pyval;
  alignment : pyval;
  offset : pyval;
  holes : list Hole.t;
  neighbours : dict (list pyval);
  colour : pyval
}.

Definition set_dimensions (b : t) (d : list float) : t :=
  mk (box_type b) (name b) d (position b) (adjacent b) (direction b)
     (alignment b) (offset b) (holes b) (neighbours b) (colour b).

Definition set_position (b : t) (p : list float) : t :=
  mk (box_type b) (name b) (dimensions b) p (adjacent b) (direction b)
     (alignment b) (offset b) (holes b) (neighbours b) (colour b).

Definition set_holes (b : t) (h : list Hole.t) : t :=
  mk (box_type b) (name b) (dimensions b) (position b) (adjacent b)
     (direction b) (alignment b) (offset b) h (neighbours b) (colour b).
End Box.

(** [class Constant] *)
Module Constant.
Record t : Type := mk {
  name : pyval;
  value : pyval;
  all_data : row
}.
End Constant.

(** What a row becomes: one of the five classes. *)
Inductive record : Type :=
| RBox (b : Box.t)
| RHole (h : Hole.t)
| RConstant (c : Constant.t)
| RType (data : row) (name : pyval)
| RCustom (data : row).

(** [r.name]: a [Custom] has no such attribute. *)
Definition name_of (r : record) : result pyval :=
  match r with
  | RBox b => Ok (Box.name b)
  | RHole h => Ok (Hole.name h)
  | RConstant c => Ok (Constant.name c)
  | RType _ n => Ok n
  | RCustom _ => Raise AttributeError
  end.

(** The dictionary [boxes], from name to record. *)
Definition store := dict record.

Section Constructors.
Context {rt : PyRuntime}.

(** [float(v)] *)
Definition py_float (v : pyval) : result float :=
  match v with
  | PFloat f => Ok f
  | PInt z => float_of_int z
  | PStr s => match float_of_str s with
              | Some f => Ok f
              | None => Raise ValueError
              end
  | PNone | PList _ => Raise TypeError
  end.

(** [cell_as_float(row, name)] *)
Definition cell_as_float (data : row) (name : string) : result pyval :=
  let value := get data name in
  match value with
  | PNone => Ok (PInt 0)
  | PStr "" => Ok (PInt 0)
  | _ => f <- py_float value ;; Ok (PFloat f)
  end.

(** [data.get('offset', 0.0) or 0.0] *)
Definition box_offset (data : row) : pyval :=
  py_or (get_default data "offset" (PFloat 0)) (PFloat 0).

Definition default_colour : pyval :=
  PList [PFloat 0.5; PFloat 0.5; PFloat 0.5; PFloat 0.5].

(** The three statements of [Box.__init__] on [self.colour]. *)
Definition box_colour (data : row) (opacity : pyval) : result pyval :=
  let colour := get_default data "colour" default_colour in
  let colour := if str_eq colour "" then default_colour else colour in
  match colour with
  | PStr s => rgbcolour s opacity
  | _ => Ok colour
  end.

(** [Box.__init__(self, data, opacity)] *)
Definition Box__init__ (data : row) (opacity : pyval) : result Box.t :=
  let box_type := get_default data "type" (PStr "room") in
  let name := get data "name" in
  width <- py_float (get data "width") ;;
  depth <- py_float (get data "depth") ;;
  height <- py_float (get data "height") ;;
  colour <- box_colour data opacity ;;
  Ok (Box.mk box_type name [width; depth; height]
        [0%float; 0%float; 0%float]
        (get data "adjacent") (get data "direction") (get data "alignment")
        (box_offset data) []
        [(PStr "left", []); (PStr "right", []);
         (PStr "front", []); (PStr "behind", [])]
        colour).

(** [Hole.__init__(self, data)] *)
Definition Hole__init__ (data : row) : result Hole.t :=
  name <- getitem data (PStr "name") ;;
  width <- py_float (get data "width") ;;
  depth <- py_float (get data "depth") ;;
  height <- cell_as_float data "height" ;;
  offset <- cell_as_float data "offset" ;;
  Ok (Hole.mk name [PFloat width; PFloat depth; PInt 40]
        (get data "adjacent") (get data "direction") height offset).

(** [Constant.__init__(self, data)] *)
Definition Constant__init__ (data : row) : result Constant.t :=
  name <- getitem data (PStr "name") ;;
  value <- getitem data (PStr "width") ;;
  Ok (Constant.mk name value data).

End Constructors.

(** ** The layout resolver *)

(** [box.position] and [box.dimensions] of the anchor.  Only a [Box] has a
    position; the resolver reads the position first, so on any other anchor
    the exception is the one of [position]. *)
Definition position_of (box : record) : result (list float) :=
  match box with
  | RBox b => Ok (Box.position b)
  | _ => Raise AttributeError
  end.

Definition dimensions_of (box : record) : result (list float) :=
  match box with
  | RBox b => Ok (Box.dimensions b)
  | _ => Raise AttributeError
  end.

(** [dependent.position[index] = v] *)
Definition assign_position (dependent : Box.t) (index : nat) (v : float)
  : result Box.t :=
  pos <- list_set (Box.position dependent) index v ;;
  Ok (Box.set_position dependent pos).

(** The first loop: neighbours that begin where the anchor ends. *)
Definition abut_after (box : record) (dependent : Box.t) : result Box.t :=
  for_each (enumerate ["right"; "behind"; "above"]) dependent
    (fun dependent '(index, direction) =>
       if str_eq (Box.direction dependent) direction then
         p <- position_of box ;; p_i <- list_get p index ;;
         d <- dimensions_of box ;; d_i <- list_get d index ;;
         assign_position dependent index (p_i + d_i)%float
       else Ok dependent).

(** The second loop: neighbours that end where the anchor begins. *)
Definition abut_before (box : record) (dependent : Box.t) : result Box.t :=
  for_each (enumerate ["left"; "front"; "below"]) dependent
    (fun dependent '(index, direction) =>
       if str_eq (Box.direction dependent) direction then
         p <- position_of box ;; p_i <- list_get p index ;;
         d_i <- list_get (Box.dimensions dependent) index ;;
         assign_position dependent index (p_i - d_i)%float
       else Ok dependent).

(** The third loop: flush with the low face of the anchor. *)
Definition align_low (box : record) (dependent : Box.t) : result Box.t :=
  for_each (enumerate ["left"; "front"; "bottom"]) dependent
    (fun dependent '(index, direction) =>
       c <- str_in direction (Box.alignment dependent) ;;
       if c : bool then
         p <- position_of box ;; p_i <- list_get p index ;;
         v <- float_add p_i (Box.offset dependent) ;;
         assign_position dependent index v
       else Ok dependent).

(** The fourth loop: flush with the high face of the anchor. *)
Definition align_high (box : record) (dependent : Box.t) : result Box.t :=
  for_each (enumerate ["right"; "back"; "top"]) dependent
    (fun dependent '(index, direction) =>
       c <- str_in direction (Box.alignment dependent) ;;
       if c : bool then
         p <- position_of box ;; p_i <- list_get p index ;;
         d <- dimensions_of box ;; d_i <- list_get d index ;;
         e_i <- list_get (Box.dimensions dependent) index ;;
         v <- float_add (p_i + d_i - e_i)%float (Box.offset dependent) ;;
         assign_position dependent index v
       else Ok dependent).

(** The two direction loops, then the two alignment loops: the body of
    [if isinstance(dependent, Box)]. *)
Definition abut (box : record) (dependent : Box.t) : result Box.t :=
  d <- abut_after box dependent ;; abut_before box d.

Definition align (box : record) (dependent : Box.t) : result Box.t :=
  d <- align_low box dependent ;; align_high box d.

Definition place (box : record) (dependent : Box.t) : result Box.t :=
  d <- abut box dependent ;; align box d.

(** [box.holes.append(dependent)] *)
Definition append_hole (box : record) (dependent : Hole.t) : result record :=
  match box with
  | RBox b => Ok (RBox (Box.set_holes b (Box.holes b ++ [dependent])))
  | _ => Raise AttributeError
  end.

(** The body of the loop of [position_dependents] before its recursive call:
    [box] and [dependent_name] are keys of [boxes].  The anchor is read once,
    before the loops write the dependent.  Python reads it as the loops go,
    which differs only for a record that is its own dependent; such a record
    makes the walk recur until the interpreter gives up, with the same
    exception in both readings. *)
Definition position_dependent (boxes : store) (box dependent_name : pyval)
  : result store :=
  dependent <- getitem boxes dependent_name ;;
  match dependent with
  | RBox d =>
      anchor <- getitem boxes box ;;
      d' <- place anchor d ;;
      Ok (dict_set dependent_name (RBox d') boxes)
  | RHole h =>
      anchor <- getitem boxes box ;;
      anchor' <- append_hole anchor h ;;
      Ok (dict_set box anchor' boxes)
  | _ => Ok boxes
  end.

(** [position_dependents(boxes, dependents, box, level)].  [limit] is the
    depth of recursion the interpreter allows. *)
Fixpoint position_dependents (limit : nat) (boxes : store)
  (dependents : dict (list pyval)) (box : pyval) (level : Z) : result store :=
  match limit with
  | O => Raise RecursionError
  | S limit' =>
      b <- getitem boxes box ;;
      name <- name_of b ;;
      match dict_get name dependents with
      | None => Ok boxes
      | Some names =>
          for_each names boxes
            (fun boxes dependent_name =>
               boxes' <- position_dependent boxes box dependent_name ;;
               position_dependents limit' boxes' dependents dependent_name
                 level)
      end
  end.

(** ** The dimension adjuster *)

Definition DEFAULT_CONSTANTS : dict pyval :=
  [(PStr "wall_thickness", PInt 10);
   (PStr "floor_thickness", PInt 10);
   (PStr "ceiling_thickness", PInt (-1))].

(** [add_default_constants(boxes)] *)
Definition add_default_constants (boxes : store) : result store :=
  for_each DEFAULT_CONSTANTS boxes
    (fun boxes '(default_name, default_value) =>
       if dict_mem default_name boxes then Ok boxes
       else
         c <- Constant__init__
                [(PStr "name", default_name); (PStr "width", default_value)] ;;
         Ok (dict_set default_name (RConstant c) boxes)).

(** [r.value]: only a [Constant] has one. *)
Definition value_of (r : record) : result pyval :=
  match r with
  | RConstant c => Ok (Constant.value c)
  | _ => Raise AttributeError
  end.

(** [box.dimensions[index] += v] on a [Box]. *)
Definition add_to_dimension (box : Box.t) (index : nat) (v : result pyval)
  : result Box.t :=
  d_i <- list_get (Box.dimensions box) index ;;
  v <- v ;;
  r <- float_add d_i v ;;
  dims <- list_set (Box.dimensions box) index r ;;
  Ok (Box.set_dimensions box dims).

(** The body of the loop of [adjust_dimensions]. *)
Definition adjust_record
  (wall_thickness floor_thickness ceiling_thickness : pyval) (box : record)
  : result record :=
  match box with
  | RBox b =>
      if str_eq (Box.box_type b) "room" then
        b <- add_to_dimension b 0 (Ok wall_thickness) ;;
        b <- add_to_dimension b 1 (Ok wall_thickness) ;;
        b <- add_to_dimension b 2 (py_add floor_thickness ceiling_thickness) ;;
        Ok (RBox b)
      else Ok box
  | RHole h =>
      thickness <- py_mul_int wall_thickness 8 ;;
      dims <- list_set (Hole.dimensions h) 2 thickness ;;
      Ok (RHole (Hole.mk (Hole.name h) dims (Hole.adjacent h)
                   (Hole.direction h) (Hole.height h) (Hole.offset h)))
  | _ => Ok box
  end.

(** [for box in boxes.values()], each record updated where it stands. *)
Fixpoint for_values {V} (d : dict V) (body : V -> result V)
  : result (dict V) :=
  match d with
  | [] => Ok []
  | (k, v) :: d' =>
      v' <- body v ;; r <- for_values d' body ;; Ok ((k, v') :: r)
  end.

Definition nl : string := String "010"%char "".

Fixpoint unlines (l : list string) : string :=
  match l with
  | [] => ""
  | s :: l' => s ++ nl ++ unlines l'
  end.

Section Emitter.
Context {rt : PyRuntime}.

(** ["%g" % v] *)
Definition py_format_g (v : pyval) : result string :=
  f <- as_float v ;; Ok (format_g f).

(** [PREAMBLE0 % (wall_thickness, floor_thickness, ceiling_thickness)] *)
Definition PREAMBLE0 (wall_thickness floor_thickness ceiling_thickness : pyval)
  : result string :=
  w <- py_format_g wall_thickness ;;
  f <- py_format_g floor_thickness ;;
  c <- py_format_g ceiling_thickness ;;
  Ok (unlines
    [""; "// Generated by https://github.com/hillwithsmallfields/boxes/blob/trunk/boxes.py";
     "";
     "wall_thickness = " ++ w ++ ";";
     "floor_thickness = " ++ f ++ ";";
     "ceiling_thickness = " ++ c ++ ";";
     "";
     "module hole(preshift, rot, postshift, dimensions, label) {";
     "    translate(preshift) rotate(rot) translate(postshift) cube(dimensions);";
     "}";
     "";
     "module box(position, dimensions, colour, label) {";
     "    color(colour) {";
     "        translate(position) {";
     "            // make this hollow by subtracting an inner cuboid";
     "            difference() {";
     "                cube(dimensions);";
     "                translate([wall_thickness/2, wall_thickness/2, floor_thickness]) {";
     "                    cube([dimensions[0]-wall_thickness, dimensions[1]-wall_thickness, dimensions[2]-floor_thickness]);";
     "                }";
     "                children();";
     "            }";
     "        }";
     "    }";
     "}"]).

(** [adjust_dimensions(boxes)]: the adjusted records and the sized
    preamble. *)
Definition adjust_dimensions (boxes : store) : result (store * string) :=
  boxes <- add_default_constants boxes ;;
  wall_thickness <- (c <- getitem boxes (PStr "wall_thickness") ;; value_of c) ;;
  floor_thickness <- (c <- getitem boxes (PStr "floor_thickness") ;; value_of c) ;;
  ceiling_thickness <-
    (c <- getitem boxes (PStr "ceiling_thickness") ;; value_of c) ;;
  boxes <- for_values boxes
             (adjust_record wall_thickness floor_thickness ceiling_thickness) ;;
  preamble <- PREAMBLE0 wall_thickness floor_thickness ceiling_thickness ;;
  Ok (boxes, preamble).

End Emitter.

(** ** The dependency tree builder *)

(** [box.adjacent] of a [Box] or a [Hole]. *)
Definition adjacent_of (r : record) : result pyval :=
  match r with
  | RBox b => Ok (Box.adjacent b)
  | RHole h => Ok (Hole.adjacent h)
  | _ => Raise AttributeError
  end.

(** The body of the loop of [generate_tree]; [key] is the reference to
    [box]. *)
Definition generate_tree_step
  (state : dict (list pyval) * option pyval) (entry : pyval * record)
  : result (dict (list pyval) * option pyval) :=
  let '(dependents, first_box) := state in
  let '(key, box) := entry in
  match box with
  | RBox _ | RHole _ =>
      adjacent <- adjacent_of box ;;
      name <- name_of box ;;
      if str_eq adjacent "start" then
        Ok (dict_set (PStr "start") [name] dependents, Some key)
      else
        let dependents :=
          if dict_mem adjacent dependents then dependents
          else dict_set adjacent [] dependents in
        names <- getitem dependents adjacent ;;
        Ok (dict_set adjacent (names ++ [name])%list dependents, first_box)
  | _ => Ok state
  end.

(** [generate_tree(boxes)]: the dependents of each name and the reference
    to the starting record. *)
Definition generate_tree (boxes : store)
  : result (dict (list pyval) * option pyval) :=
  for_each boxes ([], None) generate_tree_step.

(** ** The hole emitter *)

(** A component of a vector of an emitted statement: a literal of the
    template, or a value the template formats with [%g]. *)
Inductive scad_num : Type :=
| Lit (z : Z)
| Arg (v : pyval).

(** The arguments of an emitted [hole(preshift, rot, postshift, dimensions,
    label)] statement. *)
Record hole_statement : Type := {
  preshift : list scad_num;
  rot : list scad_num;
  postshift : list scad_num;
  hole_dimensions : list pyval;
  label : pyval
}.

(** The statement [Hole.scad_string(self, parent)] writes: the template
    [hole([%g, %g, 10], [90, 0, %g], [%g, %g, -40], %s, "%s")] and the values
    it is filled with. *)
Definition scad_statement (self : Hole.t) (parent : Box.t)
  : result hole_statement :=
  x <- (if str_eq (Hole.direction self) "right"
        then d <- list_get (Box.dimensions parent) 0 ;; Ok (PFloat d)
        else Ok (PInt 0)) ;;
  y <- (if str_eq (Hole.direction self) "back"
        then d <- list_get (Box.dimensions parent) 1 ;; Ok (PFloat d)
        else Ok (PInt 0)) ;;
  let r := if str_eq (Hole.direction self) "left"
              || str_eq (Hole.direction self) "right"
           then PInt 90 else PInt 0 in
  Ok {| preshift := [Arg x; Arg y; Lit 10];
        rot := [Lit 90; Lit 0; Arg r];
        postshift := [Arg (Hole.offset self); Arg (Hole.height self);
                      Lit (-40)];
        hole_dimensions := Hole.dimensions self;
        label := Hole.name self |}.

Definition dquote : string := String "034"%char "".

Definition string_of_Z (z : Z) : string :=
  DecimalString.NilZero.string_of_int (Z.to_int z).

Section Rendering.
Context {rt : PyRuntime}.

(** [repr(v)]; the quotes of a string are not escaped. *)
Fixpoint py_repr (v : pyval) : string :=
  match v with
  | PNone => "None"
  | PStr s => "'" ++ s ++ "'"
  | PInt z => string_of_Z z
  | PFloat f => repr_float f
  | PList l =>
      "[" ++ (fix items (l : list pyval) : string :=
                match l with
                | [] => ""
                | x :: l' =>
                    match l' with
                    | [] => py_repr x
                    | _ => py_repr x ++ ", " ++ items l'
                    end
                end) l ++ "]"
  end.

(** [str(v)], what [%s] writes. *)
Definition py_str (v : pyval) : string :=
  match v with
  | PStr s => s
  | _ => py_repr v
  end.

Definition render_num (c : scad_num) : result string :=
  match c with
  | Lit z => Ok (string_of_Z z)
  | Arg v => py_format_g v
  end.

Fixpoint render_vector_items (l : list scad_num) : result string :=
  match l with
  | [] => Ok ""
  | c :: l' =>
      s <- render_num c ;;
      match l' with
      | [] => Ok s
      | _ => r <- render_vector_items l' ;; Ok (s ++ ", " ++ r)
      end
  end.

Definition render_vector (l : list scad_num) : result string :=
  s <- render_vector_items l ;; Ok ("[" ++ s ++ "]").

(** The text of a statement. *)
Definition render_statement (st : hole_statement) : result string :=
  a <- render_vector (preshift st) ;;
  b <- render_vector (rot st) ;;
  c <- render_vector (postshift st) ;;
  Ok ("    hole(" ++ a ++ ", " ++ b ++ ", " ++ c ++ ", "
      ++ py_str (PList (hole_dimensions st)) ++ ", "
      ++ dquote ++ py_str (label st) ++ dquote ++ ");" ++ nl).

(** [Hole.scad_string(self, parent)] *)
Definition scad_string (self : Hole.t) (parent : Box.t) : result string :=
  x <- (if str_eq (Hole.direction self) "right"
        then d <- list_get (Box.dimensions parent) 0 ;; Ok (PFloat d)
        else Ok (PInt 0)) ;;
  y <- (if str_eq (Hole.direction self) "back"
        then d <- list_get (Box.dimensions parent) 1 ;; Ok (PFloat d)
        else Ok (PInt 0)) ;;
  let r := if str_eq (Hole.direction self) "left"
              || str_eq (Hole.direction self) "right"
           then PInt 90 else PInt 0 in
  gx <- py_format_g x ;;
  gy <- py_format_g y ;;
  gr <- py_format_g r ;;
  go <- py_format_g (Hole.offset self) ;;
  gh <- py_format_g (Hole.height self) ;;
  Ok ("    hole([" ++ gx ++ ", " ++ gy ++ ", 10], [90, 0, " ++ gr ++ "], ["
      ++ go ++ ", " ++ gh ++ ", -40], "
      ++ py_str (PList (Hole.dimensions self)) ++ ", "
      ++ dquote ++ py_str (Hole.name self) ++ dquote ++ ");" ++ nl).

End Rendering.

(** ** A runtime for the examples

    It reads the plain decimal numerals ([-12.5]) and writes the integral
    floats below a million as Python does: [310.0] is [310] under [%g] and
    [310.0] under [repr]. *)

Definition Z_to_float (z : Z) : float :=
  SF2Prim (binary_normalize prec emax z 0 false).

Definition digit_of (c : ascii) : option Z :=
  let n := Z.of_nat (nat_of_ascii c) in
  if (48 <=? n)%Z && (n <=? 57)%Z then Some (n - 48)%Z else None.

Fixpoint digits_value (s : string) (acc : Z) : option Z :=
  match s with
  | EmptyString => Some acc
  | String c s' =>
      match digit_of c with
      | Some d => digits_value s' (10 * acc + d)%Z
      | None => None
      end
  end.

Fixpoint split_at_dot (s : string) : string * option string :=
  match s with
  | EmptyString => (EmptyString, None)
  | String c s' =>
      if Ascii.eqb c "."%char then (EmptyString, Some s')
      else let '(a, b) := split_at_dot s' in (String c a, b)
  end.

Definition unsigned_decimal (s : string) : option float :=
  let '(whole, frac) := split_at_dot s in
  let frac := match frac with Some f => f | None => EmptyString end in
  if (String.length whole + String.length frac =? 0)%nat then None
  else
    match digits_value (whole ++ frac) 0 with
    | Some m =>
        let k := String.length frac in
        if (m <? 2 ^ 53)%Z && (k <=? 22)%nat
        then Some (Z_to_float m / Z_to_float (10 ^ Z.of_nat k))%float
        else None
    | None => None
    end.

Definition float_of_decimal (s : string) : option float :=
  match s with
  | String "-"%char s' =>
      match unsigned_decimal s' with
      | Some f => Some (- f)%float
      | None => None
      end
  | _ => unsigned_decimal s
  end.

Definition integral_value (f : float) : option Z :=
  match Prim2SF f with
  | S754_zero _ => Some 0%Z
  | S754_finite s m e =>
      let m := if s then Z.neg m else Z.pos m in
      if (0 <=? e)%Z then Some (m * 2 ^ e)%Z
      else if (m mod 2 ^ (- e) =? 0)%Z then Some (m / 2 ^ (- e))%Z
      else None
  | _ => None
  end.

Definition format_integral (f : float) : string :=
  match integral_value f with
  | Some z => string_of_Z z
  | None => "?"
  end.

Definition repr_integral (f : float) : string :=
  match integral_value f with
  | Some z => string_of_Z z ++ ".0"
  | None => "?"
  end.

#[export] Instance sample_runtime : PyRuntime := {|
  float_of_str := float_of_decimal;
  float_of_str_empty := eq_refl;
  format_g := format_integral;
  repr_float := repr_integral;
  rgbcolour := fun _ opacity =>
    Ok (PList [PFloat 0.5; PFloat 0.5; PFloat 0.5; opacity])
|}.

(** ** Vocabulary of the statements about the resolver *)

(** The coordinate of a triple on axis [i]. *)
Definition axis (l : list float) (i : nat) : float := nth i l 0%float.

Definition after_tokens : list string := ["right"; "behind"; "above"].
Definition before_tokens : list string := ["left"; "front"; "below"].
Definition low_tokens : list string := ["left"; "front"; "bottom"].
Definition high_tokens : list string := ["right"; "back"; "top"].
Definition token (l : list string) (i : nat) : string := nth i l "".

(** A box whose position and dimensions are triples, as every box built by
    [Box.__init__] is. *)
Definition sized (b : Box.t) : Prop :=
  length (Box.position b) = 3 /\ length (Box.dimensions b) = 3.

(** What each of the four loops leaves on axis [i], [x] being the position
    before the loop. *)
Definition after_axis (a d : Box.t) (x : list float) (i : nat) : float :=
  if str_eq (Box.direction d) (token after_tokens i)
  then (axis (Box.position a) i + axis (Box.dimensions a) i)%float
  else axis x i.

Definition before_axis (a d : Box.t) (x : list float) (i : nat) : float :=
  if str_eq (Box.direction d) (token before_tokens i)
  then (axis (Box.position a) i - axis (Box.dimensions d) i)%float
  else axis x i.

Definition low_axis (a : Box.t) (al : string) (o : float) (x : list float)
  (i : nat) : float :=
  if substring_of (token low_tokens i) al
  then (axis (Box.position a) i + o)%float
  else axis x i.

Definition high_axis (a d : Box.t) (al : string) (o : float) (x : list float)
  (i : nat) : float :=
  if substring_of (token high_tokens i) al
  then (axis (Box.position a) i + axis (Box.dimensions a) i
        - axis (Box.dimensions d) i + o)%float
  else axis x i.

Definition axes (f : nat -> float) : list float := [f 0; f 1; f 2].

Definition abut_position (a d : Box.t) : list float :=
  axes (before_axis a d (axes (after_axis a d (Box.position d)))).

Definition place_position (a d : Box.t) (al : string) (o : float)
  : list float :=
  axes (high_axis a d al o (axes (low_axis a al o (abut_position a d)))).

(** The alignment rule as the specification words it, for the dependent [d]
    of the anchor [a] on axis [i]: a low token gives the anchor's coordinate
    plus the offset, a high token the anchor's far face minus the dependent's
    own size plus the offset. *)
Definition alignment_rule_as_specified (a d : Box.t) (i : nat) : Prop :=
  exists d', place (RBox a) d = Ok d' /\
    (str_in (token low_tokens i) (Box.alignment d) = Ok true ->
     float_add (axis (Box.position a) i) (Box.offset d)
     = Ok (axis (Box.position d') i)) /\
    (str_in (token high_tokens i) (Box.alignment d) = Ok true ->
     float_add (axis (Box.position a) i + axis (Box.dimensions a) i
                - axis (Box.dimensions d) i)%float (Box.offset d)
     = Ok (axis (Box.position d') i)).

(** ** Example records *)

Definition no_neighbours : dict (list pyval) :=
  [(PStr "left", []); (PStr "right", []);
   (PStr "front", []); (PStr "behind", [])].

Definition grey : pyval :=
  PList [PFloat 0.5; PFloat 0.5; PFloat 0.5; PFloat 0.5].

(** A box as [Box.__init__] builds it from a row with an empty offset. *)
Definition example_box (type name : string) (w d h : float)
  (adjacent direction alignment : string) : Box.t :=
  Box.mk (PStr type) (PStr name) [w; d; h] [0; 0; 0]%float
    (PStr adjacent) (PStr direction) (PStr alignment) (PFloat 0) []
    no_neighbours grey.

(** The hall of the scenario, with its internal dimensions. *)
Definition hall : Box.t :=
  example_box "room" "Hall" 300 200 250 "start" "" "".

(** The hall after the adjuster, at the origin. *)
Definition hall_placed : Box.t :=
  Box.set_dimensions hall [310; 210; 259]%float.

Definition study : Box.t :=
  example_box "room" "Study" 150 120 259 "Hall" "right" "front".

(** A dependent whose alignment names both faces of the x axis. *)
Definition wide_shelf : Box.t :=
  example_box "shelf" "Shelf" 30 20 10 "Hall" "" "left right".

(** ** Vocabulary of the statements about the adjuster and the emitter *)

(** The value of the constant [name]: the one of the record of that name,
    or the default when the input has none. *)
Definition constant (boxes : store) (name : string) (default : pyval)
  : result pyval :=
  match dict_get (PStr name) boxes with
  | Some r => value_of r
  | None => Ok default
  end.

(** The constants [add_default_constants] adds. *)
Definition missing_defaults (boxes : store) : store :=
  flat_map
    (fun '(n, v) =>
       if dict_mem n boxes then []
       else [(n, RConstant
                   (Constant.mk n v [(PStr "name", n); (PStr "width", v)]))])
    DEFAULT_CONSTANTS.

(** A room with the thicknesses [w] and [fc] added. *)
Definition external (b : Box.t) (w fc : float) : Box.t :=
  Box.set_dimensions b
    [(axis (Box.dimensions b) 0 + w)%float;
     (axis (Box.dimensions b) 1 + w)%float;
     (axis (Box.dimensions b) 2 + fc)%float].

(** A hole with its third dimension replaced. *)
Definition with_thickness (h : Hole.t) (t : pyval) : Hole.t :=
  Hole.mk (Hole.name h)
    [nth 0 (Hole.dimensions h) PNone; nth 1 (Hole.dimensions h) PNone; t]
    (Hole.adjacent h) (Hole.direction h) (Hole.height h) (Hole.offset h).

(** A hole as [Hole.__init__] builds it. *)
Definition example_hole (name : string) (w d : float)
  (adjacent direction : string) (height offset : pyval) : Hole.t :=
  Hole.mk (PStr name) [PFloat w; PFloat d; PInt 40]
    (PStr adjacent) (PStr direction) height offset.

(** The door of the scenario, and the same door in the wall behind. *)
Definition door : Hole.t :=
  example_hole "Door" 90 200 "Hall" "right" (PFloat 0) (PFloat 50).

Definition back_door : Hole.t :=
  example_hole "Back door" 90 200 "Hall" "behind" (PFloat 0) (PFloat 50).

(** [c] is the negation of the thickness [t]. *)
Definition negation_of (t : pyval) (c : scad_num) : Prop :=
  match t with
  | PInt z => c = Lit (- z) \/ c = Arg (PInt (- z))
  | PFloat f => c = Arg (PFloat (- f))
  | _ => False
  end.

(** The second translation vector as the specification words it: (offset,
    height, -(thickness)), the thickness being the third dimension of the
    hole. *)
Definition postshift_as_specified (h : Hole.t) (parent : Box.t) : Prop :=
  exists st t c,
    scad_statement h parent = Ok st /\
    nth_error (Hole.dimensions h) 2 = Some t /\
    postshift st = [Arg (Hole.offset h); Arg (Hole.height h); c] /\
    negation_of t c.

(** The first translation vector and the rotation as the specification
    words them: the width on x for "right", the depth on y for "behind", 0
    otherwise; a rotation of 90 degrees for "left" and "right", none for
    "front" and "back". *)
Definition preshift_as_specified (h : Hole.t) (parent : Box.t) : Prop :=
  exists st,
    scad_statement h parent = Ok st /\
    nth_error (preshift st) 0
    = Some (Arg (if str_eq (Hole.direction h) "right"
                 then PFloat (axis (Box.dimensions parent) 0) else PInt 0)) /\
    nth_error (preshift st) 1
    = Some (Arg (if str_eq (Hole.direction h) "behind"
                 then PFloat (axis (Box.dimensions parent) 1) else PInt 0)) /\
    (str_eq (Hole.direction h) "left" || str_eq (Hole.direction h) "right"
     = true -> nth_error (rot st) 2 = Some (Arg (PInt 90))) /\
    (str_eq (Hole.direction h) "front" || str_eq (Hole.direction h) "back"
     = true -> rot st = [Lit 0; Lit 0; Arg (PInt 0)]).

(** What the adjuster makes of each record. *)
Definition adjusted (w fc : float) (t : pyval) (r : record) : record :=
  match r with
  | RBox b => if str_eq (Box.box_type b) "room" then RBox (external b w fc)
              else r
  | RHole h => RHole (with_thickness h t)
  | _ => r
  end.

(** ** Example rows and stores *)

(** A csv row: the cells of the columns, all of them strings. *)
Definition csv_row (type name width depth height adjacent direction alignment
                    offset : string) : row :=
  [(PStr "type", PStr type); (PStr "name", PStr name);
   (PStr "width", PStr width); (PStr "depth", PStr depth);
   (PStr "height", PStr height); (PStr "adjacent", PStr adjacent);
   (PStr "direction", PStr direction); (PStr "alignment", PStr alignment);
   (PStr "offset", PStr offset); (PStr "colour", PStr "")].

(** A room to the right of the hall, front-aligned, with an offset cell. *)
Definition kitchen_row : row :=
  csv_row "room" "Kitchen" "200" "150" "250" "Hall" "right" "front" "30".

(** A wall thickness given in the input file. *)
Definition wall_row : row :=
  csv_row "constant" "wall_thickness" "12" "" "" "" "" "" "".

Definition wall_constant : Constant.t :=
  Constant.mk (PStr "wall_thickness") (PStr "12") wall_row.

(** The store of the scenario: the hall alone. *)
Definition hall_store : store := [(PStr "Hall", RBox hall)].

(** The hall and a wall thickness read from the file. *)
Definition thick_wall_store : store :=
  [(PStr "wall_thickness", RConstant wall_constant); (PStr "Hall", RBox hall)].

(** The hall with its door. *)
Definition door_store : store :=
  [(PStr "Hall", RBox hall); (PStr "Door", RHole door)].

(** ** Vocabulary of the statements about the walk *)

(** The dependents of a name. *)
Definition children (dependents : dict (list pyval)) (box : pyval)
  : list pyval :=
  match dict_get box dependents with
  | Some names => names
  | None => []
  end.

(** [f] on every element, in order; nothing when one of them gives
    nothing. *)
Fixpoint collect {A B} (f : A -> option (list B)) (l : list A)
  : option (list B) :=
  match l with
  | [] => Some []
  | x :: l' =>
      match f x, collect f l' with
      | Some s, Some r => Some (s ++ r)%list
      | _, _ => None
      end
  end.

(** The pairs (anchor, dependent) in the order [position_dependents] handles
    them from [box]: each dependent of [box], followed by the pairs below
    it.  Nothing when the recursion is deeper than [limit]. *)
Fixpoint walk (limit : nat) (dependents : dict (list pyval)) (box : pyval)
  : option (list (pyval * pyval)) :=
  match limit with
  | O => None
  | S limit' =>
      collect
        (fun c =>
           match walk limit' dependents c with
           | Some s => Some ((box, c) :: s)
           | None => None
           end)
        (children dependents box)
  end.

(** The loop bodies of the pairs, one after the other. *)
Definition run_steps (steps : list (pyval * pyval)) (boxes : store)
  : result store :=
  for_each steps boxes
    (fun boxes '(box, dependent_name) =>
       position_dependent boxes box dependent_name).

(** Every record that has a name is stored under it, as [read_layout]
    stores it. *)
Definition named (boxes : store) : Prop :=
  forall k r n, dict_get k boxes = Some r -> name_of r = Ok n -> n = k.

(** No name is a dependent twice: of two anchors, or twice of one. *)
Definition tree_like (dependents : dict (list pyval)) : Prop :=
  NoDup (concat (map snd dependents)).

(** [c] is below [a]: a dependent of [a], or of a record below [a]. *)
Inductive below (dependents : dict (list pyval)) (a : pyval)
  : pyval -> Prop :=
| below_child c : In c (children dependents a) -> below dependents a c
| below_step p c :
    below dependents a p -> In c (children dependents p) ->
    below dependents a c.

(** [a] itself or a record below it. *)
Definition reaches (dependents : dict (list pyval)) (a c : pyval) : Prop :=
  a = c \/ below dependents a c.

(** [x] occurs once in [l]. *)
Definition occurs_once {A} (x : A) (l : list A) : Prop :=
  exists l1 l2, l = (l1 ++ x :: l2)%list /\ ~ In x l1 /\ ~ In x l2.

(** [b'] is [b] with another position and other holes. *)
Definition box_evolves (b b' : Box.t) : Prop :=
  b' = Box.set_holes (Box.set_position b (Box.position b')) (Box.holes b').

(** What the resolver may change of a record: the position and the holes of
    a Box, nothing else. *)
Definition record_evolves (r r' : record) : Prop :=
  match r, r' with
  | RBox b, RBox b' => box_evolves b b'
  | _, _ => r = r'
  end.

Definition store_evolves (s s' : store) : Prop :=
  forall k,
    match dict_get k s, dict_get k s' with
    | None, None => True
    | Some r, Some r' => record_evolves r r'
    | _, _ => False
    end.

(** The holes the steps attach to the record [a]. *)
Definition attached (boxes : store) (a : pyval) (steps : list (pyval * pyval))
  : list Hole.t :=
  flat_map
    (fun '(box, dependent_name) =>
       if key_eqb box a then
         match dict_get dependent_name boxes with
         | Some (RHole h) => [h]
         | _ => []
         end
       else [])
    steps.

(** A house: the hall, a study to its right, a shelf above the study, and a
    door and a window in the walls of the hall and the study. *)
Definition shelf : Box.t :=
  example_box "shelf" "Shelf" 80 30 5 "Study" "above" "left front".

Definition window : Hole.t :=
  example_hole "Window" 120 100 "Study" "front" (PFloat 90) (PFloat 15).

Definition house : store :=
  [(PStr "Hall", RBox hall_placed);
   (PStr "Door", RHole (with_thickness door (PInt 80)));
   (PStr "Study", RBox study);
   (PStr "Shelf", RBox shelf);
   (PStr "Window", RHole (with_thickness window (PInt 80)))].

(** [d'] is [d] with another position. *)
Definition moved (d d' : Box.t) : Prop :=
  d' = Box.set_position d (Box.position d').


(** The block of a dependent [c] of [b] in a walk: its own step, then the
    steps below it. *)
Definition block (dependents : dict (list pyval)) (limit : nat) (b c : pyval)
  : option (list (pyval * pyval)) :=
  match walk limit dependents c with
  | Some s => Some ((b, c) :: s)
  | None => None
  end.

(** The names of the Spaces and the Holes of a store, in its order. *)
Definition record_names (boxes : store) : list pyval :=
  flat_map
    (fun '(_, r) =>
       match r with
       | RBox b => [Box.name b]
       | RHole h => [Hole.name h]
       | _ => []
       end)
    boxes.

(** A Space the resolver can place: its position and dimensions are triples,
    its alignment is a string and its offset a float, as [Box.__init__]
    builds them from a row whose offset cell is empty. *)
Definition well_formed_box (b : Box.t) : Prop :=
  sized b /\
  (exists al, Box.alignment b = PStr al) /\
  (exists o, Box.offset b = PFloat o).

(** Every Space of the store can be placed. *)
Definition all_well_formed (boxes : store) : Prop :=
  forall k b, dict_get k boxes = Some (RBox b) -> well_formed_box b.

(** The records the steps name are there: the anchors are Spaces, the
    dependents have their name. *)
Definition steps_present (boxes : store) (steps : list (pyval * pyval))
  : Prop :=
  forall a c, In (a, c) steps ->
    (exists b, dict_get a boxes = Some (RBox b)) /\
    (exists r, dict_get c boxes = Some r /\ name_of r = Ok c).

(** A well-formed input of the resolver: the store [boxes], the tree
    [dependents] the builder made of it and its starting record [root].
    A name has one entry, its record ([wf_keys], [wf_named]); adjacency is
    acyclic and no deeper than the interpreter allows ([wf_walk]); every
    record with dependents is a Space and every dependent is a record of the
    store ([wf_steps]). *)
Record well_formed (limit : nat) (boxes : store)
  (dependents : dict (list pyval)) (root : pyval)
  (steps : list (pyval * pyval)) : Prop := {
  wf_keys : forall k r, In (k, r) boxes -> dict_get k boxes = Some r;
  wf_named : named boxes;
  wf_distinct : NoDup (record_names boxes);
  wf_boxes : all_well_formed boxes;
  wf_no_holes : forall k b, dict_get k boxes = Some (RBox b) ->
                            Box.holes b = [];
  wf_tree : generate_tree boxes = Ok (dependents, Some root);
  wf_root : exists b, dict_get root boxes = Some (RBox b);
  wf_walk : walk limit dependents root = Some steps;
  wf_steps : steps_present boxes steps
}.

(** The tree and the steps of the house. *)
Definition house_tree : dict (list pyval) :=
  [(PStr "start", [PStr "Hall"]);
   (PStr "Hall", [PStr "Door"; PStr "Study"]);
   (PStr "Study", [PStr "Shelf"; PStr "Window"])].

Definition house_steps : list (pyval * pyval) :=
  [(PStr "Hall", PStr "Door"); (PStr "Hall", PStr "Study");
   (PStr "Study", PStr "Shelf"); (PStr "Study", PStr "Window")].

(** ** The row classifier *)

(** The five functions that make an object from a row. *)
Inductive maker : Type :=
| MakeBox | MakeHole | MakeConstant | MakeType | MakeCustom.

Definition names_for_makers : list (maker * list string) :=
  [(MakeBox, ["room"; "shelf"; "shelves"; "box"]);
   (MakeHole, ["door"; "window"]);
   (MakeConstant, ["constant"]);
   (MakeType, ["type"]);
   (MakeCustom, ["__custom__"])].

(** [makers]: the table inverted, as the module builds it when loaded. *)
Definition makers : dict maker :=
  fold_left
    (fun table '(m, names) =>
       fold_left (fun table name => dict_set (PStr name) m table) names table)
    names_for_makers [].

(** [Type.__init__(self, data)]: the new kind is made by the maker of
    ['__custom__'] from then on.  [table] is the global [makers]. *)
Definition Type__init__ (data : row) (table : dict maker)
  : result (record * dict maker) :=
  name <- getitem data (PStr "name") ;;
  custom <- getitem table (PStr "__custom__") ;;
  Ok (RType data name, dict_set name custom table).

(** [Custom.__init__(self, data)] *)
Definition Custom__init__ (data : row) : record := RCustom data.

Section ReadLayout.
Context {rt : PyRuntime}.

(** The call [maker(row, opacity)] of one of the five functions. *)
Definition call_maker (m : maker) (data : row) (opacity : pyval)
  (table : dict maker) : result (record * dict maker) :=
  match m with
  | MakeBox => b <- Box__init__ data opacity ;; Ok (RBox b, table)
  | MakeHole => h <- Hole__init__ data ;; Ok (RHole h, table)
  | MakeConstant => c <- Constant__init__ data ;; Ok (RConstant c, table)
  | MakeType => Type__init__ data table
  | MakeCustom => Ok (Custom__init__ data, table)
  end.

(** The body of the comprehension of [read_layout]: the key [row['name']],
    then the record (the order of Python 3.8 and later). *)
Definition read_row (state : store * dict maker) (opacity : pyval)
  (data : row) : result (store * dict maker) :=
  let '(boxes, table) := state in
  name <- getitem data (PStr "name") ;;
  m <- getitem table (get_default data "type" (PStr "room")) ;;
  ' (box, table') <- call_maker m data opacity table ;;
  Ok (dict_set name box boxes, table').

(** [read_layout(filename, opacity)] on the rows [csv.DictReader] reads from
    the file; [table] is [makers] before the call, and its state after the
    call is returned with the store. *)
Definition read_layout (rows : list row) (opacity : pyval)
  (table : dict maker) : result (store * dict maker) :=
  for_each rows ([], table) (fun state data => read_row state opacity data).

End ReadLayout.

(** ** The box emitter and the output *)

Definition PREAMBLE1 : string :=
  unlines [""; "difference() {"; "  union() {"].

Definition PREAMBLE1DEBUG : string := unlines [""; "union() {"].

Definition INTERAMBLE : string := unlines ["  }"; "  union() {"].

Definition INTERAMBLEDEBUG : string :=
  unlines ["  }"; "color(" ++ dquote ++ "red" ++ dquote ++ ") union() {"].

Definition POSTAMBLE : string := unlines ["  }"; "}"].

Definition POSTAMBLEDEBUG : string := unlines ["  }"].

(** ["".join(...)] of a generator of strings, at its first exception. *)
Fixpoint join_results (l : list (result string)) : result string :=
  match l with
  | [] => Ok ""
  | r :: l' => s <- r ;; t <- join_results l' ;; Ok (s ++ t)
  end.

Section Output.
Context {rt : PyRuntime}.

(** The text [Box.write_scad] writes: [box(position, dimensions, colour,
    "name");]. *)
Definition box_statement (self : Box.t) : string :=
  "    box(" ++ py_str (PList (map PFloat (Box.position self))) ++ ", "
  ++ py_str (PList (map PFloat (Box.dimensions self))) ++ ", "
  ++ py_str (match Box.colour self with
             | PStr s => PStr (dquote ++ s ++ dquote)
             | c => c
             end) ++ ", "
  ++ dquote ++ py_str (Box.name self) ++ dquote ++ ");" ++ nl.

(** [Box.write_scad(self, stream)]: the stream after the write, and the
    string of the holes that the method returns. *)
Definition write_scad (self : Box.t) (stream : string)
  : string * result string :=
  (stream ++ box_statement self,
   join_results (map (fun hole => scad_string hole self) (Box.holes self))).

(** The generator [box.write_scad(outstream) for box in boxes.values() if
    isinstance(box, Box)] consumed by ["".join]: the stream, and the joined
    holes or the first exception. *)
Fixpoint write_boxes (boxes : store) (stream : string)
  : string * result string :=
  match boxes with
  | [] => (stream, Ok "")
  | (_, RBox box) :: boxes' =>
      let '(stream, holes) := write_scad box stream in
      match holes with
      | Ok h =>
          let '(stream, rest) := write_boxes boxes' stream in
          (stream, t <- rest ;; Ok (h ++ t))
      | Raise e => (stream, Raise e)
      end
  | _ :: boxes' => write_boxes boxes' stream
  end.

(** The [with open(output, 'w')] block of [make_scad_layout]: what the
    output file holds when the block is left, and how it is left. *)
Definition write_layout (boxes : store) (input_file_name sized_preamble : string)
  (debug : bool) : string * result unit :=
  let outstream := "// Produced from " ++ input_file_name ++ nl in
  let outstream := outstream ++ sized_preamble in
  let outstream :=
    outstream ++ (if debug then PREAMBLE1DEBUG else PREAMBLE1) in
  let '(outstream, holes) := write_boxes boxes outstream in
  match holes with
  | Ok holes =>
      (outstream ++ (if debug then INTERAMBLEDEBUG else INTERAMBLE)
       ++ holes ++ (if debug then POSTAMBLEDEBUG else POSTAMBLE), Ok tt)
  | Raise e => (outstream, Raise e)
  end.

End Output.

(** ** The tree printer *)

(** [print("|   " * depth + child)]: the line, or the [TypeError] of a name
    that is no string. *)
Definition tree_line (depth : nat) (child : pyval) : result string :=
  match child with
  | PStr s => Ok (repeat_string depth "|   " ++ s)
  | _ => Raise TypeError
  end.

(** A [for] loop whose body prints and may raise: the lines printed so far
    are kept when it does. *)
Fixpoint for_each_printing {A} (l : list A) (printed : list string)
  (body : A -> list string -> list string * result unit)
  : list string * result unit :=
  match l with
  | [] => (printed, Ok tt)
  | x :: l' =>
      match body x printed with
      | (printed', Ok _) => for_each_printing l' printed' body
      | (printed', Raise e) => (printed', Raise e)
      end
  end.

(** [show_tree(dependents, start, depth)]: the lines printed, and how the
    call ends.  [limit] is the depth of recursion the interpreter allows. *)
Fixpoint show_tree (limit : nat) (dependents : dict (list pyval))
  (start : pyval) (depth : nat) (printed : list string)
  : list string * result unit :=
  match limit with
  | O => (printed, Raise RecursionError)
  | S limit' =>
      match dict_get start dependents with
      | None => (printed, Ok tt)
      | Some names =>
          for_each_printing names printed
            (fun child printed =>
               match tree_line depth child with
               | Ok line =>
                   show_tree limit' dependents child (S depth)
                     (printed ++ [line])%list
               | Raise e => (printed, Raise e)
               end)
      end
  end.

(** ** Vocabulary of the statements about the tree, the rows and the output *)

(** The names of the Spaces and the Holes of the store whose [adjacent] is
    [a], in the order of the store. *)
Definition dependents_of (boxes : store) (a : pyval) : list pyval :=
  flat_map
    (fun '(_, r) =>
       match r with
       | RBox b => if key_eqb a (Box.adjacent b) then [Box.name b] else []
       | RHole h => if key_eqb a (Hole.adjacent h) then [Hole.name h] else []
       | _ => []
       end)
    boxes.

(** The Spaces and the Holes of the store whose [adjacent] is ['start']:
    their keys and their names, in the order of the store. *)
Definition starts (boxes : store) : list (pyval * pyval) :=
  flat_map
    (fun '(k, r) =>
       match r with
       | RBox b =>
           if str_eq (Box.adjacent b) "start" then [(k, Box.name b)] else []
       | RHole h =>
           if str_eq (Hole.adjacent h) "start" then [(k, Hole.name h)] else []
       | _ => []
       end)
    boxes.

(** The [adjacent] of every Space and Hole is a key that is looked up by
    value, as the csv cells are: a string, or [None] where the cell is
    missing. *)
Definition adjacent_cells (boxes : store) : Prop :=
  forall k r a, In (k, r) boxes -> adjacent_of r = Ok a ->
                key_eqb a a = true.

(** The Holes among the dependents of [a], in the order of the tree. *)
Definition hole_dependents (boxes : store) (dependents : dict (list pyval))
  (a : pyval) : list Hole.t :=
  flat_map
    (fun c => match dict_get c boxes with
              | Some (RHole h) => [h]
              | _ => []
              end)
    (children dependents a).

(** The entries of [s'] are those of [s], key by key in the same order, each
    record changed in what the resolver may change. *)
Definition entries_evolve (s s' : store) : Prop :=
  Forall2
    (fun e e' => fst e = fst e' /\ record_evolves (snd e) (snd e'))
    s s'.

(** The house after the resolver. *)
Definition house_resolved : store :=
  match position_dependents 10 house house_tree (PStr "Hall") 1 with
  | Ok boxes => boxes
  | Raise _ => house
  end.

(** The dependents the steps handle under the anchor [a], in their order. *)
Definition anchored (a : pyval) (steps : list (pyval * pyval)) : list pyval :=
  map snd (filter (fun step => key_eqb (fst step) a) steps).

(** A record named ['start'] next to the hall: the hall is its dependent and
    it is a dependent of the hall. *)
Definition start_room : Box.t :=
  example_box "room" "start" 100 100 240 "Hall" "behind" "left".

Definition knot : store :=
  [(PStr "Hall", RBox hall_placed); (PStr "start", RBox start_room)].

Definition knot_tree : dict (list pyval) :=
  [(PStr "start", [PStr "Hall"]); (PStr "Hall", [PStr "start"])].

(** The house, and a cellar and a vault that are adjacent to each other and
    to nothing else. *)
Definition cellar : Box.t :=
  example_box "room" "Cellar" 300 300 200 "Vault" "right" "front".

Definition vault : Box.t :=
  example_box "room" "Vault" 150 150 200 "Cellar" "left" "front".

Definition estate : store :=
  (house ++ [(PStr "Cellar", RBox cellar); (PStr "Vault", RBox vault)])%list.

Definition estate_tree : dict (list pyval) :=
  (house_tree ++ [(PStr "Vault", [PStr "Cellar"]);
                  (PStr "Cellar", [PStr "Vault"])])%list.

Definition estate_resolved : store :=
  match position_dependents 10 estate estate_tree (PStr "Hall") 1 with
  | Ok boxes => boxes
  | Raise _ => estate
  end.

(** A row that has no alignment column. *)
Definition attic_row : row :=
  [(PStr "type", PStr "room"); (PStr "name", PStr "Attic");
   (PStr "width", PStr "300"); (PStr "depth", PStr "200");
   (PStr "height", PStr "150"); (PStr "adjacent", PStr "Hall");
   (PStr "direction", PStr "above")].

(** The Space [Box.__init__] builds from it. *)
Definition attic : Box.t :=
  Box.mk (PStr "room") (PStr "Attic") [300; 200; 150]%float [0; 0; 0]%float
    (PStr "Hall") (PStr "above") PNone (PFloat 0) [] no_neighbours grey.

(** The row of the door of the hall. *)
Definition door_row : row :=
  csv_row "door" "Door" "90" "200" "0" "Hall" "right" "" "50".

(** The store of the hall after the adjuster, and its preamble. *)
Definition hall_adjusted : store * string :=
  match adjust_dimensions hall_store with
  | Ok r => r
  | Raise _ => (hall_store, "")
  end.

(** The name cell of every row is a key that is looked up by value, as the
    csv cells are: a string, or [None]. *)
Definition name_cells (rows : list row) : Prop :=
  forall data n, In data rows ->
    dict_get (PStr "name") data = Some n -> key_eqb n n = true.

(** A store as the reader leaves it: the keys are distinct csv cells, a
    record that has a name is stored under it, and a Space has three
    dimensions, a position and no holes. *)
Definition fresh_store (boxes : store) : Prop :=
  NoDup (map fst boxes) /\
  (forall k r, In (k, r) boxes ->
     key_eqb k k = true /\
     (forall n, name_of r = Ok n -> n = k) /\
     (forall b, r = RBox b -> sized b /\ Box.holes b = [])).

(** The rows of a plan: the hall, its door and the kitchen. *)
Definition hall_row : row :=
  csv_row "room" "Hall" "300" "200" "250" "start" "" "" "".

Definition plan_rows : list row := [hall_row; door_row; kitchen_row].

Definition plan : store * dict maker :=
  match read_layout plan_rows (PFloat 1) makers with
  | Ok r => r
  | Raise _ => ([], makers)
  end.

(** Rows that declare the kind [cupboard] and use it. *)
Definition cupboard_rows : list row :=
  [csv_row "type" "cupboard" "" "" "" "" "" "" "";
   csv_row "cupboard" "Larder" "60" "60" "200" "Hall" "right" "" ""].

Definition declared : store * dict maker :=
  match read_layout cupboard_rows (PFloat 1) makers with
  | Ok r => r
  | Raise _ => ([], makers)
  end.

(** ["".join(l)] of a list of strings. *)
Definition join (l : list string) : string := fold_right append "" l.

(** The Spaces of the store, in its order. *)
Definition spaces (boxes : store) : list Box.t :=
  flat_map (fun '(_, r) => match r with RBox b => [b] | _ => [] end) boxes.

(** The holes to write, each with the Space it is attached to: Space by
    Space in the order of the store, and in the order of attachment. *)
Definition attachments (boxes : store) : list (Hole.t * Box.t) :=
  flat_map (fun b => map (fun h => (h, b)) (Box.holes b)) (spaces boxes).

(** [c] is at depth [n] under [a]: a dependent of [a] is at depth 0, a
    dependent of a record at depth [n] is at depth [S n]. *)
Inductive at_depth (dependents : dict (list pyval)) (a : pyval)
  : nat -> pyval -> Prop :=
| depth_child c : In c (children dependents a) -> at_depth dependents a 0 c
| depth_step n p c :
    at_depth dependents a n p -> In c (children dependents p) ->
    at_depth dependents a (S n) c.

(** The line [show_tree] prints for the dependent of a step, from a call at
    [depth] on [start]. *)
Definition line_of (dependents : dict (list pyval)) (start : pyval)
  (depth : nat) (step : pyval * pyval) (line : string) : Prop :=
  exists n s,
    snd step = PStr s /\ at_depth dependents start n (snd step) /\
    line = repeat_string (depth + n) "|   " ++ s.

(** The steps of the house from ['start']. *)
Definition house_steps_from_start : list (pyval * pyval) :=
  (PStr "start", PStr "Hall") :: house_steps.

(** A number: what arithmetic with a float and [%g] accept. *)
Definition numeric (v : pyval) : Prop := exists f, as_float v = Ok f.

(** A Hole whose offset and height are numbers, as [Hole.__init__] builds
    it. *)
Definition renderable (h : Hole.t) : Prop :=
  numeric (Hole.offset h) /\ numeric (Hole.height h).

(** A store the emitter can write: every Space has three dimensions and
    renderable holes, and every Hole of the store is renderable. *)
Definition writable (boxes : store) : Prop :=
  (forall k b, In (k, RBox b) boxes ->
     length (Box.dimensions b) = 3 /\
     forall h, In h (Box.holes b) -> renderable h) /\
  (forall k h, dict_get k boxes = Some (RHole h) -> renderable h).

(** The tree of the plan. *)
Definition plan_tree : dict (list pyval) * option pyval :=
  match generate_tree (fst plan) with
  | Ok r => r
  | Raise _ => ([], None)
  end.

(** [r'] is [r] with other dimensions, as many as [r] has. *)
Definition resized (r r' : record) : Prop :=
  match r, r' with
  | RBox b, RBox b' =>
      b' = Box.set_dimensions b (Box.dimensions b') /\
      length (Box.dimensions b') = length (Box.dimensions b)
  | RHole h, RHole h' =>
      h' = Hole.mk (Hole.name h) (Hole.dimensions h') (Hole.adjacent h)
             (Hole.direction h) (Hole.height h) (Hole.offset h) /\
      length (Hole.dimensions h') = length (Hole.dimensions h)
  | _, _ => r = r'
  end.



(** ** The converter *)












Section Converter.
Context {rt : PyRuntime}.




End Converter.




(** * Properties *)

Open Scope list_scope.
Unset Implicit Arguments.

(** ** Helper lemmas *)

Lemma str_eq_true v s : str_eq v s = true -> v = PStr s.
Proof.
  destruct v; simpl; try discriminate.
  intros H. apply String.eqb_eq in H. now subst.
Qed.

Lemma length3 {A} (l : list A) : length l = 3 -> exists a b c, l = [a; b; c].
Proof.
  destruct l as [|a [|b [|c [|? ?]]]]; simpl; try discriminate.
  intros _. now exists a, b, c.
Qed.

(** Two floats with different images in the specification format are
    different. *)
Lemma float_neq (x y : float) : Prim2SF x <> Prim2SF y -> x <> y.
Proof. intros H E. apply H. now rewrite E. Qed.

Ltac open_boxes a d :=
  let Hpa := fresh in let Hda := fresh in
  let Hpd := fresh in let Hdd := fresh in
  intros [Hpa Hda] [Hpd Hdd];
  destruct a as [? ? ? ? ? ? ? ? ? ? ?];
  destruct d as [? ? ? ? ? ? ? ? ? ? ?];
  simpl in *;
  apply length3 in Hpa as (? & ? & ? & ->);
  apply length3 in Hda as (? & ? & ? & ->);
  apply length3 in Hpd as (? & ? & ? & ->);
  apply length3 in Hdd as (? & ? & ? & ->).

Ltac inv_bind H :=
  match type of H with
  | bind ?m _ = Ok _ =>
      let E := fresh "E" in
      destruct m eqn:E; cbn [bind] in H; [|discriminate H]
  end.

Ltac case_if :=
  match goal with
  | |- context [if ?c then _ else _] => destruct c
  end.

(** ** The four loops in closed form *)

Lemma abut_after_spec a d x :
  sized a -> sized d -> length x = 3 ->
  abut_after (RBox a) (Box.set_position d x)
  = Ok (Box.set_position d (axes (after_axis a d x))).
Proof.
  intros Ha Hd Hx. apply length3 in Hx as (x0 & x1 & x2 & ->).
  revert Ha Hd. open_boxes a d.
  unfold after_axis, axes, abut_after.
  cbn -[str_eq].
  repeat (case_if; cbn -[str_eq]); reflexivity.
Qed.

Lemma abut_before_spec a d x :
  sized a -> sized d -> length x = 3 ->
  abut_before (RBox a) (Box.set_position d x)
  = Ok (Box.set_position d (axes (before_axis a d x))).
Proof.
  intros Ha Hd Hx. apply length3 in Hx as (x0 & x1 & x2 & ->).
  revert Ha Hd. open_boxes a d.
  unfold before_axis, axes, abut_before.
  cbn -[str_eq].
  repeat (case_if; cbn -[str_eq]); reflexivity.
Qed.

Lemma align_low_spec a d al o x :
  sized a -> sized d -> length x = 3 ->
  Box.alignment d = PStr al -> Box.offset d = PFloat o ->
  align_low (RBox a) (Box.set_position d x)
  = Ok (Box.set_position d (axes (low_axis a al o x))).
Proof.
  intros Ha Hd Hx. apply length3 in Hx as (x0 & x1 & x2 & ->).
  revert Ha Hd. open_boxes a d. intros -> ->.
  unfold low_axis, axes, align_low.
  cbn -[substring_of].
  repeat (case_if; cbn -[substring_of]); reflexivity.
Qed.

Lemma align_high_spec a d al o x :
  sized a -> sized d -> length x = 3 ->
  Box.alignment d = PStr al -> Box.offset d = PFloat o ->
  align_high (RBox a) (Box.set_position d x)
  = Ok (Box.set_position d (axes (high_axis a d al o x))).
Proof.
  intros Ha Hd Hx. apply length3 in Hx as (x0 & x1 & x2 & ->).
  revert Ha Hd. open_boxes a d. intros -> ->.
  unfold high_axis, axes, align_high.
  cbn -[substring_of].
  repeat (case_if; cbn -[substring_of]); reflexivity.
Qed.

Lemma set_position_same d : Box.set_position d (Box.position d) = d.
Proof. now destruct d. Qed.

Lemma abut_spec a d :
  sized a -> sized d ->
  abut (RBox a) d = Ok (Box.set_position d (abut_position a d)).
Proof.
  intros Ha Hd. unfold abut.
  rewrite <- (set_position_same d) at 1.
  rewrite abut_after_spec by (try assumption; apply Hd). cbn [bind].
  now rewrite abut_before_spec.
Qed.

Lemma place_spec a d al o :
  sized a -> sized d ->
  Box.alignment d = PStr al -> Box.offset d = PFloat o ->
  place (RBox a) d = Ok (Box.set_position d (place_position a d al o)).
Proof.
  intros Ha Hd Hal Ho. unfold place. rewrite abut_spec by assumption.
  cbn [bind]. unfold align.
  rewrite align_low_spec with (al := al) (o := o) by easy.
  cbn [bind]. now rewrite align_high_spec with (al := al) (o := o).
Qed.

Lemma position_set_position d p : Box.position (Box.set_position d p) = p.
Proof. reflexivity. Qed.

(** ** Abutment by direction *)

(** C1. A dependent Space [d] is resolved against the anchor [a]; on every
    axis [i], when the direction of [d] is the [i]-th of (right, behind,
    above), the direction loops set its coordinate to the anchor's coordinate
    plus the anchor's dimension, and when it is the [i]-th of (left, front,
    below), to the anchor's coordinate minus the dependent's own dimension.
    The coordinate is the final one whenever the alignment of [d] names no
    face of that axis. *)
Theorem direction_sets_position (a d : Box.t) (i : nat) :
  i < 3 -> sized a -> sized d ->
  exists d', abut (RBox a) d = Ok d' /\
    (str_eq (Box.direction d) (token after_tokens i) = true ->
     axis (Box.position d') i
     = (axis (Box.position a) i + axis (Box.dimensions a) i)%float) /\
    (str_eq (Box.direction d) (token before_tokens i) = true ->
     axis (Box.position d') i
     = (axis (Box.position a) i - axis (Box.dimensions d) i)%float) /\
    (forall al o,
       Box.alignment d = PStr al -> Box.offset d = PFloat o ->
       substring_of (token low_tokens i) al = false ->
       substring_of (token high_tokens i) al = false ->
       exists d'', place (RBox a) d = Ok d'' /\
         axis (Box.position d'') i = axis (Box.position d') i).
Proof.
  intros Hi Ha Hd. eexists. split; [apply abut_spec; assumption|].
  rewrite position_set_position.
  split; [|split].
  - intros H. apply str_eq_true in H.
    unfold abut_position, before_axis, after_axis. rewrite H.
    destruct i as [|[|[|i]]]; try lia; reflexivity.
  - intros H. apply str_eq_true in H.
    unfold abut_position, before_axis, after_axis. rewrite H.
    destruct i as [|[|[|i]]]; try lia; reflexivity.
  - intros al o Hal Ho Hlow Hhigh. eexists.
    split; [apply place_spec; eassumption|].
    rewrite position_set_position. unfold place_position, high_axis, low_axis.
    destruct i as [|[|[|i]]]; try lia; cbn [axes axis nth];
      rewrite Hhigh, Hlow; reflexivity.
Qed.

Lemma direction_sets_position_witness :
  exists d', abut (RBox hall_placed) study = Ok d' /\
    (str_eq (Box.direction study) (token after_tokens 0) = true ->
     axis (Box.position d') 0
     = (axis (Box.position hall_placed) 0
        + axis (Box.dimensions hall_placed) 0)%float) /\
    (str_eq (Box.direction study) (token before_tokens 0) = true ->
     axis (Box.position d') 0
     = (axis (Box.position hall_placed) 0
        - axis (Box.dimensions study) 0)%float) /\
    (forall al o,
       Box.alignment study = PStr al -> Box.offset study = PFloat o ->
       substring_of (token low_tokens 0) al = false ->
       substring_of (token high_tokens 0) al = false ->
       exists d'', place (RBox hall_placed) study = Ok d'' /\
         axis (Box.position d'') 0 = axis (Box.position d') 0).
Proof.
  apply (@direction_sets_position hall_placed study 0);
    [lia | split; reflexivity | split; reflexivity].
Defined.

(** ** Alignment *)

(** C2, as the specification states it, fails: an alignment that names
    both the low and the high face of an axis gets the high-face coordinate,
    since the loop of the high faces runs last. *)
Lemma alignment_rule_as_specified_fails :
  ~ alignment_rule_as_specified hall_placed wide_shelf 0.
Proof.
  intros (d' & Hp & Hlow & _).
  specialize (Hlow eq_refl).
  assert (Hx : axis (Box.position d') 0 = 280%float).
  { change (match Ok d' with
            | Ok b => axis (Box.position b) 0
            | Raise _ => 0%float
            end = 280%float).
    rewrite <- Hp. reflexivity. }
  rewrite Hx in Hlow.
  assert (H : 0%float = 280%float).
  { change (match float_add (axis (Box.position hall_placed) 0)
                    (Box.offset wide_shelf) with
            | Ok x => x
            | Raise _ => 0%float
            end = 280%float).
    rewrite Hlow. reflexivity. }
  revert H. apply float_neq. vm_compute. discriminate.
Qed.

(** C2, amended.  For a dependent whose offset is a number: on every axis
    [i], when the alignment contains the [i]-th of (right, back, top) the
    final coordinate is the anchor's coordinate plus the anchor's dimension
    minus the dependent's dimension plus the offset; when it contains the
    [i]-th of (left, front, bottom) and not the high token of that axis, the
    final coordinate is the anchor's coordinate plus the offset.  Both hold
    whatever the direction is: alignment is evaluated after direction. *)
Theorem alignment_sets_position (a d : Box.t) (i : nat) (al : string)
  (o : float) :
  i < 3 -> sized a -> sized d ->
  Box.alignment d = PStr al -> Box.offset d = PFloat o ->
  exists d', place (RBox a) d = Ok d' /\
    (substring_of (token high_tokens i) al = true ->
     axis (Box.position d') i
     = (axis (Box.position a) i + axis (Box.dimensions a) i
        - axis (Box.dimensions d) i + o)%float) /\
    (substring_of (token low_tokens i) al = true ->
     substring_of (token high_tokens i) al = false ->
     axis (Box.position d') i = (axis (Box.position a) i + o)%float).
Proof.
  intros Hi Ha Hd Hal Ho. eexists.
  split; [apply place_spec; eassumption|].
  rewrite position_set_position. unfold place_position, high_axis, low_axis.
  split.
  - intros Hhigh.
    destruct i as [|[|[|i]]]; try lia; cbn [axes axis nth];
      rewrite Hhigh; reflexivity.
  - intros Hlow Hhigh.
    destruct i as [|[|[|i]]]; try lia; cbn [axes axis nth];
      rewrite Hhigh, Hlow; reflexivity.
Qed.

Lemma alignment_sets_position_witness :
  exists d', place (RBox hall_placed) study = Ok d' /\
    (substring_of (token high_tokens 1) "front" = true ->
     axis (Box.position d') 1
     = (axis (Box.position hall_placed) 1
        + axis (Box.dimensions hall_placed) 1
        - axis (Box.dimensions study) 1 + 0)%float) /\
    (substring_of (token low_tokens 1) "front" = true ->
     substring_of (token high_tokens 1) "front" = false ->
     axis (Box.position d') 1
     = (axis (Box.position hall_placed) 1 + 0)%float).
Proof.
  apply (@alignment_sets_position hall_placed study 1 "front" 0%float);
    [lia | split; reflexivity | split; reflexivity
     | reflexivity | reflexivity].
Defined.

(** ** Dictionaries *)

Lemma key_eqb_eq a b : key_eqb a b = true -> a = b.
Proof.
  destruct a, b; simpl; try discriminate; intros H.
  - reflexivity.
  - apply String.eqb_eq in H. now subst.
  - apply Z.eqb_eq in H. now subst.
Qed.

Lemma dict_get_In {V} k (d : dict V) v : dict_get k d = Some v -> In (k, v) d.
Proof.
  induction d as [|[k' v'] d IH]; simpl; [discriminate|].
  destruct (key_eqb k k') eqn:E.
  - intros [= <-]. apply key_eqb_eq in E. subst. now left.
  - intros H. right. now apply IH.
Qed.

Lemma dict_get_refl {V} k (d : dict V) v :
  dict_get k d = Some v -> key_eqb k k = true.
Proof.
  induction d as [|[k' v'] d IH]; simpl; [discriminate|].
  destruct (key_eqb k k') eqn:E; [|exact IH].
  intros _. apply key_eqb_eq in E as E'. now subst.
Qed.

Lemma dict_get_set_eq {V} k (v : V) d :
  key_eqb k k = true -> dict_get k (dict_set k v d) = Some v.
Proof.
  intros Hk. induction d as [|[k' v'] d IH]; simpl.
  - now rewrite Hk.
  - destruct (key_eqb k k') eqn:E; simpl; rewrite E; [reflexivity|exact IH].
Qed.

Lemma dict_get_set_neq {V} k k0 (v : V) d :
  key_eqb k k0 = false -> dict_get k (dict_set k0 v d) = dict_get k d.
Proof.
  intros Hk. induction d as [|[k' v'] d IH]; simpl.
  - now rewrite Hk.
  - destruct (key_eqb k0 k') eqn:E; simpl.
    + apply key_eqb_eq in E. subst k'. now rewrite Hk.
    + now rewrite IH.
Qed.

Lemma dict_get_app {V} k (d1 d2 : dict V) :
  dict_get k (d1 ++ d2)
  = match dict_get k d1 with Some v => Some v | None => dict_get k d2 end.
Proof.
  induction d1 as [|[k' v'] d1 IH]; simpl; [reflexivity|].
  now destruct (key_eqb k k').
Qed.

Lemma dict_set_absent {V} k (v : V) d :
  dict_get k d = None -> dict_set k v d = d ++ [(k, v)].
Proof.
  induction d as [|[k' v'] d IH]; simpl; [reflexivity|].
  destruct (key_eqb k k'); [discriminate|].
  intros H. now rewrite IH.
Qed.

(** ** The loop over the values of a dictionary *)

Lemma for_values_get {V} (f : V -> result V) d d' k v :
  for_values d f = Ok d' -> dict_get k d = Some v ->
  exists v', f v = Ok v' /\ dict_get k d' = Some v'.
Proof.
  revert d'. induction d as [|[k0 v0] d IH]; intros d'; simpl; [discriminate|].
  destruct (f v0) as [v0'|] eqn:Ef; simpl; [|discriminate].
  destruct (for_values d f) as [r|] eqn:Er; simpl; [|discriminate].
  intros [= <-]. simpl. destruct (key_eqb k k0).
  - intros [= <-]. now exists v0'.
  - intros H. now apply (IH r).
Qed.

Lemma for_values_total {V} (f : V -> result V) d :
  (forall k v, In (k, v) d -> exists v', f v = Ok v') ->
  exists d', for_values d f = Ok d'.
Proof.
  induction d as [|[k0 v0] d IH]; intros H; simpl; [now eexists|].
  destruct (H k0 v0) as [v0' ->]; [now left|].
  destruct IH as [r ->]; [intros k v Hin; apply (H k v); now right|].
  simpl. now eexists.
Qed.

Lemma for_values_app {V} (f : V -> result V) d1 d2 r1 r2 :
  for_values d1 f = Ok r1 -> for_values d2 f = Ok r2 ->
  for_values (d1 ++ d2) f = Ok (r1 ++ r2).
Proof.
  revert r1. induction d1 as [|[k0 v0] d1 IH]; intros r1; simpl.
  - now intros [= <-].
  - destruct (f v0) as [v0'|]; simpl; [|discriminate].
    destruct (for_values d1 f) as [r|] eqn:Er; simpl; [|discriminate].
    intros [= <-] H2. now rewrite (IH r eq_refl H2).
Qed.

(** ** The default constants *)

Lemma add_default_constants_spec boxes :
  add_default_constants boxes = Ok (boxes ++ missing_defaults boxes).
Proof.
  unfold add_default_constants, missing_defaults, DEFAULT_CONSTANTS, dict_mem.
  cbn [for_each flat_map bind].
  destruct (dict_get (PStr "wall_thickness") boxes) eqn:Ew;
    cbn [bind getitem dict_get key_eqb Constant__init__];
    rewrite ?(dict_set_absent _ _ _ Ew), ?dict_get_app;
  destruct (dict_get (PStr "floor_thickness") boxes) eqn:Ef;
    cbn [bind getitem dict_get key_eqb Constant__init__ String.eqb Ascii.eqb
         Bool.eqb];
    rewrite ?dict_set_absent, ?dict_get_app, ?Ef, ?Ew by
      (rewrite ?dict_get_app, ?Ef, ?Ew; reflexivity);
  destruct (dict_get (PStr "ceiling_thickness") boxes) eqn:Ec;
    cbn [bind getitem dict_get key_eqb Constant__init__ String.eqb Ascii.eqb
         Bool.eqb];
    rewrite ?dict_set_absent, ?dict_get_app, ?Ec by
      (rewrite ?dict_get_app, ?Ec; reflexivity);
    rewrite <- ?app_assoc, ?app_nil_r; reflexivity.
Qed.

Lemma constant_after_defaults boxes name default :
  In (PStr name, default) DEFAULT_CONSTANTS ->
  (c <- getitem (boxes ++ missing_defaults boxes) (PStr name) ;; value_of c)
  = constant boxes name default.
Proof.
  intros Hin. unfold constant, getitem. rewrite dict_get_app.
  destruct (dict_get (PStr name) boxes) as [r|] eqn:E; [reflexivity|].
  unfold missing_defaults, DEFAULT_CONSTANTS, dict_mem in *.
  simpl in Hin.
  destruct Hin as [H|[H|[H|[]]]]; injection H as <- <-;
    cbn [flat_map]; rewrite ?E;
    repeat match goal with
    | |- context [match dict_get ?k boxes with _ => _ end] =>
        destruct (dict_get k boxes)
    end; reflexivity.
Qed.

Lemma for_values_constants (f : record -> result record) boxes :
  (forall c, f (RConstant c) = Ok (RConstant c)) ->
  for_values (missing_defaults boxes) f = Ok (missing_defaults boxes).
Proof.
  intros Hf. unfold missing_defaults, DEFAULT_CONSTANTS. cbn [flat_map].
  repeat match goal with
  | |- context [if ?c then _ else _] => destruct c
  end; cbn [app for_values]; rewrite ?Hf; reflexivity.
Qed.

(** ** The dimension adjuster on one record *)

Lemma adjust_room b wt ft ct w s fc :
  length (Box.dimensions b) = 3 ->
  str_eq (Box.box_type b) "room" = true ->
  as_float wt = Ok w -> py_add ft ct = Ok s -> as_float s = Ok fc ->
  adjust_record wt ft ct (RBox b) = Ok (RBox (external b w fc)).
Proof.
  intros Hlen Hroom Hw Hs Hfc. unfold adjust_record. rewrite Hroom.
  destruct b as [ty na dims po ad di al off ho ne co]. simpl in Hlen.
  apply length3 in Hlen as (x & y & z & ->).
  unfold add_to_dimension, float_add, external. cbn -[as_float py_add].
  rewrite Hw. cbn -[as_float py_add].
  rewrite Hs. cbn -[as_float py_add]. rewrite Hfc. reflexivity.
Qed.

Lemma adjust_other_box b wt ft ct :
  str_eq (Box.box_type b) "room" = false ->
  adjust_record wt ft ct (RBox b) = Ok (RBox b).
Proof. intros H. unfold adjust_record. now rewrite H. Qed.

Lemma adjust_hole h wt ft ct t :
  length (Hole.dimensions h) = 3 ->
  py_mul_int wt 8 = Ok t ->
  adjust_record wt ft ct (RHole h) = Ok (RHole (with_thickness h t)).
Proof.
  intros Hlen Ht. unfold adjust_record, with_thickness. rewrite Ht.
  destruct h as [na dims ad di he off]. simpl in *.
  apply length3 in Hlen as (x & y & z & ->). reflexivity.
Qed.


(** ** The dimension adjuster on the store *)

Section Adjuster.
Context {rt : PyRuntime}.

Lemma adjust_dimensions_spec boxes wt ft ct w f c s fc t :
  constant boxes "wall_thickness" (PInt 10) = Ok wt ->
  constant boxes "floor_thickness" (PInt 10) = Ok ft ->
  constant boxes "ceiling_thickness" (PInt (-1)) = Ok ct ->
  as_float wt = Ok w -> as_float ft = Ok f -> as_float ct = Ok c ->
  py_add ft ct = Ok s -> as_float s = Ok fc ->
  py_mul_int wt 8 = Ok t ->
  (forall k b, In (k, RBox b) boxes -> length (Box.dimensions b) = 3) ->
  (forall k h, In (k, RHole h) boxes -> length (Hole.dimensions h) = 3) ->
  exists boxes' pre,
    adjust_dimensions boxes = Ok (boxes', pre) /\
    forall k r, dict_get k boxes = Some r ->
                dict_get k boxes' = Some (adjusted w fc t r).
Proof.
  intros Hwt Hft Hct Hw Hf Hc Hs Hfc Ht Hbox Hhole.
  assert (Hrec : forall k r, In (k, r) boxes ->
            adjust_record wt ft ct r = Ok (adjusted w fc t r)).
  { intros k [b|h|? |? ?|?] Hin; try reflexivity.
    - cbn [adjusted]. destruct (str_eq (Box.box_type b) "room") eqn:E.
      + eapply adjust_room; eauto.
      + now apply adjust_other_box.
    - cbn [adjusted]. eapply adjust_hole; eauto. }
  destruct (for_values_total (adjust_record wt ft ct) boxes) as [r1 Hr1].
  { intros k r Hin. rewrite (Hrec k r Hin). now eexists. }
  unfold adjust_dimensions. rewrite add_default_constants_spec. cbn [bind].
  rewrite (constant_after_defaults boxes "wall_thickness" (PInt 10)), Hwt
    by (simpl; auto).
  cbn [bind].
  rewrite (constant_after_defaults boxes "floor_thickness" (PInt 10)), Hft
    by (simpl; auto).
  cbn [bind].
  rewrite (constant_after_defaults boxes "ceiling_thickness" (PInt (-1))), Hct
    by (simpl; auto).
  cbn [bind].
  rewrite (for_values_app _ _ _ _ _ Hr1
             (for_values_constants (adjust_record wt ft ct) boxes
                (fun _ => eq_refl))).
  cbn [bind]. unfold PREAMBLE0, py_format_g. rewrite Hw, Hf, Hc. cbn [bind].
  do 2 eexists. split; [reflexivity|].
  intros k r Hget. rewrite dict_get_app.
  destruct (for_values_get _ _ _ _ _ Hr1 Hget) as (v' & Hv' & ->).
  rewrite (Hrec k r (dict_get_In _ _ _ Hget)) in Hv'. now injection Hv' as <-.
Qed.

End Adjuster.

(** ** Room dimensions *)

Section RoomDimensions.
Context {rt : PyRuntime}.

(** C5. The adjuster turns every room into its external dimensions: with
    the wall thickness [w] and the sum [fc] of the floor and ceiling
    thicknesses, a room of dimensions (x, y, z) gets (x + w, y + w, z + fc),
    and a Space of another kind is left as it is.  With the defaults, which
    apply when the input has no such constants, the hall of 300 by 200 by 250
    becomes 310 by 210 by 259. *)
Theorem rooms_become_external :
  (forall boxes wt ft ct w f c s fc t,
     constant boxes "wall_thickness" (PInt 10) = Ok wt ->
     constant boxes "floor_thickness" (PInt 10) = Ok ft ->
     constant boxes "ceiling_thickness" (PInt (-1)) = Ok ct ->
     as_float wt = Ok w -> as_float ft = Ok f -> as_float ct = Ok c ->
     py_add ft ct = Ok s -> as_float s = Ok fc ->
     py_mul_int wt 8 = Ok t ->
     (forall k b, In (k, RBox b) boxes -> length (Box.dimensions b) = 3) ->
     (forall k h, In (k, RHole h) boxes -> length (Hole.dimensions h) = 3) ->
     exists boxes' pre,
       adjust_dimensions boxes = Ok (boxes', pre) /\
       forall k b, dict_get k boxes = Some (RBox b) ->
         dict_get k boxes'
         = Some (RBox (if str_eq (Box.box_type b) "room"
                       then external b w fc else b))) /\
  (constant hall_store "wall_thickness" (PInt 10) = Ok (PInt 10) /\
   constant hall_store "floor_thickness" (PInt 10) = Ok (PInt 10) /\
   constant hall_store "ceiling_thickness" (PInt (-1)) = Ok (PInt (-1)) /\
   exists boxes' pre b',
     adjust_dimensions hall_store = Ok (boxes', pre) /\
     dict_get (PStr "Hall") boxes' = Some (RBox b') /\
     Box.dimensions b' = [310; 210; 259]%float /\
     Box.position b' = [0; 0; 0]%float).
Proof.
  split.
  - intros boxes wt ft ct w f c s fc t Hwt Hft Hct Hw Hf Hc Hs Hfc Ht Hb Hh.
    destruct (adjust_dimensions_spec boxes wt ft ct w f c s fc t)
      as (boxes' & pre & Hok & Hget); try assumption.
    exists boxes', pre. split; [exact Hok|].
    intros k b Hk. rewrite (Hget k _ Hk). cbn [adjusted].
    now destruct (str_eq (Box.box_type b) "room").
  - repeat split; try reflexivity.
    do 3 eexists. repeat split; reflexivity.
Qed.

End RoomDimensions.

Lemma rooms_become_external_witness :
  exists boxes' pre,
    adjust_dimensions hall_store = Ok (boxes', pre) /\
    forall k b, dict_get k hall_store = Some (RBox b) ->
      dict_get k boxes'
      = Some (RBox (if str_eq (Box.box_type b) "room"
                    then external b 10 9 else b)).
Proof.
  apply (proj1 (@rooms_become_external sample_runtime) hall_store (PInt 10) (PInt 10)
           (PInt (-1)) 10%float 10%float (-1)%float (PInt 9) 9%float
           (PInt 80)); try reflexivity.
  - intros k b [[= <- <-]|[]]. reflexivity.
  - intros k h [[=]|[]].
Defined.

(** ** Holes: thickness and emitted vectors *)

Lemma string_append_assoc (a b c : string) :
  ((a ++ b) ++ c = a ++ (b ++ c))%string.
Proof. induction a as [|x a IH]; simpl; [reflexivity|now rewrite IH]. Qed.

Section HoleStatements.
Context {rt : PyRuntime}.

(** The text [scad_string] writes is the rendering of the statement. *)
Lemma scad_string_renders (h : Hole.t) (parent : Box.t) :
  scad_string h parent = (st <- scad_statement h parent ;; render_statement st).
Proof.
  unfold scad_string, scad_statement.
  destruct (if str_eq (Hole.direction h) "right"
            then d <- list_get (Box.dimensions parent) 0 ;; Ok (PFloat d)
            else Ok (PInt 0)) as [x|]; [|reflexivity].
  cbn [bind].
  destruct (if str_eq (Hole.direction h) "back"
            then d <- list_get (Box.dimensions parent) 1 ;; Ok (PFloat d)
            else Ok (PInt 0)) as [y|]; [|reflexivity].
  cbn [bind].
  unfold render_statement, render_vector.
  cbn [preshift rot postshift hole_dimensions label render_vector_items
       render_num].
  destruct (py_format_g x) as [gx|]; [|reflexivity]. cbn [bind].
  destruct (py_format_g y) as [gy|]; [|reflexivity]. cbn [bind].
  destruct (py_format_g _) as [gr|]; [|reflexivity]. cbn [bind].
  destruct (py_format_g (Hole.offset h)) as [go|]; [|reflexivity]. cbn [bind].
  destruct (py_format_g (Hole.height h)) as [gh|]; [|reflexivity]. cbn [bind].
  f_equal. rewrite !string_append_assoc. cbn. rewrite !string_append_assoc.
  reflexivity.
Qed.

Lemma scad_statement_spec (h : Hole.t) (parent : Box.t) :
  length (Box.dimensions parent) = 3 ->
  scad_statement h parent
  = Ok {| preshift :=
            [Arg (if str_eq (Hole.direction h) "right"
                  then PFloat (axis (Box.dimensions parent) 0) else PInt 0);
             Arg (if str_eq (Hole.direction h) "back"
                  then PFloat (axis (Box.dimensions parent) 1) else PInt 0);
             Lit 10];
          rot :=
            [Lit 90; Lit 0;
             Arg (if str_eq (Hole.direction h) "left"
                     || str_eq (Hole.direction h) "right"
                  then PInt 90 else PInt 0)];
          postshift :=
            [Arg (Hole.offset h); Arg (Hole.height h); Lit (-40)];
          hole_dimensions := Hole.dimensions h;
          label := Hole.name h |}.
Proof.
  intros Hlen. apply length3 in Hlen as (x & y & z & Hd).
  unfold scad_statement. rewrite Hd. cbn [list_get nth_error axis nth bind].
  now destruct (str_eq (Hole.direction h) "right"),
               (str_eq (Hole.direction h) "back").
Qed.

(** C6, amended.  The adjuster overwrites the third dimension of every Hole
    with [wall_thickness * 8] (80 with the default wall thickness); the
    second translation vector of an emitted hole statement is (offset,
    height, -40), its last component being a literal of the template,
    whatever the adjusted thickness is. *)
Theorem hole_thickness_and_postshift :
  (forall boxes wt ft ct w f c s fc t,
     constant boxes "wall_thickness" (PInt 10) = Ok wt ->
     constant boxes "floor_thickness" (PInt 10) = Ok ft ->
     constant boxes "ceiling_thickness" (PInt (-1)) = Ok ct ->
     as_float wt = Ok w -> as_float ft = Ok f -> as_float ct = Ok c ->
     py_add ft ct = Ok s -> as_float s = Ok fc ->
     py_mul_int wt 8 = Ok t ->
     (forall k b, In (k, RBox b) boxes -> length (Box.dimensions b) = 3) ->
     (forall k h, In (k, RHole h) boxes -> length (Hole.dimensions h) = 3) ->
     exists boxes' pre,
       adjust_dimensions boxes = Ok (boxes', pre) /\
       forall k h, dict_get k boxes = Some (RHole h) ->
         dict_get k boxes' = Some (RHole (with_thickness h t))) /\
  py_mul_int (PInt 10) 8 = Ok (PInt 80) /\
  (forall h parent,
     length (Box.dimensions parent) = 3 ->
     exists st,
       scad_statement h parent = Ok st /\
       scad_string h parent = render_statement st /\
       postshift st = [Arg (Hole.offset h); Arg (Hole.height h); Lit (-40)]).
Proof.
  split; [|split].
  - intros boxes wt ft ct w f c s fc t Hwt Hft Hct Hw Hf Hc Hs Hfc Ht Hb Hh.
    destruct (adjust_dimensions_spec boxes wt ft ct w f c s fc t)
      as (boxes' & pre & Hok & Hget); try assumption.
    exists boxes', pre. split; [exact Hok|].
    intros k h Hk. now rewrite (Hget k _ Hk).
  - reflexivity.
  - intros h parent Hlen. eexists. split; [now apply scad_statement_spec|].
    split; [|reflexivity].
    rewrite scad_string_renders, scad_statement_spec by assumption.
    reflexivity.
Qed.

(** C7, amended.  In every emitted hole statement the first translation
    vector is (x, y, 10), where x is the width of the containing Space when
    the direction of the Hole is "right" and y is its depth when the
    direction is "back", both 0 otherwise; the rotation vector is (90, 0, r)
    with r = 90 when the direction is "left" or "right" and r = 0
    otherwise. *)
Theorem hole_preshift_and_rotation (h : Hole.t) (parent : Box.t) :
  length (Box.dimensions parent) = 3 ->
  exists st,
    scad_statement h parent = Ok st /\
    scad_string h parent = render_statement st /\
    preshift st
    = [Arg (if str_eq (Hole.direction h) "right"
            then PFloat (axis (Box.dimensions parent) 0) else PInt 0);
       Arg (if str_eq (Hole.direction h) "back"
            then PFloat (axis (Box.dimensions parent) 1) else PInt 0);
       Lit 10] /\
    rot st
    = [Lit 90; Lit 0;
       Arg (if str_eq (Hole.direction h) "left"
               || str_eq (Hole.direction h) "right"
            then PInt 90 else PInt 0)].
Proof.
  intros Hlen. eexists. split; [now apply scad_statement_spec|].
  split; [|split; reflexivity].
  rewrite scad_string_renders, scad_statement_spec by assumption.
  reflexivity.
Qed.

End HoleStatements.

Lemma hole_thickness_and_postshift_witness :
  (exists boxes' pre,
     adjust_dimensions door_store = Ok (boxes', pre) /\
     forall k h, dict_get k door_store = Some (RHole h) ->
       dict_get k boxes' = Some (RHole (with_thickness h (PInt 80)))) /\
  (exists st,
     scad_statement (with_thickness door (PInt 80)) hall_placed = Ok st /\
     scad_string (with_thickness door (PInt 80)) hall_placed
     = render_statement st /\
     postshift st = [Arg (PFloat 50); Arg (PFloat 0); Lit (-40)]).
Proof.
  split.
  - apply (proj1 (@hole_thickness_and_postshift sample_runtime) door_store
             (PInt 10) (PInt 10) (PInt (-1)) 10%float 10%float (-1)%float
             (PInt 9) 9%float (PInt 80)); try reflexivity.
    + intros k b [[= <- <-]|[[=]|[]]]. reflexivity.
    + intros k h [[=]|[[= <- <-]|[]]]. reflexivity.
  - apply (proj2 (proj2 (@hole_thickness_and_postshift sample_runtime))
             (with_thickness door (PInt 80)) hall_placed).
    reflexivity.
Defined.

Lemma hole_preshift_and_rotation_witness :
  exists st,
    scad_statement door hall_placed = Ok st /\
    scad_string door hall_placed = render_statement st /\
    preshift st = [Arg (PFloat 310); Arg (PInt 0); Lit 10] /\
    rot st = [Lit 90; Lit 0; Arg (PInt 90)].
Proof.
  apply (@hole_preshift_and_rotation sample_runtime door hall_placed).
  reflexivity.
Defined.

(** C6, as the specification states it, fails: with the default wall
    thickness the adjusted thickness of the door is 80, and the last
    component of the second translation vector is -40, not -80. *)
Lemma postshift_as_specified_fails :
  adjust_record (PInt 10) (PInt 10) (PInt (-1)) (RHole door)
  = Ok (RHole (with_thickness door (PInt 80))) /\
  ~ postshift_as_specified (with_thickness door (PInt 80)) hall_placed.
Proof.
  split; [reflexivity|].
  intros (st & t & c & Hst & Ht & Hpost & Hneg).
  cbn in Ht. injection Ht as <-.
  assert (Hc : nth_error [Arg (Hole.offset (with_thickness door (PInt 80)));
                          Arg (Hole.height (with_thickness door (PInt 80)));
                          Lit (-40)] 2 = Some c).
  { change (match scad_statement (with_thickness door (PInt 80)) hall_placed
            with
            | Ok st => nth_error (postshift st) 2
            | Raise _ => None
            end = Some c).
    rewrite Hst, Hpost. reflexivity. }
  cbn in Hc. injection Hc as <-.
  destruct Hneg as [H|H]; discriminate H.
Qed.

(** C7, as the specification states it, fails: for a Hole whose direction
    is "behind" the y-component of the first translation vector is 0, not the
    depth of the containing Space; the emitter looks for "back". *)
Lemma preshift_as_specified_fails :
  ~ preshift_as_specified back_door hall_placed.
Proof.
  intros (st & Hst & _ & Hy & _).
  assert (H : nth_error [Arg (PInt 0); Arg (PInt 0); Lit 10] 1
              = Some (Arg (PFloat 210))).
  { change (match scad_statement back_door hall_placed with
            | Ok st => nth_error (preshift st) 1
            | Raise _ => None
            end = Some (Arg (PFloat 210))).
    rewrite Hst. exact Hy. }
  discriminate H.
Qed.

(** ** Constants and offsets read from the input file *)

Section ConstantsFromFile.
Context {rt : PyRuntime}.

(** C8.  A Constant built from a csv row keeps the text of its cell as its
    value, and the adjuster then fails on it: the wall thickness "12" of the
    input file stays the string "12", [adjust_dimensions] raises a
    [TypeError] on the store that holds it, and it returns on no store whose
    wall thickness is a string. *)
Theorem constant_value_is_the_cell :
  Constant__init__ wall_row = Ok wall_constant /\
  Constant.value wall_constant = PStr "12" /\
  adjust_dimensions thick_wall_store = Raise TypeError /\
  py_mul_int (PStr "12") 8 = Ok (PStr "1212121212121212") /\
  (forall boxes s,
     constant boxes "wall_thickness" (PInt 10) = Ok (PStr s) ->
     forall r, adjust_dimensions boxes <> Ok r).
Proof.
  repeat split; try reflexivity.
  intros boxes s Hwt r. unfold adjust_dimensions.
  rewrite add_default_constants_spec. cbn [bind].
  rewrite (constant_after_defaults boxes "wall_thickness" (PInt 10)), Hwt
    by (simpl; auto).
  cbn [bind].
  destruct (c <- getitem _ (PStr "floor_thickness") ;; value_of c);
    cbn [bind]; [|discriminate].
  destruct (c <- getitem _ (PStr "ceiling_thickness") ;; value_of c);
    cbn [bind]; [|discriminate].
  destruct (for_values _ _); cbn [bind]; discriminate.
Qed.

End ConstantsFromFile.

Lemma constant_value_is_the_cell_witness :
  constant thick_wall_store "wall_thickness" (PInt 10) = Ok (PStr "12") /\
  forall r, adjust_dimensions thick_wall_store <> Ok r.
Proof.
  split; [reflexivity|].
  apply (proj2 (proj2 (proj2 (proj2
           (@constant_value_is_the_cell sample_runtime))))
           thick_wall_store "12").
  reflexivity.
Defined.

Section OffsetsFromFile.
Context {rt : PyRuntime}.

(** A Space with a text offset and an alignment to the front cannot be
    placed: the third loop adds the offset to a coordinate. *)
Lemma place_text_offset a d s :
  sized a -> sized d ->
  Box.alignment d = PStr "front" -> Box.offset d = PStr s ->
  place (RBox a) d = Raise TypeError.
Proof.
  intros Ha Hd Hal Ho. unfold place. rewrite abut_spec by assumption.
  cbn [bind]. unfold align, align_low.
  destruct a as [? ? ? pa ? ? ? ? ? ? ?].
  destruct d as [? ? ? ? ? ? al off ? ? ?].
  simpl in Hal, Ho. subst al off.
  destruct Ha as [Hpa _]. simpl in Hpa.
  apply length3 in Hpa as (p0 & p1 & p2 & ->).
  reflexivity.
Qed.

(** C9.  [Box.__init__] keeps the text of a filled offset cell: the offset
    of the Space it builds is the cell itself unless the cell is empty, so
    the offset cell "30" of a room stays the string "30", where
    [cell_as_float], which [Hole.__init__] uses for the same column, gives
    the float that [float] reads; the resolver then raises a [TypeError] when
    it adds that offset to a coordinate.  Only the empty cell gives the
    float 0. *)
Theorem box_offset_is_the_cell :
  (forall data opacity b,
     Box__init__ data opacity = Ok b -> Box.offset b = box_offset data) /\
  (forall data s,
     dict_get (PStr "offset") data = Some (PStr s) ->
     box_offset data = if String.eqb s "" then PFloat 0 else PStr s) /\
  box_offset kitchen_row = PStr "30" /\
  (forall f, float_of_str "30" = Some f ->
             cell_as_float kitchen_row "offset" = Ok (PFloat f)) /\
  (forall b, sized b -> Box.alignment b = PStr "front" ->
             Box.offset b = PStr "30" ->
             place (RBox hall_placed) b = Raise TypeError).
Proof.
  split; [|split; [|split; [|split]]].
  - intros data opacity b H. unfold Box__init__ in H.
    repeat inv_bind H. now injection H as <-.
  - intros data s H. unfold box_offset, get_default, py_or. rewrite H.
    cbn [truthy]. now destruct (String.eqb s "").
  - reflexivity.
  - intros f Hf. unfold cell_as_float. cbn. now rewrite Hf.
  - intros b Hb Hal Ho. apply (place_text_offset hall_placed b "30");
      try assumption. split; reflexivity.
Qed.

(** What [Box.__init__] builds is a Space of three dimensions at the origin,
    with no holes. *)
Lemma Box__init___sized data opacity b :
  Box__init__ data opacity = Ok b ->
  sized b /\ Box.holes b = [] /\ Box.alignment b = get data "alignment".
Proof.
  unfold Box__init__. intros H. repeat inv_bind H. injection H as <-.
  repeat split.
Qed.

End OffsetsFromFile.

Lemma box_offset_is_the_cell_witness :
  exists b,
    Box__init__ kitchen_row (PFloat 1) = Ok b /\
    Box.offset b = box_offset kitchen_row /\
    box_offset kitchen_row
    = (if String.eqb "30" "" then PFloat 0 else PStr "30") /\
    cell_as_float kitchen_row "offset" = Ok (PFloat 30) /\
    place (RBox hall_placed) b = Raise TypeError.
Proof.
  pose proof (@box_offset_is_the_cell sample_runtime)
    as (Hinit & Hcell & _ & Hhole & Hplace).
  eexists. split; [reflexivity|]. split; [|split; [|split]].
  - apply (Hinit kitchen_row (PFloat 1)). reflexivity.
  - apply (Hcell kitchen_row "30"). reflexivity.
  - apply (Hhole 30%float). reflexivity.
  - apply Hplace; [split; reflexivity|reflexivity|reflexivity].
Defined.

(** ** What one step of the resolver changes *)

Lemma for_each_invariant {A S} (R : S -> S -> Prop) (l : list A) (s s' : S)
  (body : S -> A -> result S) :
  (forall s, R s s) ->
  (forall a b c, R a b -> R b c -> R a c) ->
  (forall s x s', body s x = Ok s' -> R s s') ->
  for_each l s body = Ok s' -> R s s'.
Proof.
  intros Hrefl Htrans Hbody. revert s.
  induction l as [|x l IH]; intros s; simpl.
  - intros [= <-]. apply Hrefl.
  - intros H. inv_bind H. eapply Htrans; [eapply Hbody; eassumption|].
    now apply IH.
Qed.

Lemma moved_refl d : moved d d.
Proof. unfold moved. now destruct d. Qed.

Lemma moved_trans a b c : moved a b -> moved b c -> moved a c.
Proof. unfold moved. intros -> ->. now destruct a. Qed.

Lemma assign_position_moved d i v d' :
  assign_position d i v = Ok d' -> moved d d'.
Proof.
  unfold assign_position. intros H. inv_bind H. injection H as <-.
  unfold moved. now destruct d.
Qed.

Lemma abut_after_moved box d d' : abut_after box d = Ok d' -> moved d d'.
Proof.
  unfold abut_after, abut_before, align_low, align_high.
  apply (for_each_invariant moved); [exact moved_refl|exact moved_trans|].
  intros s [index direction] s' H.
  destruct (str_eq (Box.direction s) direction).
  - repeat inv_bind H. eapply assign_position_moved; eassumption.
  - injection H as <-. apply moved_refl.
Qed.

Lemma abut_before_moved box d d' : abut_before box d = Ok d' -> moved d d'.
Proof.
  unfold abut_after, abut_before, align_low, align_high.
  apply (for_each_invariant moved); [exact moved_refl|exact moved_trans|].
  intros s [index direction] s' H.
  destruct (str_eq (Box.direction s) direction).
  - repeat inv_bind H. eapply assign_position_moved; eassumption.
  - injection H as <-. apply moved_refl.
Qed.

Lemma align_low_moved box d d' : align_low box d = Ok d' -> moved d d'.
Proof.
  unfold abut_after, abut_before, align_low, align_high.
  apply (for_each_invariant moved); [exact moved_refl|exact moved_trans|].
  intros s [index direction] s' H. inv_bind H.
  destruct a.
  - repeat inv_bind H. eapply assign_position_moved; eassumption.
  - injection H as <-. apply moved_refl.
Qed.

Lemma align_high_moved box d d' : align_high box d = Ok d' -> moved d d'.
Proof.
  unfold abut_after, abut_before, align_low, align_high.
  apply (for_each_invariant moved); [exact moved_refl|exact moved_trans|].
  intros s [index direction] s' H. inv_bind H.
  destruct a.
  - repeat inv_bind H. eapply assign_position_moved; eassumption.
  - injection H as <-. apply moved_refl.
Qed.

Lemma place_moved box d d' : place box d = Ok d' -> moved d d'.
Proof.
  unfold place. intros H.
  destruct (abut box d) as [d1|] eqn:E1; [|discriminate]. cbn [bind] in H.
  unfold abut in E1.
  destruct (abut_after box d) as [d0|] eqn:E0; [|discriminate].
  cbn [bind] in E1. unfold align in H.
  destruct (align_low box d1) as [d2|] eqn:E2; [|discriminate].
  cbn [bind] in H.
  apply abut_after_moved in E0. apply abut_before_moved in E1.
  apply align_low_moved in E2. apply align_high_moved in H.
  eapply moved_trans; [exact E0|].
  eapply moved_trans; [exact E1|].
  eapply moved_trans; [exact E2|exact H].
Qed.

Lemma record_evolves_refl r : record_evolves r r.
Proof. destruct r; simpl; try reflexivity. unfold box_evolves. now destruct b. Qed.

Lemma record_evolves_trans a b c :
  record_evolves a b -> record_evolves b c -> record_evolves a c.
Proof.
  destruct a, b; simpl; try discriminate; try (intros <-; auto; fail);
    try (intros [= <-]; auto; fail); destruct c; simpl;
    try discriminate; try congruence.
  unfold box_evolves. intros -> ->. now destruct b.
Qed.

Lemma store_evolves_refl s : store_evolves s s.
Proof.
  intros k. destruct (dict_get k s); [apply record_evolves_refl|exact I].
Qed.

Lemma store_evolves_trans a b c :
  store_evolves a b -> store_evolves b c -> store_evolves a c.
Proof.
  intros H1 H2 k. specialize (H1 k). specialize (H2 k).
  destruct (dict_get k a), (dict_get k b), (dict_get k c);
    try contradiction; try exact I.
  eapply record_evolves_trans; eassumption.
Qed.

Lemma store_evolves_set s k r r' :
  dict_get k s = Some r -> record_evolves r r' ->
  store_evolves s (dict_set k r' s).
Proof.
  intros Hk Hr k'. destruct (key_eqb k' k) eqn:E.
  - apply key_eqb_eq in E. subst k'.
    rewrite dict_get_set_eq by (eapply dict_get_refl; eassumption).
    now rewrite Hk.
  - rewrite dict_get_set_neq by assumption.
    destruct (dict_get k' s); [apply record_evolves_refl|exact I].
Qed.

Lemma position_dependent_evolves boxes box c boxes' :
  position_dependent boxes box c = Ok boxes' -> store_evolves boxes boxes'.
Proof.
  unfold position_dependent, getitem. intros H.
  destruct (dict_get c boxes) as [dependent|] eqn:Ec; [|discriminate].
  cbn [bind] in H. destruct dependent as [d|h|? |? ?|?];
    try (injection H as <-; apply store_evolves_refl).
  - destruct (dict_get box boxes) as [anchor|] eqn:Ea; [|discriminate].
    cbn [bind] in H. inv_bind H. injection H as <-.
    eapply store_evolves_set; [eassumption|].
    apply place_moved in E. simpl. unfold box_evolves. rewrite E.
    now destruct d.
  - destruct (dict_get box boxes) as [anchor|] eqn:Ea; [|discriminate].
    cbn [bind] in H. inv_bind H. injection H as <-.
    eapply store_evolves_set; [eassumption|].
    destruct anchor; try discriminate. injection E as <-.
    simpl. unfold box_evolves. now destruct b.
Qed.

Lemma run_steps_evolves steps boxes boxes' :
  run_steps steps boxes = Ok boxes' -> store_evolves boxes boxes'.
Proof.
  apply (for_each_invariant store_evolves);
    [exact store_evolves_refl|exact store_evolves_trans|].
  intros s [box c] s'. apply position_dependent_evolves.
Qed.

Lemma record_evolves_name r r' :
  record_evolves r r' -> name_of r' = name_of r.
Proof.
  destruct r, r'; simpl; try discriminate; try congruence.
  unfold box_evolves. intros ->. reflexivity.
Qed.

Lemma store_evolves_named s s' : store_evolves s s' -> named s -> named s'.
Proof.
  intros He Hn k r' n Hk Hname. specialize (He k). rewrite Hk in He.
  destruct (dict_get k s) as [r|] eqn:Er; [|contradiction].
  apply (Hn k r n Er). now rewrite <- (record_evolves_name _ _ He).
Qed.

Lemma store_evolves_hole s s' k h :
  store_evolves s s' ->
  (dict_get k s = Some (RHole h) <-> dict_get k s' = Some (RHole h)).
Proof.
  intros He. specialize (He k).
  destruct (dict_get k s) as [r|], (dict_get k s') as [r'|];
    try contradiction; [|tauto].
  split; intros [= ->].
  - simpl in He. now subst.
  - destruct r; simpl in He; congruence.
Qed.

Lemma store_evolves_box s s' k b :
  store_evolves s s' -> dict_get k s = Some (RBox b) ->
  exists b', dict_get k s' = Some (RBox b') /\ box_evolves b b'.
Proof.
  intros He Hk. specialize (He k). rewrite Hk in He.
  destruct (dict_get k s') as [r'|]; [|contradiction].
  destruct r'; simpl in He; try discriminate. now exists b0.
Qed.

Lemma store_evolves_box_back s s' k b' :
  store_evolves s s' -> dict_get k s' = Some (RBox b') ->
  exists b, dict_get k s = Some (RBox b) /\ box_evolves b b'.
Proof.
  intros He Hk. specialize (He k). rewrite Hk in He.
  destruct (dict_get k s) as [r|]; [|contradiction].
  destruct r; simpl in He; try discriminate. now exists b.
Qed.

(** ** The resolver as a sequence of steps *)

Lemma for_each_app {A S} (l1 l2 : list A) (s : S) (body : S -> A -> result S) :
  for_each (l1 ++ l2) s body
  = (s' <- for_each l1 s body ;; for_each l2 s' body).
Proof.
  revert s. induction l1 as [|x l1 IH]; intros s; simpl; [reflexivity|].
  destruct (body s x); simpl; [apply IH|reflexivity].
Qed.

Lemma run_steps_app s1 s2 boxes :
  run_steps (s1 ++ s2) boxes = (b <- run_steps s1 boxes ;; run_steps s2 b).
Proof. apply for_each_app. Qed.

Lemma run_steps_named steps boxes boxes' :
  run_steps steps boxes = Ok boxes' -> named boxes -> named boxes'.
Proof.
  intros H. apply store_evolves_named. eapply run_steps_evolves; eassumption.
Qed.

(** A run of [position_dependents] that returns is the run of the steps of
    [walk], in their order. *)
Lemma position_dependents_walk limit :
  forall boxes dependents box level boxes',
    named boxes ->
    position_dependents limit boxes dependents box level = Ok boxes' ->
    exists steps,
      walk limit dependents box = Some steps /\
      run_steps steps boxes = Ok boxes'.
Proof.
  induction limit as [|limit IH]; intros boxes deps box level boxes' Hn H;
    [discriminate|].
  cbn [position_dependents] in H. unfold getitem in H.
  destruct (dict_get box boxes) as [b|] eqn:Eb; [|discriminate].
  cbn [bind] in H.
  destruct (name_of b) as [name|] eqn:En; [|discriminate].
  cbn [bind] in H.
  assert (name = box) by (eapply Hn; eassumption). subst name.
  cbn [walk]. unfold children.
  destruct (dict_get box deps) as [names|];
    [|injection H as <-; exists []; split; reflexivity].
  clear Eb En b. revert boxes Hn H.
  induction names as [|c names IHn]; intros boxes Hn H.
  - injection H as <-. exists []. split; reflexivity.
  - cbn [for_each] in H.
    destruct (position_dependent boxes box c) as [boxes1|] eqn:E1;
      [|discriminate].
    cbn [bind] in H.
    destruct (position_dependents limit boxes1 deps c level) as [boxes2|]
      eqn:E2; [|discriminate].
    cbn [bind] in H.
    assert (Hn1 : named boxes1).
    { eapply store_evolves_named; [|exact Hn].
      eapply position_dependent_evolves; eassumption. }
    destruct (IH _ _ _ _ _ Hn1 E2) as (s & Hs & Hrun).
    assert (Hn2 : named boxes2) by (eapply run_steps_named; eassumption).
    destruct (IHn boxes2 Hn2 H) as (r & Hr & Hrr).
    exists (((box, c) :: s) ++ r). split.
    + cbn [collect]. rewrite Hs, Hr. reflexivity.
    + rewrite run_steps_app.
      change (run_steps ((box, c) :: s) boxes)
        with (b1 <- position_dependent boxes box c ;; run_steps s b1).
      rewrite E1. cbn [bind]. rewrite Hrun. exact Hrr.
Qed.

(** ** The order of the steps *)

Lemma collect_in {A B} (f : A -> option (list B)) l steps e :
  collect f l = Some steps -> In e steps ->
  exists x s, In x l /\ f x = Some s /\ In e s.
Proof.
  revert steps. induction l as [|x l IH]; intros steps; simpl.
  - intros [= <-] [].
  - destruct (f x) as [s|] eqn:Ef; [|discriminate].
    destruct (collect f l) as [r|]; [|discriminate].
    intros [= <-] Hin. apply in_app_iff in Hin as [Hin|Hin].
    + exists x, s. auto.
    + destruct (IH r eq_refl Hin) as (y & t & Hy & Ht & He).
      exists y, t. auto.
Qed.

Lemma collect_defined {A B} (f : A -> option (list B)) l steps x :
  collect f l = Some steps -> In x l ->
  exists s, f x = Some s /\ forall e, In e s -> In e steps.
Proof.
  revert steps. induction l as [|y l IH]; intros steps; simpl; [intros _ []|].
  destruct (f y) as [s|] eqn:Ef; [|discriminate].
  destruct (collect f l) as [r|]; [|discriminate].
  intros [= <-] [<-|Hin].
  - exists s. split; [assumption|]. intros e He. apply in_app_iff. now left.
  - destruct (IH r eq_refl Hin) as (t & Ht & Hincl).
    exists t. split; [assumption|]. intros e He. apply in_app_iff. right.
    now apply Hincl.
Qed.

Lemma collect_ext {A B} (f g : A -> option (list B)) l steps :
  (forall x s, f x = Some s -> g x = Some s) ->
  collect f l = Some steps -> collect g l = Some steps.
Proof.
  intros Hfg. revert steps. induction l as [|x l IH]; intros steps; simpl;
    [auto|].
  destruct (f x) as [s|] eqn:Ef; [|discriminate].
  destruct (collect f l) as [r|]; [|discriminate].
  intros [= <-]. now rewrite (Hfg x s Ef), (IH r eq_refl).
Qed.

Section Walk.
Variable dependents : dict (list pyval).

Local Abbreviation walk' l := (walk l dependents).
Local Abbreviation children' := (children dependents).
Local Abbreviation below' := (below dependents).
Local Abbreviation reaches' := (reaches dependents).
Local Abbreviation block := (block dependents).

Lemma walk_S limit b :
  walk' (S limit) b = collect (block limit b) (children' b).
Proof. reflexivity. Qed.

Lemma walk_more limit : forall b steps,
  walk' limit b = Some steps -> walk' (S limit) b = Some steps.
Proof.
  induction limit as [|limit IH]; intros b steps; [discriminate|].
  rewrite (walk_S (S limit)), walk_S. apply collect_ext.
  intros x s. unfold block.
  destruct (walk' limit x) as [t|] eqn:E; [|discriminate].
  intros [= <-]. now rewrite (IH x t E).
Qed.

Lemma walk_sub limit : forall b steps a c,
  walk' (S limit) b = Some steps -> In (a, c) steps ->
  exists s, walk' limit c = Some s.
Proof.
  induction limit as [|limit IH]; intros b steps a c; rewrite walk_S;
    intros Hw Hin;
    destruct (collect_in _ _ _ _ Hw Hin) as (x & s & Hx & Hs & He);
    unfold block in Hs.
  - discriminate.
  - destruct (walk' (S limit) x) as [t|] eqn:E; [|discriminate].
    injection Hs as <-. destruct He as [[= <- <-]|He].
    + now exists t.
    + destruct (IH x t a c E He) as (s' & Hs').
      exists s'. now apply walk_more.
Qed.

Lemma walk_root_not_placed limit : forall b steps,
  walk' limit b = Some steps -> ~ In b (map snd steps).
Proof.
  induction limit as [|limit IH]; intros b steps Hw Hin; [discriminate|].
  apply in_map_iff in Hin as ([a c] & Hc & Hin). simpl in Hc. subst c.
  destruct (walk_sub _ _ _ _ _ Hw Hin) as (s & Hs).
  pose proof (walk_more _ _ _ Hs) as Hs'. rewrite Hw in Hs'.
  injection Hs' as <-. apply (IH b steps Hs).
  apply in_map_iff. exists (a, b). split; [reflexivity|assumption].
Qed.

Lemma below_child_trans a x c :
  In x (children' a) -> below' x c -> below' a c.
Proof.
  intros Hx H. induction H as [c Hc|p c _ IH Hc].
  - apply (@below_step dependents a x c); [now apply below_child|assumption].
  - eapply below_step; eassumption.
Qed.

Lemma below_trans a b c : below' a b -> below' b c -> below' a c.
Proof.
  intros Hab Hbc. induction Hbc as [c Hc|p c _ IH Hc].
  - eapply below_step; eassumption.
  - eapply below_step; eassumption.
Qed.

Lemma reaches_below a b c : reaches' a b -> below' b c -> below' a c.
Proof. intros [->|H]; [auto|]. now apply below_trans. Qed.

Lemma below_reaches a b c : below' a b -> reaches' b c -> below' a c.
Proof. intros H [<-|H']; [auto|]. eapply below_trans; eassumption. Qed.

Lemma below_parent a c :
  below' a c -> exists p, reaches' a p /\ In c (children' p).
Proof.
  intros [c' Hc|p c' Hp Hc].
  - exists a. split; [now left|assumption].
  - exists p. split; [now right|assumption].
Qed.

Lemma walk_in limit : forall b steps a c,
  walk' limit b = Some steps -> In (a, c) steps ->
  In c (children' a) /\ reaches' b a.
Proof.
  induction limit as [|limit IH]; intros b steps a c; [discriminate|].
  rewrite walk_S. intros Hw Hin.
  destruct (collect_in _ _ _ _ Hw Hin) as (x & s & Hx & Hs & He).
  unfold block in Hs.
  destruct (walk' limit x) as [t|] eqn:E; [|discriminate].
  injection Hs as <-. destruct He as [[= <- <-]|He].
  - split; [assumption|now left].
  - destruct (IH x t a c E He) as [Hc Hr]. split; [assumption|].
    right. destruct Hr as [<-|Hr]; [now apply below_child|].
    eapply below_child_trans; eassumption.
Qed.

Lemma walk_children limit b steps c :
  walk' limit b = Some steps -> In c (children' b) -> In (b, c) steps.
Proof.
  destruct limit as [|limit]; [discriminate|]. rewrite walk_S.
  intros Hw Hc. destruct (collect_defined _ _ _ _ Hw Hc) as (s & Hs & Hincl).
  unfold block in Hs. destruct (walk' limit c); [|discriminate].
  injection Hs as <-. apply Hincl. now left.
Qed.

Lemma walk_closed limit : forall b steps p a c,
  walk' limit b = Some steps -> In (p, a) steps -> In c (children' a) ->
  In (a, c) steps.
Proof.
  induction limit as [|limit IH]; intros b steps p a c; [discriminate|].
  rewrite walk_S. intros Hw Hin Hc.
  destruct (collect_in _ _ _ _ Hw Hin) as (x & s & Hx & Hs & He).
  destruct (collect_defined _ _ _ _ Hw Hx) as (s' & Hs' & Hincl).
  rewrite Hs in Hs'. injection Hs' as <-.
  unfold block in Hs.
  destruct (walk' limit x) as [t|] eqn:E; [|discriminate].
  injection Hs as <-. apply Hincl. right. destruct He as [[= <- <-]|He].
  - eapply walk_children; eassumption.
  - eapply IH; eassumption.
Qed.

Lemma walk_reaches limit b steps a c :
  walk' limit b = Some steps -> reaches' b a -> In c (children' a) ->
  In (a, c) steps.
Proof.
  intros Hw [<-|Hb]; [now apply (walk_children limit)|].
  revert c. induction Hb as [a Ha|p a _ IH Ha]; intros c Hc.
  - eapply walk_closed; [eassumption| |eassumption].
    eapply walk_children; eassumption.
  - eapply walk_closed; [eassumption| |eassumption]. now apply IH.
Qed.

Lemma walk_below limit b steps c :
  walk' limit b = Some steps -> below' b c -> In c (map snd steps).
Proof.
  intros Hw Hb. destruct (below_parent _ _ Hb) as (p & Hp & Hc).
  apply in_map_iff. exists (p, c). split; [reflexivity|].
  eapply walk_reaches; eassumption.
Qed.

(** A walk that ends has met no cycle. *)
Lemma walk_acyclic limit b steps :
  walk' limit b = Some steps -> ~ below' b b.
Proof.
  intros Hw Hb. eapply walk_root_not_placed; [eassumption|].
  eapply walk_below; eassumption.
Qed.

(** Every step has the root as its anchor, or an anchor that an earlier step
    has handled. *)
Lemma walk_preorder limit : forall b steps before a c after,
  walk' limit b = Some steps -> steps = before ++ (a, c) :: after ->
  a = b \/ In a (map snd before).
Proof.
  induction limit as [|limit IH]; intros b steps before a c after;
    [discriminate|].
  rewrite walk_S. generalize (children' b). intros names.
  revert steps before after.
  induction names as [|x names IHn]; intros steps before after; simpl.
  - intros [= <-] H. now destruct before.
  - unfold block at 1.
    destruct (walk' limit x) as [t|] eqn:E; [|discriminate].
    destruct (collect (block limit b) names) as [r|] eqn:Er; [|discriminate].
    intros [= <-] H. simpl in H.
    destruct before as [|e before]; simpl in H.
    + injection H as Hb _ _. left. now symmetry.
    + injection H as <- H. apply app_eq_app in H as [l [[-> H]|[-> H]]].
      * destruct l as [|e l]; simpl in H.
        -- destruct (IHn r [] after eq_refl (eq_sym H)) as [->|[]]. now left.
        -- injection H as <- ->.
           destruct (IH x _ before a c l E eq_refl) as [->|Hin].
           ++ right. now left.
           ++ right. right. assumption.
      * destruct (IHn r l after eq_refl H) as [->|Hin]; [now left|].
        right. right. rewrite map_app. apply in_app_iff. now right.
Qed.

End Walk.

(** ** Trees of dependents *)

Lemma concat_unique {A B} (d : list (A * list B)) a a' l l' c :
  NoDup (concat (map snd d)) ->
  In (a, l) d -> In (a', l') d -> In c l -> In c l' -> a = a'.
Proof.
  induction d as [|[k v] d IH]; simpl; [intros _ []|].
  intros Hnd H1 H2 Hc Hc'.
  assert (Hdis : forall x, In x v -> ~ In x (concat (map snd d))).
  { intros x Hx Hx'. revert Hnd. clear -Hx Hx'.
    induction v as [|y v IHv]; simpl; [destruct Hx|].
    intros Hnd. apply NoDup_cons_iff in Hnd as [Hy Hnd].
    destruct Hx as [->|Hx]; [|now apply IHv].
    apply Hy. apply in_app_iff. now right. }
  assert (Hin : forall b m, In (b, m) d -> In c m ->
                            In c (concat (map snd d))).
  { intros b m Hb Hm. apply in_concat. exists m. split; [|assumption].
    apply in_map_iff. now exists (b, m). }
  destruct H1 as [[= -> ->]|H1], H2 as [[= -> ->]|H2].
  - reflexivity.
  - exfalso. eapply Hdis; [exact Hc|]. eapply Hin; eassumption.
  - exfalso. eapply Hdis; [exact Hc'|]. eapply Hin; eassumption.
  - apply IH; try assumption. eapply NoDup_app_remove_l; eassumption.
Qed.

Lemma concat_nodup {A B} (d : list (A * list B)) a l :
  NoDup (concat (map snd d)) -> In (a, l) d -> NoDup l.
Proof.
  induction d as [|[k v] d IH]; simpl; [intros _ []|].
  intros Hnd [[= -> ->]|H].
  - eapply NoDup_app_remove_r; eassumption.
  - apply IH; [|assumption]. eapply NoDup_app_remove_l; eassumption.
Qed.

Section Tree.
Variable dependents : dict (list pyval).
Hypothesis Htree : tree_like dependents.

Lemma children_In a c :
  In c (children dependents a) ->
  exists l, In (a, l) dependents /\ In c l.
Proof.
  unfold children. destruct (dict_get a dependents) as [l|] eqn:E; [|intros []].
  intros Hc. exists l. split; [|assumption]. now apply dict_get_In.
Qed.

Lemma children_nodup a : NoDup (children dependents a).
Proof.
  unfold children. destruct (dict_get a dependents) as [l|] eqn:E;
    [|constructor].
  eapply concat_nodup; [exact Htree|]. apply dict_get_In. eassumption.
Qed.

(** A record is the dependent of one anchor at most. *)
Lemma one_anchor a a' c :
  In c (children dependents a) -> In c (children dependents a') -> a = a'.
Proof.
  intros H H'. apply children_In in H as (l & Hl & Hc).
  apply children_In in H' as (l' & Hl' & Hc').
  eapply concat_unique; [exact Htree| | | |]; eassumption.
Qed.

Lemma reaches_comparable c c' x :
  reaches dependents c x -> reaches dependents c' x ->
  reaches dependents c c' \/ reaches dependents c' c.
Proof.
  intros [<-|Hb] H'; [now right|]. revert H'.
  induction Hb as [x Hx|p x Hp IH Hx]; intros [<-|H'].
  - left. right. now apply below_child.
  - apply below_parent in H' as (p' & Hp' & Hx').
    pose proof (one_anchor _ _ _ Hx Hx') as E. subst p'. now right.
  - left. right. eapply below_step; eassumption.
  - apply below_parent in H' as (p' & Hp' & Hx').
    pose proof (one_anchor _ _ _ Hx Hx') as E. subst p'. now apply IH.
Qed.

Lemma below_sibling b c c' :
  In c' (children dependents b) -> below dependents c c' ->
  reaches dependents c b.
Proof.
  intros Hc' Hb. apply below_parent in Hb as (p & Hp & Hx).
  pose proof (one_anchor _ _ _ Hc' Hx) as E. now subst p.
Qed.

Lemma siblings_apart b c c' x :
  ~ below dependents b b ->
  In c (children dependents b) -> In c' (children dependents b) ->
  c <> c' ->
  reaches dependents c x -> reaches dependents c' x -> False.
Proof.
  intros Hacyc Hc Hc' Hne Hx Hx'.
  destruct (reaches_comparable _ _ _ Hx Hx') as [[E|Hb]|[E|Hb]].
  - now apply Hne.
  - apply Hacyc.
    apply (below_reaches dependents b c b); [apply below_child; exact Hc|].
    apply (below_sibling b c c'); assumption.
  - now apply Hne.
  - apply Hacyc.
    apply (below_reaches dependents b c' b); [apply below_child; exact Hc'|].
    apply (below_sibling b c' c); assumption.
Qed.

(** In a tree no record is handled twice. *)
Lemma walk_nodup limit : forall b steps,
  walk limit dependents b = Some steps -> NoDup (map snd steps).
Proof.
  induction limit as [|limit IH]; intros b steps Hw; [discriminate|].
  pose proof (walk_acyclic _ _ _ _ Hw) as Hacyc.
  rewrite walk_S in Hw.
  assert (Hincl : forall c, In c (children dependents b) ->
                            In c (children dependents b)) by auto.
  pose proof (children_nodup b) as Hnd.
  revert Hw Hincl Hnd. generalize (children dependents b) at 1 2 4.
  intros names. revert steps.
  enough (H : forall steps,
            collect (block dependents limit b) names = Some steps ->
            (forall c, In c names -> In c (children dependents b)) ->
            NoDup names ->
            NoDup (map snd steps) /\
            forall x, In x (map snd steps) ->
                      exists c, In c names /\ reaches dependents c x).
  { intros steps Hw Hincl Hnd. now apply (H steps). }
  induction names as [|c names IHn]; intros steps; simpl.
  - intros [= <-] _ _. split; [constructor|intros x []].
  - unfold block at 1.
    destruct (walk limit dependents c) as [s|] eqn:E; [|discriminate].
    destruct (collect (block dependents limit b) names) as [r|] eqn:Er;
      [|discriminate].
    intros [= <-] Hincl Hnd. apply NoDup_cons_iff in Hnd as [Hc Hnd].
    destruct (IHn r eq_refl) as [Hr Hrx]; [intros; apply Hincl; now right
                                          |assumption|].
    assert (Hsx : forall x, In x (map snd s) -> below dependents c x).
    { intros x Hx. apply in_map_iff in Hx as ([a y] & Hy & Hin).
      simpl in Hy. subst y.
      destruct (walk_in _ _ _ _ _ _ E Hin) as [Hx Ha].
      destruct Ha as [<-|Ha]; [now apply below_child|].
      eapply below_step; eassumption. }
    assert (Hapart : forall x, reaches dependents c x ->
                               ~ In x (map snd r)).
    { intros x Hx Hin. destruct (Hrx x Hin) as (c' & Hc' & Hx').
      apply (siblings_apart b c c' x);
        [exact Hacyc|apply Hincl; now left|apply Hincl; now right
        |intros <-; contradiction|exact Hx|exact Hx']. }
    split.
    + simpl. rewrite map_app. constructor.
      * intros Hin. apply in_app_iff in Hin as [Hin|Hin].
        -- eapply walk_root_not_placed; eassumption.
        -- apply (Hapart c); [now left|assumption].
      * apply NoDup_app; [now apply (IH c)|assumption|].
        intros x Hx. apply Hapart. right. now apply Hsx.
    + intros x. simpl. rewrite map_app. intros [<-|Hin].
      * exists c. split; [now left|now left].
      * apply in_app_iff in Hin as [Hin|Hin].
        -- exists c. split; [now left|]. right. now apply Hsx.
        -- destruct (Hrx x Hin) as (c' & Hc' & Hx').
           exists c'. split; [now right|assumption].
Qed.

End Tree.

(** ** The holes the steps attach *)

Lemma key_eqb_sym a b : key_eqb a b = key_eqb b a.
Proof.
  destruct a, b; simpl; try reflexivity.
  - apply String.eqb_sym.
  - apply Z.eqb_sym.
Qed.

Lemma attached_evolves s s' a steps :
  store_evolves s s' -> attached s a steps = attached s' a steps.
Proof.
  intros He. unfold attached. apply flat_map_ext. intros [box c].
  destruct (key_eqb box a); [|reflexivity].
  specialize (He c).
  destruct (dict_get c s) as [r|], (dict_get c s') as [r'|];
    try contradiction; [|reflexivity].
  destruct r, r'; simpl in He; try discriminate; try reflexivity.
  now injection He as <-.
Qed.

Lemma position_dependent_holes boxes box c boxes' a b :
  position_dependent boxes box c = Ok boxes' ->
  dict_get a boxes = Some (RBox b) ->
  exists b', dict_get a boxes' = Some (RBox b') /\
             Box.holes b' = Box.holes b ++ attached boxes a [(box, c)].
Proof.
  unfold position_dependent, getitem, attached. cbn [flat_map].
  rewrite app_nil_r. intros H Ha.
  destruct (dict_get c boxes) as [dependent|] eqn:Ec; [|discriminate].
  cbn [bind] in H.
  destruct dependent as [d|h|? |? ?|?];
    try (injection H as <-; exists b; split; [assumption|];
         destruct (key_eqb box a); now rewrite app_nil_r).
  - destruct (dict_get box boxes) as [anchor|] eqn:Ex; [|discriminate].
    cbn [bind] in H. inv_bind H. injection H as <-.
    apply place_moved in E.
    replace (Box.holes b ++ (if key_eqb box a then [] else []))
      with (Box.holes b) by (destruct (key_eqb box a); now rewrite app_nil_r).
    destruct (key_eqb a c) eqn:Eac.
    + apply key_eqb_eq in Eac. subst c.
      rewrite dict_get_set_eq by (eapply dict_get_refl; eassumption).
      rewrite Ha in Ec. injection Ec as <-.
      exists a0. split; [reflexivity|]. rewrite E. reflexivity.
    + rewrite dict_get_set_neq by assumption. now exists b.
  - destruct (dict_get box boxes) as [anchor|] eqn:Ex; [|discriminate].
    cbn [bind] in H. inv_bind H. injection H as <-.
    destruct anchor as [ax| | | |]; try discriminate. injection E as <-.
    destruct (key_eqb box a) eqn:Exa.
    + apply key_eqb_eq in Exa. subst box.
      rewrite dict_get_set_eq by (eapply dict_get_refl; eassumption).
      rewrite Ha in Ex. injection Ex as <-.
      eexists. split; reflexivity.
    + rewrite dict_get_set_neq by (rewrite key_eqb_sym; assumption).
      exists b. split; [assumption|now rewrite app_nil_r].
Qed.

Lemma attached_app boxes a s1 s2 :
  attached boxes a (s1 ++ s2) = attached boxes a s1 ++ attached boxes a s2.
Proof. apply flat_map_app. Qed.

(** The holes of a Space after the steps: those it had, then the Holes among
    its own dependents, in the order of the steps. *)
Lemma run_steps_holes steps : forall boxes boxes' a b,
  run_steps steps boxes = Ok boxes' ->
  dict_get a boxes = Some (RBox b) ->
  exists b', dict_get a boxes' = Some (RBox b') /\
             Box.holes b' = Box.holes b ++ attached boxes a steps.
Proof.
  induction steps as [|[box c] steps IH]; intros boxes boxes' a b H Ha.
  - injection H as <-. exists b. split; [assumption|].
    now rewrite app_nil_r.
  - change (run_steps ((box, c) :: steps) boxes)
      with (b1 <- position_dependent boxes box c ;; run_steps steps b1) in H.
    destruct (position_dependent boxes box c) as [boxes1|] eqn:E1;
      [|discriminate].
    cbn [bind] in H.
    destruct (position_dependent_holes _ _ _ _ _ _ E1 Ha) as (b1 & Hb1 & Hh1).
    destruct (IH _ _ _ _ H Hb1) as (b' & Hb' & Hh').
    exists b'. split; [assumption|].
    rewrite Hh', Hh1, <- app_assoc. f_equal.
    change ((box, c) :: steps) with ([(box, c)] ++ steps).
    rewrite attached_app. f_equal.
    symmetry. apply attached_evolves.
    eapply position_dependent_evolves; eassumption.
Qed.

Lemma nodup_occurs_once {A} (x : A) l : NoDup l -> In x l -> occurs_once x l.
Proof.
  intros Hnd Hin. apply in_split in Hin as (l1 & l2 & ->).
  exists l1, l2. split; [reflexivity|].
  apply NoDup_remove_2 in Hnd. split; intros H; apply Hnd, in_app_iff; auto.
Qed.

(** Among steps that handle no record twice, the step of a Hole is the only
    one that attaches it. *)
Lemma attached_once boxes steps a k h :
  named boxes ->
  NoDup (map snd steps) ->
  In (a, k) steps ->
  dict_get k boxes = Some (RHole h) ->
  key_eqb a a = true ->
  occurs_once h (attached boxes a steps) /\
  forall a', In h (attached boxes a' steps) -> a' = a.
Proof.
  intros Hn Hnd Hin Hk Ha.
  assert (Hstep : forall a' s, In h (attached boxes a' s) ->
                    exists x, In (x, k) s /\ x = a').
  { intros a' s Hh. apply in_flat_map in Hh as ([x c] & Hxc & Hh).
    destruct (key_eqb x a') eqn:Ex; [|destruct Hh].
    apply key_eqb_eq in Ex. subst x.
    destruct (dict_get c boxes) as [[| h' | | |]|] eqn:Ec; try destruct Hh.
    - subst h'. assert (c = k); [|subst c; now exists a'].
      transitivity (Hole.name h).
      + symmetry. eapply (Hn c (RHole h)); [exact Ec|reflexivity].
      + eapply (Hn k (RHole h)); [exact Hk|reflexivity].
    - destruct H. }
  apply in_split in Hin as (s1 & s2 & ->).
  rewrite map_app in Hnd. simpl in Hnd.
  pose proof (NoDup_remove_2 _ _ _ Hnd) as Hk'.
  split.
  - exists (attached boxes a s1), (attached boxes a s2). split.
    + rewrite attached_app. f_equal. unfold attached at 1. cbn [flat_map].
      rewrite Ha, Hk. reflexivity.
    + split; intros Hh; destruct (Hstep _ _ Hh) as (x & Hx & _);
        apply Hk', in_app_iff; [left|right];
        apply in_map_iff; now exists (x, k).
  - intros a' Hh. destruct (Hstep _ _ Hh) as (x & Hx & <-).
    apply in_app_iff in Hx as [Hx|[Hx|Hx]].
    + exfalso. apply Hk', in_app_iff. left.
      apply in_map_iff. now exists (x, k).
    + now injection Hx as ->.
    + exfalso. apply Hk', in_app_iff. right.
      apply in_map_iff. now exists (x, k).
Qed.

(** A step writes the position of its dependent only. *)
Lemma position_dependent_position boxes a c boxes' d b :
  position_dependent boxes a c = Ok boxes' ->
  dict_get d boxes = Some (RBox b) -> d <> c ->
  exists b', dict_get d boxes' = Some (RBox b') /\
             Box.position b' = Box.position b.
Proof.
  unfold position_dependent, getitem. intros H Hd Hne.
  assert (Hdc : key_eqb d c = false).
  { destruct (key_eqb d c) eqn:E; [|reflexivity].
    apply key_eqb_eq in E. contradiction. }
  destruct (dict_get c boxes) as [dependent|] eqn:Ec; [|discriminate].
  cbn [bind] in H.
  destruct dependent as [x|h|? |? ?|?];
    try (injection H as <-; now exists b).
  - destruct (dict_get a boxes) as [anchor|]; [|discriminate].
    cbn [bind] in H. inv_bind H. injection H as <-.
    rewrite dict_get_set_neq by assumption. now exists b.
  - destruct (dict_get a boxes) as [anchor|] eqn:Ea; [|discriminate].
    cbn [bind] in H. inv_bind H. injection H as <-.
    destruct anchor as [ax| | | |]; try discriminate. injection E as <-.
    destruct (key_eqb d a) eqn:Eda.
    + apply key_eqb_eq in Eda. subst d.
      rewrite dict_get_set_eq by (eapply dict_get_refl; eassumption).
      rewrite Hd in Ea. injection Ea as <-.
      eexists. split; reflexivity.
    + rewrite dict_get_set_neq by assumption. now exists b.
Qed.

Lemma run_steps_position steps : forall boxes boxes' d b,
  run_steps steps boxes = Ok boxes' ->
  dict_get d boxes = Some (RBox b) -> ~ In d (map snd steps) ->
  exists b', dict_get d boxes' = Some (RBox b') /\
             Box.position b' = Box.position b.
Proof.
  induction steps as [|[a c] steps IH]; intros boxes boxes' d b H Hd Hnot.
  - injection H as <-. now exists b.
  - change (run_steps ((a, c) :: steps) boxes)
      with (b1 <- position_dependent boxes a c ;; run_steps steps b1) in H.
    destruct (position_dependent boxes a c) as [boxes1|] eqn:E1;
      [|discriminate].
    cbn [bind] in H.
    destruct (position_dependent_position _ _ _ _ _ _ E1 Hd)
      as (b1 & Hb1 & Hp1); [intros ->; apply Hnot; now left|].
    destruct (IH _ _ _ _ H Hb1) as (b' & Hb' & Hp');
      [intros Hin; apply Hnot; now right|].
    exists b'. split; [assumption|]. now rewrite Hp'.
Qed.

(** ** The tree the builder makes *)

Lemma str_eq_key a s : str_eq a s = false -> key_eqb a (PStr s) = false.
Proof. now destruct a. Qed.

Lemma children_set_eq deps a l :
  key_eqb a a = true -> children (dict_set a l deps) a = l.
Proof. intros H. unfold children. now rewrite dict_get_set_eq. Qed.

Lemma children_set_neq deps a a' l :
  key_eqb a a' = false -> children (dict_set a' l deps) a = children deps a.
Proof. intros H. unfold children. now rewrite dict_get_set_neq. Qed.

(** A step of the builder lists the record under its adjacent. *)
Lemma generate_tree_step_adds st k r st' a n :
  generate_tree_step st (k, r) = Ok st' ->
  adjacent_of r = Ok a -> name_of r = Ok n -> str_eq a "start" = false ->
  In n (children (fst st') a).
Proof.
  destruct st as [deps fb]. unfold generate_tree_step.
  intros H Ha Hn Hs.
  assert (H' : (adjacent <- adjacent_of r ;;
                name <- name_of r ;;
                if str_eq adjacent "start"
                then Ok (dict_set (PStr "start") [name] deps, Some k)
                else
                  let dependents :=
                    if dict_mem adjacent deps then deps
                    else dict_set adjacent [] deps in
                  names <- getitem dependents adjacent ;;
                  Ok (dict_set adjacent (names ++ [name]) dependents, fb))
               = Ok st').
  { destruct r; try discriminate Ha; exact H. }
  clear H. rewrite Ha, Hn in H'. cbn [bind] in H'. rewrite Hs in H'.
  cbv zeta in H'. unfold getitem in H'.
  destruct (dict_get a _) as [names|] eqn:E; [|discriminate].
  injection H' as <-. cbn [fst].
  rewrite children_set_eq by (eapply dict_get_refl; eassumption).
  apply in_app_iff. right. now left.
Qed.

(** No later step takes a record off the list of its adjacent, the list of
    "start" apart. *)
Lemma generate_tree_step_keeps st e st' a n :
  generate_tree_step st e = Ok st' ->
  str_eq a "start" = false ->
  In n (children (fst st) a) -> In n (children (fst st') a).
Proof.
  destruct st as [deps fb], e as [k r]. unfold generate_tree_step.
  intros H Hs Hin. cbn [fst] in Hin.
  destruct (adjacent_of r) as [a'|] eqn:Ea;
    [|destruct r; try discriminate; injection H as <-; exact Hin].
  destruct (name_of r) as [n'|] eqn:En;
    [|destruct r; try discriminate; injection H as <-; exact Hin].
  assert (H' : (if str_eq a' "start"
                then Ok (dict_set (PStr "start") [n'] deps, Some k)
                else
                  let dependents :=
                    if dict_mem a' deps then deps
                    else dict_set a' [] deps in
                  names <- getitem dependents a' ;;
                  Ok (dict_set a' (names ++ [n']) dependents, fb))
               = Ok st').
  { destruct r; try discriminate Ea; exact H. }
  clear H. destruct (str_eq a' "start").
  - injection H' as <-. cbn [fst].
    rewrite children_set_neq by now apply str_eq_key. exact Hin.
  - cbv zeta in H'. unfold getitem in H'.
    destruct (dict_get a' _) as [names|] eqn:E; [|discriminate].
    injection H' as <-. cbn [fst].
    destruct (key_eqb a a') eqn:Eaa.
    + apply key_eqb_eq in Eaa. subst a'.
      rewrite children_set_eq by (eapply dict_get_refl; eassumption).
      apply in_app_iff. left.
      unfold children in Hin. unfold dict_mem in E.
      destruct (dict_get a deps) as [l|] eqn:El; [|destruct Hin].
      rewrite El in E. now injection E as <-.
    + rewrite children_set_neq by assumption.
      destruct (dict_mem a' deps); [exact Hin|].
      now rewrite children_set_neq.
Qed.

(** Every Space and every Hole whose adjacent is not "start" is listed among
    the dependents of its adjacent. *)
Lemma generate_tree_lists boxes deps fb k r a n :
  generate_tree boxes = Ok (deps, fb) ->
  In (k, r) boxes ->
  adjacent_of r = Ok a -> name_of r = Ok n -> str_eq a "start" = false ->
  In n (children deps a).
Proof.
  unfold generate_tree. intros H Hin Ha Hn Hs.
  apply in_split in Hin as (l1 & l2 & ->).
  rewrite for_each_app in H.
  destruct (for_each l1 _ _) as [st1|]; [|discriminate]. cbn [bind] in H.
  cbn [for_each] in H.
  destruct (generate_tree_step st1 (k, r)) as [st2|] eqn:E2; [|discriminate].
  cbn [bind] in H.
  pose proof (generate_tree_step_adds _ _ _ _ _ _ E2 Ha Hn Hs) as H2.
  change deps with (fst (deps, fb)).
  revert H2.
  apply (for_each_invariant
           (fun s s' => In n (children (fst s) a) ->
                        In n (children (fst s') a))) with (4 := H).
  - auto.
  - auto.
  - intros s x s' Hstep. now apply (generate_tree_step_keeps s x s').
Qed.

Lemma dict_set_concat {B} (d : dict (list B)) k v :
  exists A old C,
    concat (map snd d) = A ++ old ++ C /\
    concat (map snd (dict_set k v d)) = A ++ v ++ C /\
    (dict_get k d = Some old \/ dict_get k d = None /\ old = []).
Proof.
  induction d as [|[k' v'] d IH]; simpl.
  - exists [], [], []. simpl. rewrite app_nil_r. auto.
  - destruct (key_eqb k k') eqn:E; simpl.
    + exists [], v', (concat (map snd d)). auto.
    + destruct IH as (A & old & C & H1 & H2 & H3).
      exists (v' ++ A), old, C. rewrite H1, H2, <- !app_assoc. auto.
Qed.

Lemma nodup_remove_mid {A} (l old r : list A) :
  NoDup (l ++ old ++ r) -> NoDup (l ++ r).
Proof.
  induction l as [|x l IH]; simpl.
  - apply NoDup_app_remove_l.
  - intros H. apply NoDup_cons_iff in H as [Hx H]. constructor.
    + intros Hin. apply Hx. apply in_app_iff in Hin as [Hin|Hin];
        apply in_app_iff; [now left|right; apply in_app_iff; now right].
    + now apply IH.
Qed.

Lemma nodup_shift {A} (l old r rest : list A) n :
  NoDup ((l ++ old ++ r) ++ n :: rest) ->
  NoDup ((l ++ (old ++ [n]) ++ r) ++ rest).
Proof.
  apply Permutation_NoDup.
  rewrite <- !app_assoc. apply Permutation_app_head.
  apply Permutation_app_head. simpl.
  apply Permutation_sym, Permutation_middle.
Qed.

Lemma nodup_replace {A} (l old r rest : list A) n :
  NoDup ((l ++ old ++ r) ++ n :: rest) ->
  NoDup ((l ++ [n] ++ r) ++ rest).
Proof.
  rewrite <- !app_assoc. intros H. apply nodup_remove_mid in H.
  revert H. apply Permutation_NoDup.
  apply Permutation_app_head. simpl.
  apply Permutation_sym, Permutation_middle.
Qed.

Lemma generate_tree_step_nodup st k r st' rest :
  generate_tree_step st (k, r) = Ok st' ->
  NoDup (concat (map snd (fst st)) ++ record_names ((k, r) :: rest)) ->
  NoDup (concat (map snd (fst st')) ++ record_names rest).
Proof.
  destruct st as [deps fb]. unfold generate_tree_step. cbn [fst].
  unfold record_names. cbn [flat_map].
  fold (record_names rest).
  intros H Hnd.
  destruct (adjacent_of r) as [a|] eqn:Ea;
    [|destruct r; try discriminate; injection H as <-; exact Hnd].
  destruct (name_of r) as [n|] eqn:En;
    [|destruct r; try discriminate; injection H as <-; exact Hnd].
  assert (Hn : (match r with
                | RBox b => [Box.name b]
                | RHole h => [Hole.name h]
                | _ => []
                end) = [n]).
  { destruct r; try discriminate Ea; simpl in En; now injection En as <-. }
  rewrite Hn in Hnd. simpl in Hnd.
  assert (H' : (if str_eq a "start"
                then Ok (dict_set (PStr "start") [n] deps, Some k)
                else
                  let dependents :=
                    if dict_mem a deps then deps
                    else dict_set a [] deps in
                  names <- getitem dependents a ;;
                  Ok (dict_set a (names ++ [n]) dependents, fb))
               = Ok st').
  { destruct r; try discriminate Ea; exact H. }
  clear H. destruct (str_eq a "start").
  - injection H' as <-. cbn [fst].
    destruct (dict_set_concat deps (PStr "start") [n])
      as (A & old & C & H1 & H2 & _).
    rewrite H1 in Hnd. rewrite H2. now apply nodup_replace with (old := old).
  - cbv zeta in H'. unfold getitem in H'.
    destruct (dict_get a _) as [names|] eqn:E; [|discriminate].
    injection H' as <-. cbn [fst].
    set (deps1 := if dict_mem a deps then deps else dict_set a [] deps) in *.
    assert (Hsame : concat (map snd deps1) = concat (map snd deps)).
    { subst deps1. unfold dict_mem.
      destruct (dict_get a deps) eqn:Eg; [reflexivity|].
      destruct (dict_set_concat deps a []) as (A & old & C & H1 & H2 & H3).
      destruct H3 as [H3|[_ ->]]; [congruence|]. now rewrite H1, H2. }
    destruct (dict_set_concat deps1 a (names ++ [n]))
      as (A & old & C & H1 & H2 & H3).
    destruct H3 as [H3|[H3 _]]; [|congruence].
    rewrite E in H3. injection H3 as <-.
    rewrite <- Hsame, H1 in Hnd. rewrite H2. now apply nodup_shift.
Qed.

(** The builder makes a tree when no two Spaces or Holes share a name. *)
Lemma generate_tree_tree_like boxes deps fb :
  generate_tree boxes = Ok (deps, fb) ->
  NoDup (record_names boxes) -> tree_like deps.
Proof.
  unfold generate_tree, tree_like. intros H Hnd.
  change deps with (fst (deps, fb)).
  assert (Hgen : forall l st st',
            for_each l st generate_tree_step = Ok st' ->
            NoDup (concat (map snd (fst st)) ++ record_names l) ->
            NoDup (concat (map snd (fst st')))).
  { induction l as [|[k r] l IH]; intros st st' Hl Hn.
    - injection Hl as <-. unfold record_names in Hn. simpl in Hn.
      now rewrite app_nil_r in Hn.
    - cbn [for_each] in Hl.
      destruct (generate_tree_step st (k, r)) as [st1|] eqn:E1;
        [|discriminate].
      cbn [bind] in Hl. apply (IH st1 st' Hl).
      eapply generate_tree_step_nodup; eassumption. }
  apply (Hgen boxes ([], None) _ H). exact Hnd.
Qed.

(** The starting record is the dependent of "start". *)
Lemma generate_tree_start boxes deps root :
  generate_tree boxes = Ok (deps, Some root) ->
  (forall k r, In (k, r) boxes -> dict_get k boxes = Some r) ->
  named boxes ->
  In root (children deps (PStr "start")).
Proof.
  unfold generate_tree. intros H Hkeys Hn.
  assert (Hgen : forall l st st',
            (forall k r, In (k, r) l -> In (k, r) boxes) ->
            for_each l st generate_tree_step = Ok st' ->
            (forall k, snd st = Some k ->
                       In k (children (fst st) (PStr "start"))) ->
            forall k, snd st' = Some k ->
                      In k (children (fst st') (PStr "start"))).
  { induction l as [|[k r] l IH]; intros st st' Hl Hrun Hinv.
    - injection Hrun as <-. exact Hinv.
    - cbn [for_each] in Hrun.
      destruct (generate_tree_step st (k, r)) as [st1|] eqn:E1;
        [|discriminate].
      cbn [bind] in Hrun.
      apply (IH st1 st'); [intros; apply Hl; now right|exact Hrun|].
      clear IH Hrun. destruct st as [ds fb]. unfold generate_tree_step in E1.
      cbn [fst snd] in Hinv.
      destruct (adjacent_of r) as [a|] eqn:Ea;
        [|destruct r; try discriminate; injection E1 as <-; exact Hinv].
      destruct (name_of r) as [n|] eqn:En;
        [|destruct r; try discriminate; injection E1 as <-; exact Hinv].
      assert (n = k).
      { apply (Hn k r n); [|assumption]. apply Hkeys, Hl. now left. }
      subst n.
      assert (H' : (if str_eq a "start"
                    then Ok (dict_set (PStr "start") [k] ds, Some k)
                    else
                      let dependents :=
                        if dict_mem a ds then ds else dict_set a [] ds in
                      names <- getitem dependents a ;;
                      Ok (dict_set a (names ++ [k]) dependents, fb))
                   = Ok st1).
      { destruct r; try discriminate Ea; exact E1. }
      clear E1. destruct (str_eq a "start") eqn:Es.
      + injection H' as <-. cbn [fst snd]. intros k' [= <-].
        rewrite children_set_eq by reflexivity. now left.
      + cbv zeta in H'. unfold getitem in H'.
        destruct (dict_get a _) as [names|]; [|discriminate].
        injection H' as <-. cbn [fst snd]. intros k' Hk'.
        assert (Hne : key_eqb (PStr "start") a = false)
          by (rewrite key_eqb_sym; now apply str_eq_key).
        rewrite children_set_neq by assumption.
        destruct (dict_mem a ds); [now apply Hinv|].
        rewrite children_set_neq by assumption. now apply Hinv. }
  apply (Hgen boxes ([], None) (deps, Some root)); auto.
  discriminate.
Qed.

(** The adjuster changes neither the name nor the adjacent of a record, so
    the tree of the adjusted store is the tree of the store. *)
Lemma add_to_dimension_fields b i v b' :
  add_to_dimension b i v = Ok b' ->
  Box.adjacent b' = Box.adjacent b /\ Box.name b' = Box.name b.
Proof.
  unfold add_to_dimension. intros H. repeat inv_bind H.
  injection H as <-. now destruct b.
Qed.

Lemma adjust_record_same_tree wt ft ct r r' st k :
  adjust_record wt ft ct r = Ok r' ->
  generate_tree_step st (k, r') = generate_tree_step st (k, r).
Proof.
  destruct st as [deps fb].
  destruct r as [b|h|? |? ?|?]; simpl; try (intros [= <-]; reflexivity).
  - destruct (str_eq (Box.box_type b) "room");
      [|intros [= <-]; reflexivity].
    intros H.
    destruct (add_to_dimension b 0 (Ok wt)) as [b0|] eqn:E0; [|discriminate].
    cbn [bind] in H.
    destruct (add_to_dimension b0 1 (Ok wt)) as [b1|] eqn:E1; [|discriminate].
    cbn [bind] in H.
    destruct (add_to_dimension b1 2 (py_add ft ct)) as [b2|] eqn:E2;
      [|discriminate].
    cbn [bind] in H. injection H as <-.
    apply add_to_dimension_fields in E0 as [Ha0 Hn0].
    apply add_to_dimension_fields in E1 as [Ha1 Hn1].
    apply add_to_dimension_fields in E2 as [Ha2 Hn2].
    cbn [adjacent_of name_of bind].
    now rewrite Ha2, Ha1, Ha0, Hn2, Hn1, Hn0.
  - intros H. repeat inv_bind H. injection H as <-. reflexivity.
Qed.

Lemma for_values_same_tree wt ft ct : forall boxes boxes' st,
  for_values boxes (adjust_record wt ft ct) = Ok boxes' ->
  for_each boxes' st generate_tree_step = for_each boxes st generate_tree_step.
Proof.
  induction boxes as [|[k r] boxes IH]; intros boxes' st; simpl.
  - now intros [= <-].
  - destruct (adjust_record wt ft ct r) as [r'|] eqn:Er; [|discriminate].
    cbn [bind].
    destruct (for_values boxes _) as [rest|] eqn:Erest; [|discriminate].
    intros [= <-]. cbn [for_each bind].
    rewrite (adjust_record_same_tree _ _ _ _ _ st k Er).
    destruct (generate_tree_step st (k, r)); [|reflexivity].
    cbn [bind]. now apply IH.
Qed.

(** ** The resolver returns on well-formed input *)

Lemma place_well_formed a d :
  well_formed_box a -> well_formed_box d ->
  exists d', place (RBox a) d = Ok d' /\ well_formed_box d'.
Proof.
  intros (Ha & _) (Hd & (al & Hal) & (o & Ho)).
  eexists. split; [apply (place_spec a d al o); assumption|].
  split; [|split].
  - split; [reflexivity|]. destruct d; apply Hd.
  - exists al. now destruct d.
  - exists o. now destruct d.
Qed.

Lemma steps_present_evolves s s' steps :
  store_evolves s s' -> steps_present s steps -> steps_present s' steps.
Proof.
  intros He Hp a c Hin. destruct (Hp a c Hin) as [(b & Hb) (r & Hr & Hn)].
  split.
  - destruct (store_evolves_box _ _ _ _ He Hb) as (b' & Hb' & _).
    now exists b'.
  - specialize (He c). rewrite Hr in He.
    destruct (dict_get c s') as [r'|]; [|contradiction].
    exists r'. split; [reflexivity|].
    now rewrite (record_evolves_name _ _ He).
Qed.

Lemma position_dependent_total boxes a c :
  all_well_formed boxes -> steps_present boxes [(a, c)] ->
  exists boxes', position_dependent boxes a c = Ok boxes' /\
                 all_well_formed boxes'.
Proof.
  intros Hwf Hp. destruct (Hp a c (or_introl eq_refl))
    as [(ab & Hab) (r & Hr & Hn)].
  unfold position_dependent, getitem. rewrite Hr. cbn [bind].
  destruct r as [d|h|? |? ?|?]; try (now exists boxes).
  - rewrite Hab. cbn [bind].
    destruct (place_well_formed ab d) as (d' & Hd' & Hwd');
      [now apply (Hwf a)|now apply (Hwf c)|].
    rewrite Hd'. cbn [bind]. eexists. split; [reflexivity|].
    intros k b. destruct (key_eqb k c) eqn:E.
    + apply key_eqb_eq in E. subst k.
      rewrite dict_get_set_eq by (eapply dict_get_refl; eassumption).
      now intros [= <-].
    + rewrite dict_get_set_neq by assumption. apply Hwf.
  - rewrite Hab. cbn [bind append_hole]. eexists. split; [reflexivity|].
    intros k b. destruct (key_eqb k a) eqn:E.
    + apply key_eqb_eq in E. subst k.
      rewrite dict_get_set_eq by (eapply dict_get_refl; eassumption).
      intros [= <-]. destruct (Hwf a ab Hab) as (Hs & Hal & Ho).
      destruct ab. exact (conj Hs (conj Hal Ho)).
    + rewrite dict_get_set_neq by assumption. apply Hwf.
Qed.

Lemma run_steps_total steps : forall boxes,
  all_well_formed boxes -> steps_present boxes steps ->
  exists boxes', run_steps steps boxes = Ok boxes'.
Proof.
  induction steps as [|[a c] steps IH]; intros boxes Hwf Hp.
  - now exists boxes.
  - destruct (position_dependent_total boxes a c Hwf) as (b1 & H1 & Hwf1).
    { intros x y [[= <- <-]|[]]. apply Hp. now left. }
    destruct (IH b1 Hwf1) as (boxes' & H').
    { eapply steps_present_evolves;
        [eapply position_dependent_evolves; eassumption|].
      intros x y Hin. apply Hp. now right. }
    exists boxes'.
    change (run_steps ((a, c) :: steps) boxes)
      with (b <- position_dependent boxes a c ;; run_steps steps b).
    now rewrite H1.
Qed.

Lemma collect_split {A B} (f : A -> option (list B)) x l steps :
  collect f (x :: l) = Some steps ->
  exists s r, f x = Some s /\ collect f l = Some r /\ steps = s ++ r.
Proof.
  simpl. destruct (f x) as [s|]; [|discriminate].
  destruct (collect f l) as [r|]; [|discriminate].
  intros [= <-]. now exists s, r.
Qed.

(** The steps of the walk, run in their order, are a run of
    [position_dependents]. *)
Lemma walk_position_dependents limit :
  forall boxes dependents box level steps boxes',
    named boxes ->
    (exists r, dict_get box boxes = Some r /\ name_of r = Ok box) ->
    steps_present boxes steps ->
    walk limit dependents box = Some steps ->
    run_steps steps boxes = Ok boxes' ->
    position_dependents limit boxes dependents box level = Ok boxes'.
Proof.
  induction limit as [|limit IH];
    intros boxes deps box level steps boxes' Hn (r & Hr & Hname) Hp Hw Hrun;
    [discriminate|].
  cbn [position_dependents]. unfold getitem. rewrite Hr. cbn [bind].
  rewrite Hname. cbn [bind].
  rewrite walk_S in Hw. unfold children in Hw.
  destruct (dict_get box deps) as [names|].
  2:{ injection Hw as <-. exact Hrun. }
  clear r Hr Hname. revert boxes steps Hn Hp Hw Hrun.
  induction names as [|c names IHn]; intros boxes steps Hn Hp Hw Hrun.
  - injection Hw as <-. exact Hrun.
  - apply collect_split in Hw as (s & rest & Hs & Hrest & ->).
    unfold block in Hs.
    destruct (walk limit deps c) as [t|] eqn:Et; [|discriminate].
    injection Hs as <-.
    rewrite run_steps_app in Hrun.
    change (run_steps ((box, c) :: t) boxes)
      with (b1 <- position_dependent boxes box c ;; run_steps t b1) in Hrun.
    destruct (position_dependent boxes box c) as [boxes1|] eqn:E1;
      [|discriminate].
    cbn [bind] in Hrun.
    destruct (run_steps t boxes1) as [boxes2|] eqn:E2; [|discriminate].
    cbn [bind] in Hrun.
    pose proof (position_dependent_evolves _ _ _ _ E1) as He1.
    pose proof (run_steps_evolves _ _ _ E2) as He2.
    assert (Hn1 : named boxes1) by (eapply store_evolves_named; eassumption).
    assert (Hn2 : named boxes2) by (eapply store_evolves_named; eassumption).
    assert (Hp1 : steps_present boxes1 (((box, c) :: t) ++ rest))
      by (eapply steps_present_evolves; eassumption).
    cbn [for_each]. rewrite E1. cbn [bind].
    rewrite (IH boxes1 deps c level t boxes2 Hn1); try assumption.
    + cbn [bind]. apply (IHn boxes2 rest); try assumption.
      eapply steps_present_evolves; [exact He2|].
      intros x y Hin. apply Hp1. apply in_app_iff. now right.
    + apply (Hp1 box c). now left.
    + intros x y Hin. apply Hp1. apply in_app_iff. left. now right.
Qed.

(** ** Holes and the order of the walk *)

Lemma well_formed_returns limit boxes dependents root steps level :
  well_formed limit boxes dependents root steps ->
  exists boxes',
    position_dependents limit boxes dependents root level = Ok boxes' /\
    run_steps steps boxes = Ok boxes'.
Proof.
  intros [_ Hn _ Hwf _ _ (b & Hb) Hw Hp].
  destruct (run_steps_total steps boxes Hwf Hp) as (boxes' & Hrun).
  exists boxes'. split; [|exact Hrun].
  apply (walk_position_dependents limit boxes dependents root level steps);
    try assumption.
  exists (RBox b). split; [assumption|]. simpl. f_equal.
  apply (Hn root (RBox b)); [assumption|reflexivity].
Qed.

(** C3.  On a well-formed input the resolver returns, and every Hole whose
    adjacent names a Space of the store reachable from the root is then once
    in the holes of that Space and in the holes of no other Space; the
    record of the Hole is as it was: a Hole has no position, and none is
    computed or stored for it. *)
Theorem holes_attached_once limit boxes dependents root steps level :
  well_formed limit boxes dependents root steps ->
  exists boxes',
    position_dependents limit boxes dependents root level = Ok boxes' /\
    forall k h b,
      dict_get k boxes = Some (RHole h) ->
      dict_get (Hole.adjacent h) boxes = Some (RBox b) ->
      reaches dependents root (Hole.adjacent h) ->
      dict_get k boxes' = Some (RHole h) /\
      (exists b',
         dict_get (Hole.adjacent h) boxes' = Some (RBox b') /\
         occurs_once h (Box.holes b')) /\
      (forall a' b'',
         dict_get a' boxes' = Some (RBox b'') ->
         In h (Box.holes b'') -> a' = Hole.adjacent h).
Proof.
  intros Hwf.
  destruct (well_formed_returns _ _ _ _ _ level Hwf) as (boxes' & Hpd & Hrun).
  exists boxes'. split; [exact Hpd|].
  destruct Hwf as [Hkeys Hn Hdis _ Hempty Htree _ Hw _].
  pose proof (generate_tree_tree_like _ _ _ Htree Hdis) as Htl.
  pose proof (run_steps_evolves _ _ _ Hrun) as Hev.
  intros k h b Hk Ha Hreach.
  assert (Hstart : str_eq (Hole.adjacent h) "start" = false).
  { destruct (str_eq (Hole.adjacent h) "start") eqn:E; [|reflexivity].
    exfalso. apply str_eq_true in E. rewrite E in Hreach.
    apply (walk_acyclic _ _ _ _ Hw).
    eapply reaches_below; [exact Hreach|].
    apply below_child. now apply (generate_tree_start boxes). }
  assert (Hname : Hole.name h = k)
    by (apply (Hn k (RHole h)); [assumption|reflexivity]).
  assert (Hchild : In k (children dependents (Hole.adjacent h))).
  { apply (generate_tree_lists boxes dependents (Some root) k (RHole h));
      try assumption; try reflexivity.
    - now apply dict_get_In.
    - simpl. now rewrite Hname. }
  assert (Hstep : In (Hole.adjacent h, k) steps)
    by (eapply walk_reaches; eassumption).
  assert (Hnd : NoDup (map snd steps)) by (eapply walk_nodup; eassumption).
  destruct (attached_once boxes steps (Hole.adjacent h) k h Hn Hnd Hstep Hk)
    as [Honce Honly]; [eapply dict_get_refl; eassumption|].
  split; [now apply (store_evolves_hole boxes boxes' k h Hev)|]. split.
  - destruct (run_steps_holes _ _ _ _ _ Hrun Ha) as (b' & Hb' & Hh').
    exists b'. split; [assumption|].
    now rewrite Hh', (Hempty _ _ Ha).
  - intros a' b'' Hb'' Hin.
    destruct (store_evolves_box_back _ _ _ _ Hev Hb'') as (b0 & Hb0 & _).
    destruct (run_steps_holes _ _ _ _ _ Hrun Hb0) as (b1 & Hb1 & Hh1).
    rewrite Hb'' in Hb1. injection Hb1 as <-.
    rewrite Hh1, (Hempty _ _ Hb0) in Hin. now apply Honly.
Qed.

(** ** The position a step sets *)

Lemma box_evolves_fields b b' :
  box_evolves b b' ->
  Box.dimensions b' = Box.dimensions b /\
  Box.direction b' = Box.direction b /\
  Box.alignment b' = Box.alignment b /\
  Box.offset b' = Box.offset b.
Proof. unfold box_evolves. intros H. rewrite H. now destruct b. Qed.

Lemma place_position_ext a a2 d d2 al o :
  Box.position a2 = Box.position a ->
  Box.dimensions a2 = Box.dimensions a ->
  Box.position d2 = Box.position d ->
  Box.dimensions d2 = Box.dimensions d ->
  Box.direction d2 = Box.direction d ->
  place_position a2 d2 al o = place_position a d al o.
Proof.
  intros Hpa Hda Hpd Hdd Hdir.
  unfold place_position, abut_position, high_axis, low_axis, before_axis,
    after_axis.
  now rewrite Hpa, Hda, Hpd, Hdd, Hdir.
Qed.

Lemma nodup_app_apart {A} (l1 l2 : list A) x :
  NoDup (l1 ++ l2) -> In x l1 -> ~ In x l2.
Proof.
  induction l1 as [|y l1 IH]; simpl; intros Hnd Hin; [destruct Hin|].
  inversion Hnd as [|? ? Hy Hnd']; subst.
  destruct Hin as [->|Hin]; [|now apply IH].
  intros Hx. apply Hy. apply in_or_app. now right.
Qed.

Lemma run_steps_well_formed steps : forall boxes boxes',
  all_well_formed boxes -> steps_present boxes steps ->
  run_steps steps boxes = Ok boxes' -> all_well_formed boxes'.
Proof.
  induction steps as [|[a c] steps IH]; intros boxes boxes' Hwf Hp H.
  - now injection H as <-.
  - destruct (position_dependent_total boxes a c Hwf) as (b1 & H1 & Hwf1).
    { intros x y [[= <- <-]|[]]. apply Hp. now left. }
    change (run_steps ((a, c) :: steps) boxes)
      with (b <- position_dependent boxes a c ;; run_steps steps b) in H.
    rewrite H1 in H. cbn [bind] in H.
    apply (IH b1 boxes' Hwf1); [|exact H].
    eapply steps_present_evolves;
      [eapply position_dependent_evolves; eassumption|].
    intros x y Hin. apply Hp. now right.
Qed.

(** The step (a, d) of a run sets the position of the Space d by the rule of
    the four loops, from the position its anchor has then and still has when
    the run ends. *)
Lemma run_steps_placed before a d after boxes boxes' d0 a' :
  all_well_formed boxes ->
  steps_present boxes (before ++ (a, d) :: after) ->
  NoDup (map snd (before ++ (a, d) :: after)) ->
  ~ In a (map snd ((a, d) :: after)) ->
  run_steps (before ++ (a, d) :: after) boxes = Ok boxes' ->
  dict_get d boxes = Some (RBox d0) ->
  dict_get a boxes' = Some (RBox a') ->
  exists d' al o,
    dict_get d boxes' = Some (RBox d') /\
    Box.alignment d0 = PStr al /\ Box.offset d0 = PFloat o /\
    Box.position d' = place_position a' d0 al o.
Proof.
  intros Hwf Hp Hnd Ha Hrun Hd Ha'.
  rewrite run_steps_app in Hrun.
  destruct (run_steps before boxes) as [s1|] eqn:E1; [|discriminate].
  cbn [bind] in Hrun.
  change (run_steps ((a, d) :: after) s1)
    with (b1 <- position_dependent s1 a d ;; run_steps after b1) in Hrun.
  destruct (position_dependent s1 a d) as [s2|] eqn:E2; [|discriminate].
  cbn [bind] in Hrun.
  rewrite map_app in Hnd. cbn [map snd] in Hnd.
  apply NoDup_remove_2 in Hnd.
  assert (Hdb : ~ In d (map snd before))
    by (intros H; apply Hnd; apply in_or_app; now left).
  assert (Hda : ~ In d (map snd after))
    by (intros H; apply Hnd; apply in_or_app; now right).
  assert (Haa : ~ In a (map snd after))
    by (intros H; apply Ha; now right).
  assert (Had : key_eqb a d = false).
  { destruct (key_eqb a d) eqn:E; [|reflexivity].
    apply key_eqb_eq in E. exfalso. apply Ha. left. now symmetry. }
  pose proof (run_steps_evolves _ _ _ E1) as Hev1.
  destruct (run_steps_position before boxes s1 d d0 E1 Hd Hdb)
    as (d1 & Hd1 & Hpos1).
  destruct (store_evolves_box _ _ _ _ Hev1 Hd) as (d1' & Hd1' & Hbe).
  rewrite Hd1 in Hd1'. injection Hd1' as <-.
  destruct (box_evolves_fields _ _ Hbe) as (Hdim1 & Hdir1 & Hal1 & Ho1).
  assert (Hwf1 : all_well_formed s1).
  { apply (run_steps_well_formed before boxes s1 Hwf); [|exact E1].
    intros x y Hin. apply Hp. apply in_or_app. now left. }
  destruct (Hp a d) as [(a0 & Ha0) _]; [apply in_or_app; right; now left|].
  destruct (store_evolves_box _ _ _ _ Hev1 Ha0) as (a1 & Ha1 & _).
  destruct (Hwf1 d d1 Hd1) as (Hsd & (al & Hal) & (o & Ho)).
  destruct (Hwf1 a a1 Ha1) as (Hsa & _).
  unfold position_dependent, getitem in E2.
  rewrite Hd1 in E2. cbn [bind] in E2. rewrite Ha1 in E2. cbn [bind] in E2.
  rewrite (place_spec a1 d1 al o Hsa Hsd Hal Ho) in E2. cbn [bind] in E2.
  injection E2 as <-.
  assert (Hd2 : dict_get d
                  (dict_set d
                     (RBox (Box.set_position d1 (place_position a1 d1 al o)))
                     s1)
                = Some (RBox (Box.set_position d1
                                (place_position a1 d1 al o)))).
  { apply dict_get_set_eq. eapply dict_get_refl. exact Hd1. }
  assert (Ha2 : dict_get a
                  (dict_set d
                     (RBox (Box.set_position d1 (place_position a1 d1 al o)))
                     s1)
                = Some (RBox a1)).
  { rewrite dict_get_set_neq by exact Had. exact Ha1. }
  destruct (run_steps_position after _ boxes' d _ Hrun Hd2 Hda)
    as (d' & Hd' & Hpos').
  destruct (run_steps_position after _ boxes' a a1 Hrun Ha2 Haa)
    as (a2 & Ha2' & Hposa).
  rewrite Ha' in Ha2'. injection Ha2' as <-.
  destruct (store_evolves_box _ _ _ _ (run_steps_evolves _ _ _ Hrun) Ha2)
    as (a3 & Ha3 & Hbea).
  rewrite Ha' in Ha3. injection Ha3 as <-.
  destruct (box_evolves_fields _ _ Hbea) as (Hdima & _).
  exists d', al, o. split; [exact Hd'|].
  split; [now rewrite <- Hal1|]. split; [now rewrite <- Ho1|].
  rewrite Hpos', position_set_position.
  apply place_position_ext; congruence.
Qed.

(** C4.  On a well-formed input the resolver returns, and its run is the
    run of the steps of the walk in their order, a step (a, d) placing the
    dependent d against its anchor a.  Every record below the root is the
    dependent of one step exactly, so the position of a Space is set once;
    the root, whose position the caller has set, is the dependent of none;
    and the anchor of every step is the root or the dependent of an earlier
    step: a position is set before the dependents of its Space are placed,
    and it is never read before it is set.  The position of a Space that is
    the dependent of no step, the root among them, is left as it was.  The
    position a Space d placed against a Space a ends with is the one the
    four loops compute from the position and the dimensions that a ends
    with and from the direction, alignment, offset, dimensions and first
    position of d: the position of a was final when it was read, and the
    position of d is not changed after its step. *)
Theorem spaces_placed_in_preorder limit boxes dependents root steps level :
  well_formed limit boxes dependents root steps ->
  exists boxes',
    position_dependents limit boxes dependents root level = Ok boxes' /\
    run_steps steps boxes = Ok boxes' /\
    (forall d, below dependents root d -> occurs_once d (map snd steps)) /\
    (forall d, In d (map snd steps) -> below dependents root d) /\
    ~ In root (map snd steps) /\
    (forall before a d after,
       steps = before ++ (a, d) :: after ->
       In d (children dependents a) /\
       (a = root \/ In a (map snd before))) /\
    (forall d b,
       dict_get d boxes = Some (RBox b) -> ~ In d (map snd steps) ->
       exists b', dict_get d boxes' = Some (RBox b') /\
                  Box.position b' = Box.position b) /\
    (forall a d d0 a',
       In (a, d) steps ->
       dict_get d boxes = Some (RBox d0) ->
       dict_get a boxes' = Some (RBox a') ->
       exists d' al o,
         dict_get d boxes' = Some (RBox d') /\
         Box.alignment d0 = PStr al /\ Box.offset d0 = PFloat o /\
         Box.position d' = place_position a' d0 al o).
Proof.
  intros Hwf.
  destruct (well_formed_returns _ _ _ _ _ level Hwf) as (boxes' & Hpd & Hrun).
  exists boxes'. split; [exact Hpd|]. split; [exact Hrun|].
  destruct Hwf as [_ _ Hdis Hboxes _ Htree _ Hw Hpresent].
  pose proof (generate_tree_tree_like _ _ _ Htree Hdis) as Htl.
  split; [|split; [|split; [|split; [|split]]]].
  - intros d Hd. apply nodup_occurs_once.
    + eapply walk_nodup; eassumption.
    + eapply walk_below; eassumption.
  - intros d Hd. apply in_map_iff in Hd as ([a c] & Hc & Hin).
    simpl in Hc. subst c.
    destruct (walk_in _ _ _ _ _ _ Hw Hin) as [Hc Ha].
    destruct Ha as [<-|Ha]; [now apply below_child|].
    eapply below_step; eassumption.
  - eapply walk_root_not_placed; eassumption.
  - intros before a d after Hsplit. split.
    + apply (walk_in _ _ _ _ a d Hw). rewrite Hsplit.
      apply in_app_iff. right. now left.
    + eapply walk_preorder; eassumption.
  - intros d b Hd Hnot. eapply run_steps_position; eassumption.
  - intros a d d0 a' Hin Hd Ha'.
    destruct (in_split _ _ Hin) as (before & after & Hsplit).
    pose proof (walk_nodup _ Htl _ _ _ Hw) as Hnd.
    pose proof (walk_root_not_placed _ _ _ _ Hw) as Hroot.
    pose proof (walk_preorder _ _ _ _ before a d after Hw Hsplit) as Hpre.
    subst steps.
    apply (run_steps_placed before a d after boxes boxes' d0 a');
      try assumption.
    rewrite map_app in Hnd, Hroot.
    destruct Hpre as [->|Hpre].
    + intros H. apply Hroot. apply in_or_app. now right.
    + now apply (nodup_app_apart _ _ a Hnd).
Qed.

Ltac in_cases H :=
  simpl in H;
  repeat match type of H with
  | _ \/ _ => destruct H as [H|H]
  | False => destruct H
  end.

(** The house is a well-formed input. *)
Lemma house_well_formed :
  well_formed 10 house house_tree (PStr "Hall") house_steps.
Proof.
  assert (Hcases : forall k r, dict_get k house = Some r ->
            In (k, r) house) by (intros; now apply dict_get_In).
  split.
  - intros k r H. in_cases H; injection H as <- <-; reflexivity.
  - intros k r n H Hn. apply Hcases in H. in_cases H;
      injection H as <- <-; simpl in Hn; now injection Hn as <-.
  - unfold house, record_names. simpl.
    repeat constructor; simpl; intuition discriminate.
  - intros k b H. apply Hcases in H. in_cases H; try discriminate H;
      injection H as <- <-;
      (split; [split; reflexivity|split; eexists; reflexivity]).
  - intros k b H. apply Hcases in H. in_cases H; try discriminate H;
      injection H as <- <-; reflexivity.
  - reflexivity.
  - eexists. reflexivity.
  - reflexivity.
  - intros a c H. in_cases H;
      injection H as <- <-; (split; eexists; [|split]; reflexivity).
Qed.

Lemma holes_attached_once_witness :
  exists boxes',
    position_dependents 10 house house_tree (PStr "Hall") 1 = Ok boxes' /\
    forall k h b,
      dict_get k house = Some (RHole h) ->
      dict_get (Hole.adjacent h) house = Some (RBox b) ->
      reaches house_tree (PStr "Hall") (Hole.adjacent h) ->
      dict_get k boxes' = Some (RHole h) /\
      (exists b',
         dict_get (Hole.adjacent h) boxes' = Some (RBox b') /\
         occurs_once h (Box.holes b')) /\
      (forall a' b'',
         dict_get a' boxes' = Some (RBox b'') ->
         In h (Box.holes b'') -> a' = Hole.adjacent h).
Proof.
  apply (holes_attached_once 10 house house_tree (PStr "Hall") house_steps 1).
  exact house_well_formed.
Defined.

Lemma spaces_placed_in_preorder_witness :
  exists boxes',
    position_dependents 10 house house_tree (PStr "Hall") 1 = Ok boxes' /\
    run_steps house_steps house = Ok boxes' /\
    (forall d, below house_tree (PStr "Hall") d ->
               occurs_once d (map snd house_steps)) /\
    (forall d, In d (map snd house_steps) ->
               below house_tree (PStr "Hall") d) /\
    ~ In (PStr "Hall") (map snd house_steps) /\
    (forall before a d after,
       house_steps = before ++ (a, d) :: after ->
       In d (children house_tree a) /\
       (a = PStr "Hall" \/ In a (map snd before))) /\
    (forall d b,
       dict_get d house = Some (RBox b) -> ~ In d (map snd house_steps) ->
       exists b', dict_get d boxes' = Some (RBox b') /\
                  Box.position b' = Box.position b) /\
    (forall a d d0 a',
       In (a, d) house_steps ->
       dict_get d house = Some (RBox d0) ->
       dict_get a boxes' = Some (RBox a') ->
       exists d' al o,
         dict_get d boxes' = Some (RBox d') /\
         Box.alignment d0 = PStr al /\ Box.offset d0 = PFloat o /\
         Box.position d' = place_position a' d0 al o).
Proof.
  apply (spaces_placed_in_preorder 10 house house_tree (PStr "Hall")
           house_steps 1).
  exact house_well_formed.
Defined.

(** ** The tree is built before the adjuster runs *)

Lemma for_values_app_inv {V} (f : V -> result V) d1 d2 r :
  for_values (d1 ++ d2) f = Ok r ->
  exists r1 r2,
    for_values d1 f = Ok r1 /\ for_values d2 f = Ok r2 /\ r = r1 ++ r2.
Proof.
  revert r. induction d1 as [|[k v] d1 IH]; intros r; simpl.
  - intros H. now exists [], r.
  - destruct (f v) as [v'|]; [|discriminate]. cbn [bind].
    destruct (for_values (d1 ++ d2) f) as [rest|] eqn:E; [|discriminate].
    intros [= <-]. destruct (IH rest eq_refl) as (r1 & r2 & -> & H2 & ->).
    exists ((k, v') :: r1), r2. auto.
Qed.

Lemma generate_tree_constants boxes st :
  for_each (missing_defaults boxes) st generate_tree_step = Ok st.
Proof.
  unfold missing_defaults, DEFAULT_CONSTANTS. cbn [flat_map].
  destruct st as [deps fb].
  repeat match goal with
  | |- context [if ?c then _ else _] => destruct c
  end; reflexivity.
Qed.

Section TreeBeforeAdjuster.
Context {rt : PyRuntime}.

(** [make_scad_layout] builds the tree of the store as it is read and runs
    the resolver on the adjusted store: the tree of the adjusted store is the
    same tree. *)
Lemma generate_tree_adjusted boxes boxes' preamble :
  adjust_dimensions boxes = Ok (boxes', preamble) ->
  generate_tree boxes' = generate_tree boxes.
Proof.
  unfold adjust_dimensions. rewrite add_default_constants_spec.
  cbn [bind]. intros H.
  destruct (c <- getitem _ (PStr "wall_thickness") ;; value_of c) as [wt|];
    [|discriminate].
  cbn [bind] in H.
  destruct (c <- getitem _ (PStr "floor_thickness") ;; value_of c) as [ft|];
    [|discriminate].
  cbn [bind] in H.
  destruct (c <- getitem _ (PStr "ceiling_thickness") ;; value_of c) as [ct|];
    [|discriminate].
  cbn [bind] in H.
  destruct (for_values _ _) as [bs|] eqn:E; [|discriminate].
  cbn [bind] in H.
  destruct (PREAMBLE0 wt ft ct); [|discriminate].
  injection H as <- _.
  apply for_values_app_inv in E as (r1 & r2 & H1 & H2 & ->).
  rewrite (for_values_constants (adjust_record wt ft ct) boxes
             (fun _ => eq_refl)) in H2.
  injection H2 as <-.
  unfold generate_tree. rewrite for_each_app.
  rewrite (for_values_same_tree wt ft ct boxes r1 _ H1).
  destruct (for_each boxes _ _) as [st|]; [|reflexivity].
  cbn [bind]. apply generate_tree_constants.
Qed.

End TreeBeforeAdjuster.

(** * Further properties of the code *)

(** ** The tree builder in closed form *)

Lemma generate_tree_step_closed st k r :
  (forall a, adjacent_of r = Ok a -> key_eqb a a = true) ->
  exists st',
    generate_tree_step st (k, r) = Ok st' /\
    forall a, str_eq a "start" = false ->
      children (fst st') a = children (fst st) a ++ dependents_of [(k, r)] a.
Proof.
  intros Hk. destruct st as [deps fb].
  assert (Hgen : forall adj name,
    adjacent_of r = Ok adj -> name_of r = Ok name ->
    (adjacent <- adjacent_of r ;; name <- name_of r ;;
     if str_eq adjacent "start" then
       Ok (dict_set (PStr "start") [name] deps, Some k)
     else
       let dependents :=
         if dict_mem adjacent deps then deps
         else dict_set adjacent [] deps in
       names <- getitem dependents adjacent ;;
       Ok (dict_set adjacent (names ++ [name]) dependents, fb))
    = generate_tree_step (deps, fb) (k, r) ->
    exists st',
      generate_tree_step (deps, fb) (k, r) = Ok st' /\
      forall a, str_eq a "start" = false ->
        children (fst st') a
        = children deps a ++ (if key_eqb a adj then [name] else [])).
  { intros adj name Ha Hn <-. rewrite Ha, Hn. cbn [bind].
    specialize (Hk adj Ha).
    destruct (str_eq adj "start") eqn:Es.
    - eexists; split; [reflexivity|]. intros a Hs. cbn [fst].
      apply str_eq_true in Es. subst adj.
      rewrite (str_eq_key a "start" Hs), app_nil_r.
      apply children_set_neq. now apply str_eq_key.
    - cbv zeta. unfold dict_mem, getitem.
      destruct (dict_get adj deps) as [names|] eqn:Eg.
      + rewrite Eg. cbn [bind]. eexists; split; [reflexivity|].
        intros a Hs. cbn [fst]. destruct (key_eqb a adj) eqn:Ea.
        * apply key_eqb_eq in Ea. subst a.
          rewrite children_set_eq by exact Hk.
          unfold children. now rewrite Eg.
        * rewrite children_set_neq by exact Ea. now rewrite app_nil_r.
      + rewrite dict_get_set_eq by exact Hk. cbn [bind].
        eexists; split; [reflexivity|].
        intros a Hs. cbn [fst]. destruct (key_eqb a adj) eqn:Ea.
        * apply key_eqb_eq in Ea. subst a.
          rewrite children_set_eq by exact Hk.
          unfold children. now rewrite Eg.
        * rewrite !children_set_neq by exact Ea. now rewrite app_nil_r. }
  destruct r as [b|h|c|d n|d].
  - destruct (Hgen (Box.adjacent b) (Box.name b) eq_refl eq_refl eq_refl)
      as (st' & Hst & Hc).
    exists st'. split; [exact Hst|]. intros a Hs. rewrite (Hc a Hs).
    cbn. now rewrite app_nil_r.
  - destruct (Hgen (Hole.adjacent h) (Hole.name h) eq_refl eq_refl eq_refl)
      as (st' & Hst & Hc).
    exists st'. split; [exact Hst|]. intros a Hs. rewrite (Hc a Hs).
    cbn. now rewrite app_nil_r.
  - eexists; split; [reflexivity|]. intros. cbn. now rewrite app_nil_r.
  - eexists; split; [reflexivity|]. intros. cbn. now rewrite app_nil_r.
  - eexists; split; [reflexivity|]. intros. cbn. now rewrite app_nil_r.
Qed.

Lemma dependents_of_cons e boxes a :
  dependents_of (e :: boxes) a
  = dependents_of [e] a ++ dependents_of boxes a.
Proof. unfold dependents_of. cbn [flat_map]. now rewrite app_nil_r. Qed.

Lemma generate_tree_closed boxes : forall st,
  adjacent_cells boxes ->
  exists st',
    for_each boxes st generate_tree_step = Ok st' /\
    forall a, str_eq a "start" = false ->
      children (fst st') a = children (fst st) a ++ dependents_of boxes a.
Proof.
  induction boxes as [|[k r] boxes IH]; intros st Hc.
  - exists st. split; [reflexivity|]. intros. cbn. now rewrite app_nil_r.
  - destruct (generate_tree_step_closed st k r) as (st1 & H1 & C1).
    { intros a Ha. apply (Hc k r a); [now left|exact Ha]. }
    destruct (IH st1) as (st' & H2 & C2).
    { intros k' r' a' Hin. apply (Hc k' r' a'). now right. }
    exists st'. split.
    + cbn [for_each]. rewrite H1. exact H2.
    + intros a Hs. rewrite (C2 a Hs), (C1 a Hs), (dependents_of_cons (k, r) boxes a).
      now rewrite app_assoc.
Qed.

(** X1 (generate_tree): on a store whose [adjacent] fields are csv cells the
    builder returns, and the dependents it lists under every name other than
    ['start'] are the names of the Spaces and Holes whose [adjacent] is that
    name, in the order of the rows. *)
Theorem generate_tree_dependents boxes :
  adjacent_cells boxes ->
  exists dependents first_box,
    generate_tree boxes = Ok (dependents, first_box) /\
    forall a, str_eq a "start" = false ->
      children dependents a = dependents_of boxes a.
Proof.
  intros Hc. destruct (generate_tree_closed boxes ([], None) Hc)
    as ([deps fb] & Hg & Hch).
  exists deps, fb. split; [exact Hg|]. intros a Hs.
  exact (Hch a Hs).
Qed.

Lemma house_adjacent_cells : adjacent_cells house.
Proof.
  intros k r a H Ha. in_cases H; injection H as <- <-;
    simpl in Ha; injection Ha as <-; reflexivity.
Qed.

Lemma generate_tree_dependents_witness :
  exists dependents first_box,
    generate_tree house = Ok (dependents, first_box) /\
    forall a, str_eq a "start" = false ->
      children dependents a = dependents_of house a.
Proof.
  apply (generate_tree_dependents house). exact house_adjacent_cells.
Defined.

(** ** The starting record *)

Lemma generate_tree_step_unfold st k r adj name :
  adjacent_of r = Ok adj -> name_of r = Ok name ->
  generate_tree_step st (k, r)
  = if str_eq adj "start" then
      Ok (dict_set (PStr "start") [name] (fst st), Some k)
    else
      let dependents :=
        if dict_mem adj (fst st) then fst st
        else dict_set adj [] (fst st) in
      names <- getitem dependents adj ;;
      Ok (dict_set adj (names ++ [name]) dependents, snd st).
Proof.
  destruct st as [deps fb].
  destruct r; simpl; intros Ha Hn; try discriminate Ha;
    injection Ha as <-; injection Hn as <-; reflexivity.
Qed.

Lemma starts_unfold k r adj name :
  adjacent_of r = Ok adj -> name_of r = Ok name ->
  starts [(k, r)] = if str_eq adj "start" then [(k, name)] else [].
Proof.
  destruct r; simpl; intros Ha Hn; try discriminate Ha;
    injection Ha as <-; injection Hn as <-; now case_if.
Qed.

Lemma generate_tree_step_root st k r st' :
  generate_tree_step st (k, r) = Ok st' ->
  match starts [(k, r)] with
  | [] => snd st' = snd st /\
          dict_get (PStr "start") (fst st')
          = dict_get (PStr "start") (fst st)
  | (k', n) :: _ => snd st' = Some k' /\
                    dict_get (PStr "start") (fst st') = Some [n]
  end.
Proof.
  assert (Hgen : forall adj name,
    adjacent_of r = Ok adj -> name_of r = Ok name ->
    generate_tree_step st (k, r) = Ok st' ->
    match starts [(k, r)] with
    | [] => snd st' = snd st /\
            dict_get (PStr "start") (fst st')
            = dict_get (PStr "start") (fst st)
    | (k', n) :: _ => snd st' = Some k' /\
                      dict_get (PStr "start") (fst st') = Some [n]
    end).
  { intros adj name Ha Hn.
    rewrite (generate_tree_step_unfold st k r adj name Ha Hn).
    rewrite (starts_unfold k r adj name Ha Hn).
    destruct (str_eq adj "start") eqn:Es.
    - intros [= <-]. cbn [fst snd]. split; [reflexivity|].
      now apply dict_get_set_eq.
    - cbv zeta. intros H. inv_bind H. injection H as <-. cbn [fst snd].
      split; [reflexivity|].
      assert (Hne : key_eqb (PStr "start") adj = false).
      { rewrite key_eqb_sym. now apply str_eq_key. }
      rewrite dict_get_set_neq by exact Hne.
      destruct (dict_mem adj (fst st)); [reflexivity|].
      now apply dict_get_set_neq. }
  destruct r as [b|h|c|d n|d].
  - now apply (Hgen (Box.adjacent b) (Box.name b)).
  - now apply (Hgen (Hole.adjacent h) (Hole.name h)).
  - destruct st. intros [= <-]. now split.
  - destruct st. intros [= <-]. now split.
  - destruct st. intros [= <-]. now split.
Qed.

Lemma starts_cons e boxes : starts (e :: boxes) = starts [e] ++ starts boxes.
Proof. unfold starts. cbn [flat_map]. now rewrite app_nil_r. Qed.

Lemma generate_tree_last_start boxes : forall st st',
  for_each boxes st generate_tree_step = Ok st' ->
  match rev (starts boxes) with
  | [] => snd st' = snd st /\
          dict_get (PStr "start") (fst st')
          = dict_get (PStr "start") (fst st)
  | (k, n) :: _ => snd st' = Some k /\
                   dict_get (PStr "start") (fst st') = Some [n]
  end.
Proof.
  induction boxes as [|[k r] boxes IH]; intros st st' H.
  - injection H as <-. now split.
  - cbn [for_each] in H. inv_bind H.
    apply generate_tree_step_root in E. apply IH in H.
    rewrite (starts_cons (k, r) boxes), rev_app_distr.
    destruct (rev (starts boxes)) as [|[k1 n1] rest]; [|exact H].
    cbn [app]. destruct H as [Hs Hd].
    assert (Hone : starts [(k, r)] = [] \/
                   exists k' n', starts [(k, r)] = [(k', n')]).
    { destruct r as [b|h|c|d n|d];
        [rewrite (starts_unfold k (RBox b) _ _ eq_refl eq_refl)
        |rewrite (starts_unfold k (RHole h) _ _ eq_refl eq_refl)
        |now left..];
        (case_if; [right; eauto|now left]). }
    destruct Hone as [Hone|(k' & n' & Hone)]; rewrite Hone in E |- *; cbn.
    + destruct E. split; congruence.
    + destruct E. split; congruence.
Qed.

(** X2 (generate_tree): the starting record is the last Space or Hole of the
    store whose [adjacent] is ['start'], and ['start'] lists that record
    alone, whatever came before it; with no such record there is no starting
    record and no ['start'] entry. *)
Theorem generate_tree_root boxes dependents first_box :
  generate_tree boxes = Ok (dependents, first_box) ->
  match rev (starts boxes) with
  | [] => first_box = None /\ dict_get (PStr "start") dependents = None
  | (k, n) :: _ =>
      first_box = Some k /\ dict_get (PStr "start") dependents = Some [n]
  end.
Proof.
  intros H. exact (generate_tree_last_start boxes ([], None) _ H).
Qed.

Lemma generate_tree_root_witness :
  Some (PStr "Hall") = Some (PStr "Hall") /\
  dict_get (PStr "start") house_tree = Some [PStr "Hall"].
Proof.
  apply (generate_tree_root house house_tree (Some (PStr "Hall"))).
  reflexivity.
Defined.

(** ** What the resolver leaves alone *)

Lemma entries_evolve_refl s : entries_evolve s s.
Proof.
  induction s as [|e s IH]; constructor; [|exact IH].
  split; [reflexivity|apply record_evolves_refl].
Qed.

Lemma entries_evolve_trans a b c :
  entries_evolve a b -> entries_evolve b c -> entries_evolve a c.
Proof.
  intros Hab. revert c. induction Hab as [|x y a b [Hk Hr] _ IH]; intros c Hbc.
  - inversion Hbc. constructor.
  - inversion Hbc as [|y' z b' c' [Hk' Hr'] Hbc']; subst.
    constructor; [|now apply IH].
    split; [congruence|eapply record_evolves_trans; eassumption].
Qed.

Lemma entries_evolve_set s k r r' :
  dict_get k s = Some r -> record_evolves r r' ->
  entries_evolve s (dict_set k r' s).
Proof.
  intros Hk Hr. induction s as [|[k0 r0] s IH]; [discriminate|].
  simpl in Hk |- *. destruct (key_eqb k k0).
  - injection Hk as ->. constructor; [now split|apply entries_evolve_refl].
  - constructor; [|now apply IH].
    split; [reflexivity|apply record_evolves_refl].
Qed.

Lemma position_dependent_entries boxes box c boxes' :
  position_dependent boxes box c = Ok boxes' -> entries_evolve boxes boxes'.
Proof.
  unfold position_dependent, getitem. intros H.
  destruct (dict_get c boxes) as [dependent|] eqn:Ec; [|discriminate].
  cbn [bind] in H. destruct dependent as [d|h|? |? ?|?];
    try (injection H as <-; apply entries_evolve_refl).
  - destruct (dict_get box boxes) as [anchor|] eqn:Ea; [|discriminate].
    cbn [bind] in H. inv_bind H. injection H as <-.
    eapply entries_evolve_set; [eassumption|].
    apply place_moved in E. simpl. unfold box_evolves. rewrite E.
    now destruct d.
  - destruct (dict_get box boxes) as [anchor|] eqn:Ea; [|discriminate].
    cbn [bind] in H. inv_bind H. injection H as <-.
    eapply entries_evolve_set; [eassumption|].
    destruct anchor; try discriminate. injection E as <-.
    simpl. unfold box_evolves. now destruct b.
Qed.

(** X3 (position_dependents): when the resolver returns, the store has the
    same keys in the same order, and no record differs from what it was
    except a Space in its position and its holes: no record is added, dropped
    or moved, and no Hole, constant, dimension, name or adjacency is
    changed. *)
Theorem position_dependents_frame limit :
  forall boxes dependents box level boxes',
    position_dependents limit boxes dependents box level = Ok boxes' ->
    entries_evolve boxes boxes'.
Proof.
  induction limit as [|limit IH]; intros boxes deps box level boxes' H;
    [discriminate|].
  cbn [position_dependents] in H.
  destruct (getitem boxes box) as [b|]; [|discriminate]. cbn [bind] in H.
  destruct (name_of b) as [name|]; [|discriminate]. cbn [bind] in H.
  destruct (dict_get name deps) as [names|];
    [|injection H as <-; apply entries_evolve_refl].
  revert H. apply (for_each_invariant entries_evolve).
  - exact entries_evolve_refl.
  - exact entries_evolve_trans.
  - intros s c s' Hs. inv_bind Hs.
    eapply entries_evolve_trans.
    + eapply position_dependent_entries; eassumption.
    + eapply IH; eassumption.
Qed.

Lemma position_dependents_frame_witness :
  entries_evolve house house_resolved.
Proof.
  apply (position_dependents_frame 10 house house_tree (PStr "Hall") 1).
  vm_compute. reflexivity.
Defined.

(** ** Cycles and records out of reach *)

(** X4 (position_dependents): when a record the walk reaches is below
    itself, the resolver does not return but ends with an exception,
    whatever depth of recursion the interpreter allows. *)
Theorem cycle_never_returns limit boxes dependents root level a :
  named boxes ->
  reaches dependents root a -> below dependents a a ->
  exists e, position_dependents limit boxes dependents root level = Raise e.
Proof.
  intros Hn Hr Hb.
  destruct (position_dependents limit boxes dependents root level)
    as [boxes'|e] eqn:H; [exfalso|now exists e].
  destruct (position_dependents_walk limit _ _ _ _ _ Hn H)
    as (steps & Hw & _).
  destruct Hr as [<-|Hr].
  - exact (walk_acyclic dependents limit root steps Hw Hb).
  - destruct limit as [|limit]; [discriminate|].
    pose proof (walk_below dependents _ _ _ a Hw Hr) as Hin.
    apply in_map_iff in Hin as ([p c] & Hc & Hin). simpl in Hc. subst c.
    destruct (walk_sub dependents limit root steps p a Hw Hin) as (s & Hs).
    exact (walk_acyclic dependents limit a s Hs Hb).
Qed.

Lemma knot_tree_built :
  generate_tree knot = Ok (knot_tree, Some (PStr "Hall")).
Proof. reflexivity. Qed.

Lemma knot_named : named knot.
Proof.
  intros k r n H Hn. apply dict_get_In in H. in_cases H;
    injection H as <- <-; simpl in Hn; now injection Hn as <-.
Qed.

Lemma cycle_never_returns_witness :
  exists e, position_dependents 1000 knot knot_tree (PStr "Hall") 1 = Raise e.
Proof.
  apply (cycle_never_returns 1000 knot knot_tree (PStr "Hall") 1
           (PStr "Hall")).
  - exact knot_named.
  - left. reflexivity.
  - apply (@below_step knot_tree (PStr "Hall") (PStr "start") (PStr "Hall")).
    + apply below_child. simpl. left. reflexivity.
    + simpl. left. reflexivity.
Defined.

Lemma position_dependent_other boxes a c boxes' k :
  position_dependent boxes a c = Ok boxes' ->
  k <> a -> k <> c ->
  dict_get k boxes' = dict_get k boxes.
Proof.
  unfold position_dependent, getitem. intros H Ha Hc.
  assert (Hka : key_eqb k a = false).
  { destruct (key_eqb k a) eqn:E; [|reflexivity].
    now apply key_eqb_eq in E. }
  assert (Hkc : key_eqb k c = false).
  { destruct (key_eqb k c) eqn:E; [|reflexivity].
    now apply key_eqb_eq in E. }
  destruct (dict_get c boxes) as [dependent|]; [|discriminate].
  cbn [bind] in H. destruct dependent as [d|h|? |? ?|?];
    try (now injection H as <-).
  - destruct (dict_get a boxes) as [anchor|]; [|discriminate].
    cbn [bind] in H. inv_bind H. injection H as <-.
    now apply dict_get_set_neq.
  - destruct (dict_get a boxes) as [anchor|]; [|discriminate].
    cbn [bind] in H. inv_bind H. injection H as <-.
    now apply dict_get_set_neq.
Qed.

Lemma run_steps_other k steps : forall boxes boxes',
  run_steps steps boxes = Ok boxes' ->
  (forall a c, In (a, c) steps -> k <> a /\ k <> c) ->
  dict_get k boxes' = dict_get k boxes.
Proof.
  induction steps as [|[a c] steps IH]; intros boxes boxes' H Hk.
  - now injection H as <-.
  - unfold run_steps in H. cbn [for_each] in H.
    destruct (position_dependent boxes a c) as [boxes1|] eqn:E;
      [|discriminate].
    cbn [bind] in H.
    destruct (Hk a c (or_introl eq_refl)) as [Ha Hc].
    rewrite (IH boxes1 boxes' H) by (intros; apply Hk; now right).
    eapply position_dependent_other; eassumption.
Qed.

(** X5 (position_dependents): a record that is neither the starting record
    nor below it is returned as it was, position included, however its own
    [adjacent], direction and alignment read. *)
Theorem out_of_reach_untouched limit boxes dependents root level boxes' k :
  named boxes ->
  position_dependents limit boxes dependents root level = Ok boxes' ->
  k <> root -> ~ below dependents root k ->
  dict_get k boxes' = dict_get k boxes.
Proof.
  intros Hn H Hroot Hk.
  destruct (position_dependents_walk limit _ _ _ _ _ Hn H)
    as (steps & Hw & Hrun).
  apply (run_steps_other k steps boxes boxes' Hrun).
  intros a c Hin.
  destruct (walk_in dependents limit root steps a c Hw Hin) as [Hc Hr].
  split.
  - intros <-. destruct Hr as [Hr|Hr]; [now apply Hroot|now apply Hk].
  - intros <-. apply Hk.
    apply (reaches_below dependents root a k Hr). now apply below_child.
Qed.

Lemma estate_tree_built :
  generate_tree estate = Ok (estate_tree, Some (PStr "Hall")).
Proof. reflexivity. Qed.

Lemma estate_named : named estate.
Proof.
  intros k r n H Hn. apply dict_get_In in H. in_cases H;
    injection H as <- <-; simpl in Hn; now injection Hn as <-.
Qed.

Lemma cellar_out_of_reach : ~ below estate_tree (PStr "Hall") (PStr "Cellar").
Proof.
  intros H.
  assert (Hw : walk 10 estate_tree (PStr "Hall") = Some house_steps)
    by reflexivity.
  apply (walk_below estate_tree 10 _ _ _ Hw) in H.
  in_cases H; discriminate H.
Qed.

Lemma out_of_reach_untouched_witness :
  dict_get (PStr "Cellar") estate_resolved = Some (RBox cellar).
Proof.
  apply (out_of_reach_untouched 10 estate estate_tree (PStr "Hall") 1
           estate_resolved (PStr "Cellar")).
  - exact estate_named.
  - vm_compute. reflexivity.
  - discriminate.
  - exact cellar_out_of_reach.
Defined.

(** ** The holes of a Space, in the order of the tree *)

Lemma anchored_app a s1 s2 :
  anchored a (s1 ++ s2) = anchored a s1 ++ anchored a s2.
Proof. unfold anchored. now rewrite filter_app, map_app. Qed.

Lemma attached_anchored boxes a steps :
  attached boxes a steps
  = flat_map (fun c => match dict_get c boxes with
                       | Some (RHole h) => [h]
                       | _ => []
                       end) (anchored a steps).
Proof.
  unfold attached, anchored.
  induction steps as [|[b c] steps IH]; [reflexivity|].
  cbn [flat_map filter fst]. rewrite IH.
  destruct (key_eqb b a); reflexivity.
Qed.

Lemma anchored_cons a b c steps :
  anchored a ((b, c) :: steps)
  = (if key_eqb b a then [c] else []) ++ anchored a steps.
Proof. unfold anchored. cbn [filter fst]. now destruct (key_eqb b a). Qed.

Lemma anchored_none a steps :
  (forall x y, In (x, y) steps -> key_eqb x a = false) ->
  anchored a steps = [].
Proof.
  unfold anchored. induction steps as [|[x y] steps IH]; intros H;
    [reflexivity|].
  cbn [filter fst]. rewrite (H x y (or_introl eq_refl)).
  apply IH. intros. apply (H x0 y0). now right.
Qed.

Section Anchors.
Variable dependents : dict (list pyval).
Hypothesis Htree : tree_like dependents.

Lemma below_first b a :
  below dependents b a ->
  exists c, In c (children dependents b) /\ reaches dependents c a.
Proof.
  induction 1 as [c Hc|p c Hp (c0 & Hc0 & Hr) Hc].
  - exists c. split; [exact Hc|now left].
  - exists c0. split; [exact Hc0|]. right.
    apply (reaches_below dependents c0 p c Hr). now apply below_child.
Qed.

Lemma walk_not_anchored limit b steps a :
  walk limit dependents b = Some steps ->
  ~ reaches dependents b a -> anchored a steps = [].
Proof.
  intros Hw Hr. apply anchored_none.
  intros x y Hin. destruct (key_eqb x a) eqn:E; [|reflexivity].
  apply key_eqb_eq in E. subst x. exfalso. apply Hr.
  now destruct (walk_in dependents limit b steps a y Hw Hin).
Qed.

Lemma collect_not_anchored limit b a : forall names steps,
  collect (block dependents limit b) names = Some steps ->
  (forall c, In c names -> ~ reaches dependents c a) ->
  anchored a steps = if key_eqb b a then names else [].
Proof.
  induction names as [|c names IH]; intros steps H Hn.
  - injection H as <-. now destruct (key_eqb b a).
  - apply collect_split in H as (s & r & Hs & Hr & ->).
    unfold block in Hs.
    destruct (walk limit dependents c) as [sc|] eqn:Ec; [|discriminate].
    injection Hs as <-. rewrite anchored_app.
    rewrite (IH r Hr) by (intros; apply Hn; now right).
    rewrite anchored_cons.
    rewrite (walk_not_anchored limit c sc a Ec)
      by (apply Hn; now left).
    now destruct (key_eqb b a).
Qed.

Lemma walk_anchored limit : forall b steps a,
  walk limit dependents b = Some steps ->
  key_eqb a a = true -> reaches dependents b a ->
  anchored a steps = children dependents a.
Proof.
  induction limit as [|limit IH]; intros b steps a Hw Ha Hr; [discriminate|].
  pose proof (walk_acyclic dependents _ _ _ Hw) as Hacyc.
  rewrite walk_S in Hw.
  destruct Hr as [<-|Hr].
  - rewrite (collect_not_anchored limit b b _ steps Hw), Ha; [reflexivity|].
    intros c Hc Hcb. apply Hacyc.
    apply (below_child_trans dependents b c b Hc).
    destruct Hcb as [->|Hcb]; [|exact Hcb].
    exfalso. apply Hacyc. now apply below_child.
  - assert (Hba : key_eqb b a = false).
    { destruct (key_eqb b a) eqn:E; [|reflexivity].
      apply key_eqb_eq in E. subst a. now destruct Hacyc. }
    destruct (below_first b a Hr) as (c0 & Hc0 & Hr0).
    pose proof (children_nodup dependents Htree b) as Hnd.
    assert (Hsub : forall c, In c (children dependents b) ->
                             In c (children dependents b)) by auto.
    revert Hsub Hnd Hc0 steps Hw.
    generalize (children dependents b) at 1 3 4 5 as names.
    induction names as [|c names IHn]; intros Hsub Hnd Hc0 steps Hw;
      [destruct Hc0|].
    apply collect_split in Hw as (s & r & Hs & Hrest & ->).
    unfold block in Hs.
    destruct (walk limit dependents c) as [sc|] eqn:Ec; [|discriminate].
    injection Hs as <-. rewrite anchored_app.
    rewrite anchored_cons, Hba. cbn [app].
    inversion Hnd as [|? ? Hnotin Hnd']; subst.
    destruct Hc0 as [->|Hc0].
    + rewrite (IH c0 sc a Ec Ha Hr0).
      rewrite (collect_not_anchored limit b a names r Hrest), Hba.
      * apply app_nil_r.
      * intros c' Hc' Hr'.
        apply (siblings_apart dependents Htree b c0 c' a Hacyc);
          [apply Hsub; now left|apply Hsub; now right| |exact Hr0|exact Hr'].
        intros ->. now apply Hnotin.
    + rewrite (walk_not_anchored limit c sc a Ec).
      * cbn [app]. apply IHn; [intros; apply Hsub; now right|exact Hnd'
                              |exact Hc0|exact Hrest].
      * intros Hrc.
        apply (siblings_apart dependents Htree b c c0 a Hacyc);
          [apply Hsub; now left|apply Hsub; now right| |exact Hrc|exact Hr0].
        intros ->. now apply Hnotin.
Qed.

End Anchors.

(** X6 (position_dependents): when each name is a dependent once, a Space
    the walk reaches ends with the Holes among its dependents appended to
    its holes, in the order the tree lists them (the order of the rows). *)
Theorem holes_in_tree_order limit boxes dependents root level boxes' a b :
  named boxes -> tree_like dependents ->
  position_dependents limit boxes dependents root level = Ok boxes' ->
  reaches dependents root a ->
  dict_get a boxes = Some (RBox b) ->
  exists b',
    dict_get a boxes' = Some (RBox b') /\
    Box.holes b' = Box.holes b ++ hole_dependents boxes dependents a.
Proof.
  intros Hn Ht H Hr Ha.
  destruct (position_dependents_walk limit _ _ _ _ _ Hn H)
    as (steps & Hw & Hrun).
  destruct (run_steps_holes steps boxes boxes' a b Hrun Ha) as (b' & Hb' & Hh).
  exists b'. split; [exact Hb'|].
  rewrite Hh, attached_anchored.
  rewrite (walk_anchored dependents Ht limit root steps a Hw
             (dict_get_refl a boxes _ Ha) Hr).
  reflexivity.
Qed.

Lemma house_named : named house.
Proof.
  intros k r n H Hn. apply dict_get_In in H. in_cases H;
    injection H as <- <-; simpl in Hn; now injection Hn as <-.
Qed.

Lemma house_tree_like : tree_like house_tree.
Proof.
  unfold tree_like, house_tree. simpl.
  repeat constructor; simpl; intuition discriminate.
Qed.

Lemma holes_in_tree_order_witness :
  exists b',
    dict_get (PStr "Study") house_resolved = Some (RBox b') /\
    Box.holes b'
    = Box.holes study ++ hole_dependents house house_tree (PStr "Study").
Proof.
  apply (holes_in_tree_order 10 house house_tree (PStr "Hall") 1
           house_resolved (PStr "Study") study).
  - exact house_named.
  - exact house_tree_like.
  - vm_compute. reflexivity.
  - right. apply below_child. simpl. right. left. reflexivity.
  - reflexivity.
Defined.

(** ** Dependents that no rule places, and rows without an alignment *)

(** X7 (position_dependents): a Space whose direction is none of the six
    directions and whose alignment text contains none of the six faces keeps
    the position it has, whatever its anchor is. *)
Theorem place_no_rule box d al :
  Box.alignment d = PStr al ->
  (forall t, In t (after_tokens ++ before_tokens) ->
             str_eq (Box.direction d) t = false) ->
  (forall t, In t (low_tokens ++ high_tokens) ->
             substring_of t al = false) ->
  place box d = Ok d.
Proof.
  intros Hal Hdir Hface.
  assert (D1 := Hdir "right" ltac:(simpl; tauto)).
  assert (D2 := Hdir "behind" ltac:(simpl; tauto)).
  assert (D3 := Hdir "above" ltac:(simpl; tauto)).
  assert (D4 := Hdir "left" ltac:(simpl; tauto)).
  assert (D5 := Hdir "front" ltac:(simpl; tauto)).
  assert (D6 := Hdir "below" ltac:(simpl; tauto)).
  assert (F1 := Hface "left" ltac:(simpl; tauto)).
  assert (F2 := Hface "front" ltac:(simpl; tauto)).
  assert (F3 := Hface "bottom" ltac:(simpl; tauto)).
  assert (F4 := Hface "right" ltac:(simpl; tauto)).
  assert (F5 := Hface "back" ltac:(simpl; tauto)).
  assert (F6 := Hface "top" ltac:(simpl; tauto)).
  unfold place, abut, align, abut_after, abut_before, align_low, align_high,
    enumerate.
  cbn [enumerate_from for_each].
  rewrite D1. cbn [bind]. rewrite D2. cbn [bind]. rewrite D3. cbn [bind].
  rewrite D4. cbn [bind]. rewrite D5. cbn [bind]. rewrite D6. cbn [bind].
  rewrite Hal. cbn [str_in bind]. rewrite F1. cbn [bind].
  rewrite Hal. cbn [str_in bind]. rewrite F2. cbn [bind].
  rewrite Hal. cbn [str_in bind]. rewrite F3. cbn [bind].
  rewrite Hal. cbn [str_in bind]. rewrite F4. cbn [bind].
  rewrite Hal. cbn [str_in bind]. rewrite F5. cbn [bind].
  rewrite Hal. cbn [str_in bind]. rewrite F6. reflexivity.
Qed.

Lemma place_no_rule_witness : place (RBox study) hall = Ok hall.
Proof.
  apply (place_no_rule (RBox study) hall "").
  - reflexivity.
  - intros t H. in_cases H; subst t; reflexivity.
  - intros t H. in_cases H; subst t; reflexivity.
Defined.

Section RowsWithoutAlignment.
Context {rt : PyRuntime}.

(** X8 (Box.__init__, position_dependents): a Space built from a row whose
    alignment cell is missing has the alignment [None], and placing it
    against a Space raises [TypeError]. *)
Theorem missing_alignment_raises data opacity d a :
  Box__init__ data opacity = Ok d ->
  get data "alignment" = PNone ->
  sized a ->
  Box.alignment d = PNone /\ place (RBox a) d = Raise TypeError.
Proof.
  intros Hd Hal Ha.
  destruct (Box__init___sized data opacity d Hd) as (Hs & _ & Hget).
  rewrite Hal in Hget. split; [exact Hget|].
  unfold place. rewrite (abut_spec a d Ha Hs). cbn [bind].
  unfold align, align_low, enumerate. cbn [enumerate_from for_each].
  change (Box.alignment (Box.set_position d (abut_position a d)))
    with (Box.alignment d).
  rewrite Hget. reflexivity.
Qed.

End RowsWithoutAlignment.

Lemma missing_alignment_raises_witness :
  Box.alignment attic = PNone /\
  place (RBox hall_placed) attic = Raise TypeError.
Proof.
  apply (@missing_alignment_raises sample_runtime attic_row (PFloat 1)).
  - vm_compute. reflexivity.
  - reflexivity.
  - split; reflexivity.
Defined.

(** ** What the constructors accept and what they build *)

Section Rows.
Context {rt : PyRuntime}.

Lemma py_float_filled v f :
  py_float v = Ok f -> v <> PNone /\ v <> PStr "".
Proof.
  intros H. split; intros ->; simpl in H; [discriminate|].
  now rewrite float_of_str_empty in H.
Qed.

(** X9 (Box.__init__): a Space is built only from a row whose width, depth
    and height cells are filled; its dimensions are the floats of these
    three cells in that order, it stands at the origin and has no holes. *)
Theorem Box__init___sizes data opacity b :
  Box__init__ data opacity = Ok b ->
  (exists w d h,
     py_float (get data "width") = Ok w /\
     py_float (get data "depth") = Ok d /\
     py_float (get data "height") = Ok h /\
     Box.dimensions b = [w; d; h]) /\
  Box.position b = [0; 0; 0]%float /\
  Box.holes b = [] /\
  (forall cell, In cell ["width"; "depth"; "height"] ->
                get data cell <> PNone /\ get data cell <> PStr "").
Proof.
  unfold Box__init__. intros H.
  destruct (py_float (get data "width")) as [w|] eqn:Ew; [|discriminate].
  destruct (py_float (get data "depth")) as [d|] eqn:Ed; [|discriminate].
  destruct (py_float (get data "height")) as [h|] eqn:Eh; [|discriminate].
  cbn [bind] in H. inv_bind H. injection H as <-. cbn.
  split; [now exists w, d, h|]. split; [reflexivity|]. split; [reflexivity|].
  intros cell Hc. in_cases Hc; subst cell; eapply py_float_filled; eassumption.
Qed.


Lemma cell_as_float_number data name v :
  cell_as_float data name = Ok v -> exists f, as_float v = Ok f.
Proof.
  unfold cell_as_float. intros H.
  assert (Hz : exists f, as_float (PInt 0) = Ok f)
    by (eexists; vm_compute; reflexivity).
  assert (Hf : forall x, (f <- py_float x ;; Ok (PFloat f)) = Ok v ->
                         exists f, as_float v = Ok f).
  { intros x Hx. inv_bind Hx. injection Hx as <-. now eexists. }
  destruct (get data name) as [|s|z|f|l]; try (now apply (Hf _ H)).
  - now injection H as <-.
  - destruct s as [|c s]; [now injection H as <-|now apply (Hf _ H)].
Qed.

Lemma Hole__init___renderable data h :
  Hole__init__ data = Ok h -> renderable h.
Proof.
  unfold Hole__init__. intros H.
  destruct (getitem data (PStr "name")) as [name|]; [|discriminate].
  destruct (py_float (get data "width")) as [w|]; [|discriminate].
  destruct (py_float (get data "depth")) as [d|]; [|discriminate].
  cbn [bind] in H.
  destruct (cell_as_float data "height") as [height|] eqn:Eh; [|discriminate].
  destruct (cell_as_float data "offset") as [offset|] eqn:Eo; [|discriminate].
  cbn [bind] in H. injection H as <-.
  split; [exact (cell_as_float_number _ _ _ Eo)
         |exact (cell_as_float_number _ _ _ Eh)].
Qed.

Lemma renderable_renders h parent :
  renderable h -> length (Box.dimensions parent) = 3 ->
  exists s, scad_string h parent = Ok s.
Proof.
  intros [(fo & Eo) (fh & Eh)] Hp.
  apply length3 in Hp as (p0 & p1 & p2 & Hp).
  unfold scad_string, py_format_g. rewrite Hp, Eh, Eo.
  destruct (str_eq (Hole.direction h) "right");
    destruct (str_eq (Hole.direction h) "back");
    destruct (str_eq (Hole.direction h) "left");
    cbn; eexists; reflexivity.
Qed.

(** X11 (Hole.__init__, Hole.scad_string): the offset and the height of a
    Hole built from a row are numbers, and the Hole is written without an
    exception in every Space that has three dimensions, before the adjuster
    and after it has replaced the thickness by any value. *)
Theorem hole_always_renders data h parent :
  Hole__init__ data = Ok h ->
  length (Box.dimensions parent) = 3 ->
  renderable h /\
  (exists s, scad_string h parent = Ok s) /\
  (forall t, exists s, scad_string (with_thickness h t) parent = Ok s).
Proof.
  intros H Hp. pose proof (Hole__init___renderable data h H) as Hr.
  split; [exact Hr|]. split; [now apply renderable_renders|].
  intros t. apply renderable_renders; [exact Hr|exact Hp].
Qed.

End Rows.

Lemma Box__init___sizes_witness :
  (exists w d h,
     py_float (get attic_row "width") = Ok w /\
     py_float (get attic_row "depth") = Ok d /\
     py_float (get attic_row "height") = Ok h /\
     Box.dimensions attic = [w; d; h]) /\
  Box.position attic = [0; 0; 0]%float /\
  Box.holes attic = [] /\
  (forall cell, In cell ["width"; "depth"; "height"] ->
                get attic_row cell <> PNone /\ get attic_row cell <> PStr "").
Proof.
  apply (@Box__init___sizes sample_runtime attic_row (PFloat 1) attic).
  vm_compute. reflexivity.
Defined.


Lemma hole_always_renders_witness :
  renderable door /\
  (exists s, scad_string door hall = Ok s) /\
  (forall t, exists s, scad_string (with_thickness door t) hall = Ok s).
Proof.
  apply (@hole_always_renders sample_runtime door_row door hall).
  - vm_compute. reflexivity.
  - reflexivity.
Defined.

(** ** The default constants and the tree after the adjuster *)

Lemma missing_default_found boxes n v :
  In (n, v) DEFAULT_CONSTANTS -> dict_get n boxes = None ->
  dict_get n (missing_defaults boxes)
  = Some (RConstant (Constant.mk n v [(PStr "name", n); (PStr "width", v)])).
Proof.
  intros Hin E. unfold missing_defaults, DEFAULT_CONSTANTS, dict_mem in *.
  simpl in Hin.
  destruct Hin as [H|[H|[H|[]]]]; injection H as <- <-;
    cbn [flat_map]; rewrite ?E;
    repeat match goal with
    | |- context [match dict_get ?k boxes with _ => _ end] =>
        destruct (dict_get k boxes)
    end; reflexivity.
Qed.

Lemma defaults_present boxes n v :
  In (n, v) DEFAULT_CONSTANTS ->
  dict_mem n (boxes ++ missing_defaults boxes) = true.
Proof.
  intros Hin. unfold dict_mem. rewrite dict_get_app.
  destruct (dict_get n boxes) eqn:E; [reflexivity|].
  now rewrite (missing_default_found boxes n v Hin E).
Qed.

(** X12 (add_default_constants): the call returns a store in which every
    record of the input is found as it was, each of the three default names
    that the input lacks is a Constant with the default value, and on which
    a second call changes nothing. *)
Theorem defaults_fill_gaps boxes :
  exists boxes',
    add_default_constants boxes = Ok boxes' /\
    (forall k r, dict_get k boxes = Some r -> dict_get k boxes' = Some r) /\
    (forall n v, In (n, v) DEFAULT_CONSTANTS -> dict_get n boxes = None ->
       exists c, dict_get n boxes' = Some (RConstant c) /\
                 Constant.value c = v) /\
    add_default_constants boxes' = Ok boxes'.
Proof.
  exists (boxes ++ missing_defaults boxes).
  split; [apply add_default_constants_spec|]. split; [|split].
  - intros k r H. now rewrite dict_get_app, H.
  - intros n v Hin E. rewrite dict_get_app, E.
    rewrite (missing_default_found boxes n v Hin E). now eexists.
  - rewrite add_default_constants_spec.
    set (boxes' := boxes ++ missing_defaults boxes).
    assert (Hnone : missing_defaults boxes' = []).
    { unfold missing_defaults at 1, DEFAULT_CONSTANTS. cbn [flat_map].
      unfold boxes'.
      rewrite (defaults_present boxes (PStr "wall_thickness") (PInt 10))
        by (simpl; tauto).
      rewrite (defaults_present boxes (PStr "floor_thickness") (PInt 10))
        by (simpl; tauto).
      rewrite (defaults_present boxes (PStr "ceiling_thickness") (PInt (-1)))
        by (simpl; tauto).
      reflexivity. }
    now rewrite Hnone, app_nil_r.
Qed.

Section AdjusterKeepsTree.
Context {rt : PyRuntime}.

(** X13 (adjust_dimensions, generate_tree): when the adjuster returns, the
    tree of the adjusted store is the tree of the store before, starting
    record included: the tree that is built before the adjuster runs is
    still the tree of the store the resolver works on. *)
Theorem adjuster_keeps_tree boxes boxes' preamble :
  adjust_dimensions boxes = Ok (boxes', preamble) ->
  generate_tree boxes' = generate_tree boxes.
Proof. apply generate_tree_adjusted. Qed.

End AdjusterKeepsTree.

Lemma adjuster_keeps_tree_witness :
  generate_tree (fst hall_adjusted) = generate_tree hall_store.
Proof.
  apply (@adjuster_keeps_tree sample_runtime hall_store
           (fst hall_adjusted) (snd hall_adjusted)).
  vm_compute. reflexivity.
Defined.

(** ** The store the reader builds *)

Lemma dict_set_In {V} k (v : V) d k' v' :
  In (k', v') (dict_set k v d) -> (k' = k /\ v' = v) \/ In (k', v') d.
Proof.
  induction d as [|[k0 v0] d IH]; simpl.
  - intros [[= <- <-]|[]]. now left.
  - destruct (key_eqb k k0) eqn:E.
    + apply key_eqb_eq in E. subst k0.
      intros [[= <- <-]|H]; [now left|right; now right].
    + intros [H|H]; [right; now left|].
      destruct (IH H) as [H'|H']; [now left|right; now right].
Qed.

Lemma dict_set_keys {V} k (v : V) d :
  key_eqb k k = true ->
  map fst (dict_set k v d) = map fst d \/
  (map fst (dict_set k v d) = map fst d ++ [k] /\ ~ In k (map fst d)).
Proof.
  intros Hk. induction d as [|[k0 v0] d IH]; simpl.
  - right. split; [reflexivity|tauto].
  - destruct (key_eqb k k0) eqn:E; [now left|].
    destruct IH as [IH|[IH Hn]]; simpl; rewrite IH; [now left|].
    right. split; [reflexivity|]. intros [->|H]; [congruence|now apply Hn].
Qed.

Lemma nodup_snoc {A} (l : list A) x :
  NoDup l -> ~ In x l -> NoDup (l ++ [x]).
Proof.
  induction 1 as [|y l Hy Hl IH]; intros Hx; simpl.
  - constructor; [tauto|constructor].
  - constructor.
    + rewrite in_app_iff. simpl. intros [H|[->|[]]]; [now apply Hy|].
      apply Hx. now left.
    + apply IH. intros H. apply Hx. now right.
Qed.

Lemma nodup_keys_get {V} k (v : V) d :
  NoDup (map fst d) -> key_eqb k k = true -> In (k, v) d ->
  dict_get k d = Some v.
Proof.
  intros Hnd Hk. induction d as [|[k0 v0] d IH]; simpl; [tauto|].
  inversion Hnd as [|? ? Hnotin Hnd']; subst.
  intros [[= -> ->]|H]; [now rewrite Hk|].
  destruct (key_eqb k k0) eqn:E; [|now apply IH].
  apply key_eqb_eq in E. subst k0. exfalso. apply Hnotin.
  apply in_map_iff. now exists (k, v).
Qed.

Lemma record_names_keys boxes :
  (forall k r, In (k, r) boxes -> forall n, name_of r = Ok n -> n = k) ->
  forall n, In n (record_names boxes) -> In n (map fst boxes).
Proof.
  unfold record_names. intros Hn n H.
  apply in_flat_map in H as ([k r] & Hin & H).
  apply in_map_iff. exists (k, r). split; [|exact Hin]. simpl.
  destruct r as [b|h|c|d m|d]; in_cases H; subst n; symmetry;
    now apply (Hn k _ Hin).
Qed.

Lemma record_names_nodup boxes :
  NoDup (map fst boxes) ->
  (forall k r, In (k, r) boxes -> forall n, name_of r = Ok n -> n = k) ->
  NoDup (record_names boxes).
Proof.
  induction boxes as [|[k r] boxes IH]; intros Hnd Hn; [constructor|].
  inversion Hnd as [|? ? Hnotin Hnd']; subst.
  assert (Hrest : NoDup (record_names boxes)).
  { apply IH; [exact Hnd'|]. intros k' r' H. apply Hn. now right. }
  assert (Hk : ~ In k (record_names boxes)).
  { intros H. apply Hnotin. apply record_names_keys; [|exact H].
    intros k' r' H'. apply Hn. now right. }
  change (record_names ((k, r) :: boxes))
    with (match r with
          | RBox b => [Box.name b]
          | RHole h => [Hole.name h]
          | _ => []
          end ++ record_names boxes).
  pose proof (Hn k r (or_introl eq_refl)) as Hname.
  destruct r as [b|h|c|d m|d]; simpl; try exact Hrest;
    rewrite (Hname _ eq_refl); now constructor.
Qed.

Lemma fresh_store_set boxes k r :
  fresh_store boxes -> key_eqb k k = true ->
  (forall n, name_of r = Ok n -> n = k) ->
  (forall b, r = RBox b -> sized b /\ Box.holes b = []) ->
  fresh_store (dict_set k r boxes).
Proof.
  intros [Hnd Hent] Hk Hn Hb. split.
  - destruct (dict_set_keys k r boxes Hk) as [->|[-> Hnotin]];
      [exact Hnd|now apply nodup_snoc].
  - intros k' r' H. apply dict_set_In in H as [[-> ->]|H];
      [split; [exact Hk|split; [exact Hn|exact Hb]]|now apply Hent].
Qed.

Section Reader.
Context {rt : PyRuntime}.

Lemma call_maker_entry m data opacity table r table' n :
  getitem data (PStr "name") = Ok n ->
  call_maker m data opacity table = Ok (r, table') ->
  (forall n', name_of r = Ok n' -> n' = n) /\
  (forall b, r = RBox b -> sized b /\ Box.holes b = []).
Proof.
  intros Hn H.
  assert (Hget : get data "name" = n).
  { unfold getitem in Hn. unfold get.
    destruct (dict_get (PStr "name") data); [now injection Hn|discriminate]. }
  destruct m; simpl in H.
  - destruct (Box__init__ data opacity) as [b|] eqn:E; [|discriminate].
    injection H as <- _.
    destruct (Box__init___sized data opacity b E) as (Hs & Hh & _).
    split.
    + intros n' [= <-]. unfold Box__init__ in E. repeat inv_bind E.
      now injection E as <-.
    + now intros b' [= <-].
  - destruct (Hole__init__ data) as [h|] eqn:E; [|discriminate].
    injection H as <- _. split; [|discriminate].
    intros n' [= <-]. unfold Hole__init__ in E. rewrite Hn in E.
    cbn [bind] in E. repeat inv_bind E. now injection E as <-.
  - destruct (Constant__init__ data) as [c|] eqn:E; [|discriminate].
    injection H as <- _. split; [|discriminate].
    intros n' [= <-]. unfold Constant__init__ in E. rewrite Hn in E.
    cbn [bind] in E. repeat inv_bind E. now injection E as <-.
  - unfold Type__init__ in H. rewrite Hn in H. cbn [bind] in H.
    inv_bind H. injection H as <- _. split; [|discriminate].
    now intros n' [= <-].
  - injection H as <- _. split; discriminate.
Qed.

Lemma read_row_fresh boxes table opacity data boxes' table' :
  (forall n, dict_get (PStr "name") data = Some n -> key_eqb n n = true) ->
  fresh_store boxes ->
  read_row (boxes, table) opacity data = Ok (boxes', table') ->
  fresh_store boxes'.
Proof.
  intros Hk Hf H. unfold read_row in H.
  destruct (getitem data (PStr "name")) as [n|] eqn:En; [|discriminate].
  cbn [bind] in H.
  destruct (getitem table (get_default data "type" (PStr "room"))) as [m|];
    [|discriminate].
  cbn [bind] in H.
  destruct (call_maker m data opacity table) as [[r t]|] eqn:Ec;
    [|discriminate].
  cbn [bind] in H. injection H as <- <-.
  destruct (call_maker_entry _ _ _ _ _ _ n En Ec) as [Hname Hbox].
  apply fresh_store_set; try assumption.
  apply Hk. unfold getitem in En.
  destruct (dict_get (PStr "name") data); [now injection En as ->|discriminate].
Qed.

Lemma read_layout_fresh rows opacity : forall boxes table boxes' table',
  name_cells rows -> fresh_store boxes ->
  for_each rows (boxes, table)
    (fun state data => read_row state opacity data) = Ok (boxes', table') ->
  fresh_store boxes'.
Proof.
  induction rows as [|data rows IH]; intros boxes table boxes' table' Hc Hf H.
  - now injection H as <- _.
  - cbn [for_each] in H.
    destruct (read_row (boxes, table) opacity data) as [[b1 t1]|] eqn:E;
      [|discriminate].
    cbn [bind] in H. apply (IH b1 t1 boxes' table'); [| |exact H].
    + intros d n Hin. apply Hc. now right.
    + apply (read_row_fresh boxes table opacity data b1 t1); [|exact Hf|exact E].
      intros n. apply Hc. now left.
Qed.

(** X14 (read_layout): the store read from rows whose name cells are csv
    cells has one entry for each name, found under it; every record that
    has a name is stored under that name, the names of the Spaces and Holes
    are distinct, and every Space has three dimensions, a position and no
    holes. *)
Theorem read_layout_store rows opacity table boxes table' :
  name_cells rows ->
  read_layout rows opacity table = Ok (boxes, table') ->
  named boxes /\
  (forall k r, In (k, r) boxes -> dict_get k boxes = Some r) /\
  NoDup (record_names boxes) /\
  (forall k b, dict_get k boxes = Some (RBox b) ->
               sized b /\ Box.holes b = []).
Proof.
  intros Hc H.
  assert (Hf : fresh_store boxes).
  { apply (read_layout_fresh rows opacity [] table boxes table' Hc); [|exact H].
    split; [constructor|intros k r []]. }
  destruct Hf as [Hnd Hent]. split; [|split; [|split]].
  - intros k r n Hk Hn. apply dict_get_In in Hk.
    now apply (proj1 (proj2 (Hent k r Hk))).
  - intros k r Hin. apply nodup_keys_get; [exact Hnd| |exact Hin].
    now apply (Hent k r Hin).
  - apply record_names_nodup; [exact Hnd|].
    intros k r Hin. now apply (Hent k r Hin).
  - intros k b Hk. apply dict_get_In in Hk.
    now apply (proj2 (proj2 (Hent k _ Hk))).
Qed.

End Reader.

Lemma plan_name_cells : name_cells plan_rows.
Proof.
  intros data n H Hn. in_cases H; subst data; injection Hn as <-; reflexivity.
Qed.

Lemma read_layout_store_witness :
  named (fst plan) /\
  (forall k r, In (k, r) (fst plan) -> dict_get k (fst plan) = Some r) /\
  NoDup (record_names (fst plan)) /\
  (forall k b, dict_get k (fst plan) = Some (RBox b) ->
               sized b /\ Box.holes b = []).
Proof.
  apply (@read_layout_store sample_runtime plan_rows (PFloat 1) makers
           (fst plan) (snd plan)).
  - exact plan_name_cells.
  - vm_compute. reflexivity.
Defined.

(** ** The kinds of rows *)

Lemma dict_get_set_cases {V} k n (v : V) d :
  dict_get k (dict_set n v d) = Some v \/
  dict_get k (dict_set n v d) = dict_get k d.
Proof.
  destruct (key_eqb k n) eqn:E.
  - left. pose proof (key_eqb_eq _ _ E) as <-. now apply dict_get_set_eq.
  - right. now apply dict_get_set_neq.
Qed.

Section Kinds.
Context {rt : PyRuntime}.

Lemma call_maker_kinds m data opacity table r table' :
  (forall k m, dict_get k makers = Some m ->
     dict_get k table = Some m \/ dict_get k table = Some MakeCustom) ->
  (forall k m, dict_get k table = Some m ->
     dict_get k makers = Some m \/ m = MakeCustom) ->
  call_maker m data opacity table = Ok (r, table') ->
  (forall k m, dict_get k makers = Some m ->
     dict_get k table' = Some m \/ dict_get k table' = Some MakeCustom) /\
  (forall k m, dict_get k table' = Some m ->
     dict_get k makers = Some m \/ m = MakeCustom).
Proof.
  intros J1 J2 H. destruct m; simpl in H.
  - inv_bind H. injection H as _ <-. now split.
  - inv_bind H. injection H as _ <-. now split.
  - inv_bind H. injection H as _ <-. now split.
  - unfold Type__init__ in H.
    destruct (getitem data (PStr "name")) as [n|]; [|discriminate].
    cbn [bind] in H. unfold getitem in H.
    destruct (dict_get (PStr "__custom__") table) as [custom|] eqn:Ec;
      [|discriminate].
    cbn [bind] in H. injection H as _ <-.
    assert (custom = MakeCustom) as ->.
    { destruct (J2 _ _ Ec) as [Hm|Hm]; [|exact Hm].
      vm_compute in Hm. congruence. }
    split; intros k m Hk.
    + destruct (dict_get_set_cases k n MakeCustom table) as [E|E];
        rewrite E; [now right|now apply J1].
    + destruct (dict_get_set_cases k n MakeCustom table) as [E|E];
        rewrite E in Hk; [right; congruence|now apply J2].
  - injection H as _ <-. now split.
Qed.

Lemma read_layout_kinds rows opacity : forall boxes table boxes' table',
  (forall k m, dict_get k makers = Some m ->
     dict_get k table = Some m \/ dict_get k table = Some MakeCustom) ->
  (forall k m, dict_get k table = Some m ->
     dict_get k makers = Some m \/ m = MakeCustom) ->
  for_each rows (boxes, table)
    (fun state data => read_row state opacity data) = Ok (boxes', table') ->
  (forall k m, dict_get k makers = Some m ->
     dict_get k table' = Some m \/ dict_get k table' = Some MakeCustom) /\
  (forall k m, dict_get k table' = Some m ->
     dict_get k makers = Some m \/ m = MakeCustom).
Proof.
  induction rows as [|data rows IH]; intros boxes table boxes' table' J1 J2 H.
  - injection H as _ <-. now split.
  - cbn [for_each] in H.
    destruct (read_row (boxes, table) opacity data) as [[b1 t1]|] eqn:E;
      [|discriminate].
    cbn [bind] in H. unfold read_row in E.
    destruct (getitem data (PStr "name")) as [n|]; [|discriminate].
    cbn [bind] in E.
    destruct (getitem table (get_default data "type" (PStr "room"))) as [m|];
      [|discriminate].
    cbn [bind] in E.
    destruct (call_maker m data opacity table) as [[r t]|] eqn:Ec;
      [|discriminate].
    cbn [bind] in E. injection E as _ <-.
    destruct (call_maker_kinds _ _ _ _ _ _ J1 J2 Ec) as [J1' J2'].
    exact (IH b1 t boxes' table' J1' J2' H).
Qed.

(** X15 (Type.__init__, read_layout): whatever rows are read, every kind of
    row that the module defines is still a kind afterwards, and each kind is
    made either as the module defines it or as a Custom record: a type row
    can only add a kind of Custom records or turn an existing kind, built-in
    ones included, into one. *)
Theorem kinds_only_become_custom rows opacity boxes table' :
  read_layout rows opacity makers = Ok (boxes, table') ->
  (forall k m, dict_get k makers = Some m ->
     dict_get k table' = Some m \/ dict_get k table' = Some MakeCustom) /\
  (forall k m, dict_get k table' = Some m ->
     dict_get k makers = Some m \/ m = MakeCustom).
Proof.
  apply (read_layout_kinds rows opacity [] makers boxes table').
  - intros k m H. now left.
  - intros k m H. now left.
Qed.

End Kinds.

Lemma kinds_only_become_custom_witness :
  (forall k m, dict_get k makers = Some m ->
     dict_get k (snd declared) = Some m \/
     dict_get k (snd declared) = Some MakeCustom) /\
  (forall k m, dict_get k (snd declared) = Some m ->
     dict_get k makers = Some m \/ m = MakeCustom).
Proof.
  apply (@kinds_only_become_custom sample_runtime cupboard_rows (PFloat 1)
           (fst declared)).
  vm_compute. reflexivity.
Defined.

(** ** The output file *)

Lemma join_app l1 l2 : join (l1 ++ l2) = (join l1 ++ join l2)%string.
Proof.
  induction l1 as [|s l1 IH]; [reflexivity|].
  unfold join in *. simpl. now rewrite IH, string_append_assoc.
Qed.

Section OutputFile.
Context {rt : PyRuntime}.

Lemma join_results_text b : forall holes,
  (forall h, In h holes -> exists s, scad_string h b = Ok s) ->
  exists statements,
    Forall2 (fun '(h, b) s => scad_string h b = Ok s)
      (map (fun h => (h, b)) holes) statements /\
    join_results (map (fun hole => scad_string hole b) holes)
    = Ok (join statements).
Proof.
  induction holes as [|h holes IH]; intros Hr.
  - exists []. split; [constructor|reflexivity].
  - destruct (Hr h (or_introl eq_refl)) as (s & Hs).
    destruct IH as (ss & Hf & Hj); [intros; apply Hr; now right|].
    exists (s :: ss). split; [now constructor|].
    cbn [map join_results]. rewrite Hs, Hj. reflexivity.
Qed.

Lemma write_boxes_text : forall boxes stream,
  (forall h b, In (h, b) (attachments boxes) ->
               exists s, scad_string h b = Ok s) ->
  exists statements,
    Forall2 (fun '(h, b) s => scad_string h b = Ok s)
      (attachments boxes) statements /\
    write_boxes boxes stream
    = ((stream ++ join (map box_statement (spaces boxes)))%string,
       Ok (join statements)).
Proof.
  induction boxes as [|[k r] boxes IH]; intros stream Hr.
  - exists []. split; [constructor|].
    cbn. unfold join. cbn.
    replace (stream ++ "")%string with stream; [reflexivity|].
    clear. induction stream; simpl; congruence.
  - assert (Hrest : forall h b, In (h, b) (attachments boxes) ->
                                exists s, scad_string h b = Ok s).
    { intros h b H. apply Hr. unfold attachments in *.
      cbn [spaces flat_map]. rewrite flat_map_app, in_app_iff. now right. }
    destruct r as [b|h|c|d n|d]; try exact (IH stream Hrest).
    destruct (join_results_text b (Box.holes b)) as (sb & Hfb & Hjb).
    { intros h H. apply Hr. unfold attachments.
      cbn [spaces flat_map]. rewrite flat_map_app, in_app_iff. left.
      cbn [flat_map app]. rewrite app_nil_r.
      apply in_map_iff. now exists h. }
    destruct (IH (stream ++ box_statement b)%string Hrest)
      as (sr & Hfr & Hwr).
    exists (sb ++ sr). split.
    + unfold attachments. cbn [spaces flat_map].
      rewrite flat_map_app. cbn [flat_map app]. rewrite app_nil_r.
      now apply Forall2_app.
    + cbn [write_boxes write_scad]. rewrite Hjb, Hwr. cbn [bind].
      rewrite join_app. cbn [spaces flat_map app map].
      change (join (box_statement b :: map box_statement (spaces boxes)))
        with (box_statement b ++ join (map box_statement (spaces boxes)))%string.
      now rewrite string_append_assoc.
Qed.

Lemma write_layout_closed boxes input_file_name sized_preamble debug :
  (forall h b, In (h, b) (attachments boxes) ->
               exists s, scad_string h b = Ok s) ->
  exists statements,
    Forall2 (fun '(h, b) s => scad_string h b = Ok s)
      (attachments boxes) statements /\
    write_layout boxes input_file_name sized_preamble debug
    = (join [("// Produced from " ++ input_file_name ++ nl)%string;
             sized_preamble;
             if debug then PREAMBLE1DEBUG else PREAMBLE1;
             join (map box_statement (spaces boxes));
             if debug then INTERAMBLEDEBUG else INTERAMBLE;
             join statements;
             if debug then POSTAMBLEDEBUG else POSTAMBLE],
       Ok tt).
Proof.
  intros Hr. unfold write_layout.
  destruct (write_boxes_text boxes
              ((("// Produced from " ++ input_file_name ++ nl)
                ++ sized_preamble)
               ++ (if debug then PREAMBLE1DEBUG else PREAMBLE1))%string Hr)
    as (ss & Hf & Hw).
  exists ss. split; [exact Hf|]. rewrite Hw. f_equal.
  unfold join. cbn [fold_right].
  rewrite !string_append_assoc.
  repeat f_equal.
  clear. induction (if debug then POSTAMBLEDEBUG else POSTAMBLE); simpl;
    congruence.
Qed.

(** X16 (make_scad_layout, Box.write_scad): when every attached hole can be
    written, the output file holds the header, the sized preamble and the
    opening lines, then one box statement for each Space in the order of
    the store, then the lines between the two unions, then the hole
    statements, Space by Space in the same order and in the order of
    attachment, then the closing lines, and nothing else. *)
Theorem write_layout_text boxes input_file_name sized_preamble debug :
  (forall h b, In (h, b) (attachments boxes) ->
               exists s, scad_string h b = Ok s) ->
  exists statements,
    Forall2 (fun '(h, b) s => scad_string h b = Ok s)
      (attachments boxes) statements /\
    write_layout boxes input_file_name sized_preamble debug
    = (join [("// Produced from " ++ input_file_name ++ nl)%string;
             sized_preamble;
             if debug then PREAMBLE1DEBUG else PREAMBLE1;
             join (map box_statement (spaces boxes));
             if debug then INTERAMBLEDEBUG else INTERAMBLE;
             join statements;
             if debug then POSTAMBLEDEBUG else POSTAMBLE],
       Ok tt).
Proof. apply write_layout_closed. Qed.

End OutputFile.

Lemma house_resolved_renders h b :
  In (h, b) (attachments house_resolved) ->
  exists s, scad_string h b = Ok s.
Proof.
  assert (H : Forall (fun p => exists s, scad_string (fst p) (snd p) = Ok s)
                (attachments house_resolved)).
  { vm_compute attachments.
    repeat constructor; eexists; vm_compute; reflexivity. }
  intros Hin. rewrite Forall_forall in H. exact (H (h, b) Hin).
Qed.

Lemma write_layout_text_witness :
  exists statements,
    Forall2 (fun '(h, b) s => scad_string h b = Ok s)
      (attachments house_resolved) statements /\
    write_layout house_resolved "house.csv" (snd hall_adjusted) false
    = (join [("// Produced from " ++ "house.csv" ++ nl)%string;
             snd hall_adjusted;
             PREAMBLE1;
             join (map box_statement (spaces house_resolved));
             INTERAMBLE;
             join statements;
             POSTAMBLE],
       Ok tt).
Proof.
  apply (@write_layout_text sample_runtime house_resolved "house.csv"
           (snd hall_adjusted) false).
  exact house_resolved_renders.
Defined.

(** ** The tree printer *)

Lemma at_depth_under dependents a c n x :
  In c (children dependents a) ->
  at_depth dependents c n x -> at_depth dependents a (S n) x.
Proof.
  intros Hc. induction 1 as [x Hx|n p x Hp IH Hx].
  - apply (@depth_step dependents a 0 c x); [now apply depth_child|exact Hx].
  - apply (@depth_step dependents a (S n) p x); [exact IH|exact Hx].
Qed.

Lemma line_of_under dependents a c depth steps lines :
  In c (children dependents a) ->
  Forall2 (line_of dependents c (S depth)) steps lines ->
  Forall2 (line_of dependents a depth) steps lines.
Proof.
  intros Hc. induction 1 as [|step line steps lines (n & s & Hs & Hd & Hl) _ IH];
    constructor; [|exact IH].
  exists (S n), s. split; [exact Hs|]. split.
  - now apply (at_depth_under dependents a c).
  - now rewrite Nat.add_succ_r.
Qed.

(** X17 (show_tree): when the walk from a record is no deeper than the
    interpreter allows and the names are text, the printer returns after
    printing one line for each step of the resolver's walk, in the order of
    the walk: the name of the dependent, indented once for each level it
    lies below the dependents of the record the call starts from. *)
Theorem show_tree_prints_the_walk dependents limit :
  forall start depth printed steps,
    walk limit dependents start = Some steps ->
    (forall a c, In (a, c) steps -> exists s, c = PStr s) ->
    exists lines,
      show_tree limit dependents start depth printed
      = (printed ++ lines, Ok tt) /\
      Forall2 (line_of dependents start depth) steps lines.
Proof.
  induction limit as [|limit IH]; intros start depth printed steps Hw Ht;
    [discriminate|].
  rewrite walk_S in Hw. cbn [show_tree].
  assert (Hloop : forall names printed steps,
    (forall c, In c names -> In c (children dependents start)) ->
    collect (block dependents limit start) names = Some steps ->
    (forall a c, In (a, c) steps -> exists s, c = PStr s) ->
    exists lines,
      for_each_printing names printed
        (fun child printed =>
           match tree_line depth child with
           | Ok line =>
               show_tree limit dependents child (S depth) (printed ++ [line])
           | Raise e => (printed, Raise e)
           end)
      = (printed ++ lines, Ok tt) /\
      Forall2 (line_of dependents start depth) steps lines).
  { clear steps Hw Ht printed.
    induction names as [|c names IHn]; intros printed steps Hsub Hc Ht.
    - injection Hc as <-. exists []. split; [|constructor].
      cbn. now rewrite app_nil_r.
    - apply collect_split in Hc as (s & r & Hs & Hr & ->).
      unfold block in Hs.
      destruct (walk limit dependents c) as [sc|] eqn:Ec; [|discriminate].
      injection Hs as <-.
      destruct (Ht start c) as (str & ->); [now left|].
      destruct (IH (PStr str) (S depth)
                  (printed ++ [(repeat_string depth "|   " ++ str)%string]) sc Ec)
        as (lc & Hlc & Hfc).
      { intros a x Hin. apply (Ht a x). right. apply in_or_app. now left. }
      destruct (IHn ((printed ++ [(repeat_string depth "|   " ++ str)%string]) ++ lc) r)
        as (lr & Hlr & Hfr).
      { intros x Hx. apply Hsub. now right. }
      { exact Hr. }
      { intros a x Hin. apply (Ht a x). right. apply in_or_app. now right. }
      exists ((repeat_string depth "|   " ++ str)%string :: lc ++ lr). split.
      + cbn [for_each_printing tree_line]. rewrite Hlc, Hlr.
        f_equal. rewrite <- !app_assoc. reflexivity.
      + constructor.
        * exists 0, str. split; [reflexivity|]. split.
          -- apply depth_child. apply Hsub. now left.
          -- now rewrite Nat.add_0_r.
        * apply Forall2_app; [|exact Hfr].
          apply (line_of_under dependents start (PStr str));
            [apply Hsub; now left|exact Hfc]. }
  unfold children in Hw, Hloop.
  destruct (dict_get start dependents) as [names|].
  - apply Hloop; [auto|exact Hw|exact Ht].
  - injection Hw as <-. exists []. split; [|constructor].
    now rewrite app_nil_r.
Qed.

Lemma show_tree_prints_the_walk_witness :
  exists lines,
    show_tree 10 house_tree (PStr "start") 0 [] = ([] ++ lines, Ok tt) /\
    Forall2 (line_of house_tree (PStr "start") 0) house_steps_from_start lines.
Proof.
  apply (show_tree_prints_the_walk house_tree 10 (PStr "start") 0 []
           house_steps_from_start).
  - reflexivity.
  - intros a c H. in_cases H; injection H as _ <-; eexists; reflexivity.
Defined.

(** ** From the resolver to the output file *)

Lemma RBox_inj b b' : RBox b = RBox b' -> b = b'.
Proof.
  intros H.
  exact (f_equal (fun r => match r with RBox x => x | _ => b end) H).
Qed.

Lemma position_dependent_writable boxes a c boxes' :
  writable boxes -> position_dependent boxes a c = Ok boxes' ->
  writable boxes'.
Proof.
  intros [W1 W2] H. split.
  - revert H. unfold position_dependent, getitem.
    destruct (dict_get c boxes) as [dependent|] eqn:Ec; [|discriminate].
    cbn [bind]. destruct dependent as [d|h|? |? ?|?];
      try (intros [= <-]; exact W1).
    + destruct (dict_get a boxes) as [anchor|]; [|discriminate].
      cbn [bind]. destruct (place anchor d) as [d'|] eqn:E; [|discriminate].
      cbn [bind]. intros [= <-] k b Hin.
      apply dict_set_In in Hin as [[-> Hb]|Hin]; [|now apply (W1 k)].
      apply RBox_inj in Hb. subst b.
      apply place_moved in E. rewrite E.
      destruct (W1 c d (dict_get_In _ _ _ Ec)) as [Hd Hh].
      destruct d; split; assumption.
    + destruct (dict_get a boxes) as [anchor|] eqn:Ea; [|discriminate].
      cbn [bind]. destruct anchor as [ab|? |? |? ?|?]; try discriminate.
      cbn [append_hole bind]. intros [= <-] k b Hin.
      apply dict_set_In in Hin as [[-> Hb]|Hin]; [|now apply (W1 k)].
      apply RBox_inj in Hb. subst b.
      destruct (W1 a ab (dict_get_In _ _ _ Ea)) as [Hd Hh].
      destruct ab; split; [exact Hd|]. cbn in *.
      intros h' Hin. apply in_app_or in Hin as [Hin|[<-|[]]];
        [now apply Hh|exact (W2 c h Ec)].
  - intros k h Hk. apply (W2 k).
    apply (store_evolves_hole boxes boxes' k h
             (position_dependent_evolves _ _ _ _ H)).
    exact Hk.
Qed.

Lemma run_steps_writable steps : forall boxes boxes',
  writable boxes -> run_steps steps boxes = Ok boxes' -> writable boxes'.
Proof.
  induction steps as [|[a c] steps IH]; intros boxes boxes' W H.
  - now injection H as <-.
  - unfold run_steps in H. cbn [for_each] in H.
    destruct (position_dependent boxes a c) as [boxes1|] eqn:E;
      [|discriminate].
    cbn [bind] in H. apply (IH boxes1 boxes'); [|exact H].
    exact (position_dependent_writable boxes a c boxes1 W E).
Qed.

Section ResolveAndWrite.
Context {rt : PyRuntime}.

Lemma writable_renders boxes h b :
  writable boxes -> In (h, b) (attachments boxes) ->
  exists s, scad_string h b = Ok s.
Proof.
  intros [W1 _] Hin. unfold attachments in Hin.
  apply in_flat_map in Hin as (b' & Hb' & Hin).
  apply in_map_iff in Hin as (h' & Heq & Hh).
  assert (h' = h) by exact (f_equal fst Heq).
  assert (b' = b) by exact (f_equal snd Heq). subst h' b'.
  unfold spaces in Hb'. apply in_flat_map in Hb' as ([k r] & Hkr & Hr).
  destruct r as [b0|h0|c0|d0 n0|d0]; [|destruct Hr..].
  destruct Hr as [->|[]].
  destruct (W1 k b Hkr) as [Hd Hholes].
  apply renderable_renders; [now apply Hholes|exact Hd].
Qed.

(** X18 (position_dependents, make_scad_layout, Hole.scad_string): on a
    well-formed input whose Holes have numbers for offset and height, as
    the Holes built from rows have, the resolver returns and the output
    block then writes the resolved store without an exception: the file is
    complete, with a box statement for every Space and a hole statement for
    every attached Hole. *)
Theorem resolved_store_is_written limit boxes dependents root steps level
  input_file_name sized_preamble debug :
  well_formed limit boxes dependents root steps ->
  (forall k h, dict_get k boxes = Some (RHole h) -> renderable h) ->
  exists boxes' statements,
    position_dependents limit boxes dependents root level = Ok boxes' /\
    Forall2 (fun '(h, b) s => scad_string h b = Ok s)
      (attachments boxes') statements /\
    write_layout boxes' input_file_name sized_preamble debug
    = (join [("// Produced from " ++ input_file_name ++ nl)%string;
             sized_preamble;
             if debug then PREAMBLE1DEBUG else PREAMBLE1;
             join (map box_statement (spaces boxes'));
             if debug then INTERAMBLEDEBUG else INTERAMBLE;
             join statements;
             if debug then POSTAMBLEDEBUG else POSTAMBLE],
       Ok tt).
Proof.
  intros Hwf Hholes.
  destruct (well_formed_returns limit boxes dependents root steps level Hwf)
    as (boxes' & Hpd & Hrun).
  assert (W : writable boxes).
  { destruct Hwf as [Hkeys _ _ Hboxes Hnone _ _ _ _].
    split; [|exact Hholes]. intros k b Hin.
    pose proof (Hkeys k (RBox b) Hin) as Hk.
    destruct (Hboxes k b Hk) as [[_ Hd] _].
    split; [exact Hd|]. rewrite (Hnone k b Hk). intros h []. }
  pose proof (run_steps_writable steps boxes boxes' W Hrun) as W'.
  destruct (write_layout_closed boxes' input_file_name sized_preamble debug)
    as (statements & Hf & Hw).
  { intros h b. now apply writable_renders. }
  now exists boxes', statements.
Qed.

End ResolveAndWrite.

Lemma house_holes_renderable k h :
  dict_get k house = Some (RHole h) -> renderable h.
Proof.
  intros H. apply dict_get_In in H. in_cases H; try discriminate H;
    injection H as _ <-; split; eexists; reflexivity.
Qed.

Lemma resolved_store_is_written_witness :
  exists boxes' statements,
    position_dependents 10 house house_tree (PStr "Hall") 1 = Ok boxes' /\
    Forall2 (fun '(h, b) s => scad_string h b = Ok s)
      (attachments boxes') statements /\
    write_layout boxes' "house.csv" (snd hall_adjusted) true
    = (join [("// Produced from " ++ "house.csv" ++ nl)%string;
             snd hall_adjusted;
             PREAMBLE1DEBUG;
             join (map box_statement (spaces boxes'));
             INTERAMBLEDEBUG;
             join statements;
             POSTAMBLEDEBUG],
       Ok tt).
Proof.
  apply (@resolved_store_is_written sample_runtime 10 house house_tree
           (PStr "Hall") house_steps 1 "house.csv" (snd hall_adjusted) true).
  - exact house_well_formed.
  - exact house_holes_renderable.
Defined.

(** ** The tree of a store that was read *)

Lemma generate_tree_step_names st k r st' a n :
  generate_tree_step st (k, r) = Ok st' ->
  In n (children (fst st') a) ->
  In n (children (fst st) a) \/ (name_of r = Ok n /\ adjacent_of r = Ok a).
Proof.
  assert (Hgen : forall adj name,
    adjacent_of r = Ok adj -> name_of r = Ok name ->
    generate_tree_step st (k, r) = Ok st' ->
    In n (children (fst st') a) ->
    In n (children (fst st) a) \/ (name = n /\ adj = a)).
  { intros adj name Ha Hn.
    rewrite (generate_tree_step_unfold st k r adj name Ha Hn).
    destruct (str_eq adj "start") eqn:Es.
    - intros [= <-]. cbn [fst]. apply str_eq_true in Es. subst adj.
      destruct (key_eqb a (PStr "start")) eqn:E.
      + pose proof (key_eqb_eq _ _ E) as ->.
        rewrite children_set_eq by exact E.
        intros [<-|[]]. right. now split.
      + rewrite children_set_neq by exact E. now left.
    - cbv zeta. unfold getitem, dict_mem.
      destruct (key_eqb a adj) eqn:E.
      + pose proof (key_eqb_eq _ _ E) as <-.
        destruct (dict_get a (fst st)) as [names|] eqn:Eg.
        * rewrite Eg. cbn [bind]. intros [= <-]. cbn [fst].
          rewrite children_set_eq by exact E.
          intros H. apply in_app_or in H as [H|[<-|[]]];
            [left; unfold children; now rewrite Eg|right; now split].
        * rewrite dict_get_set_eq by exact E. cbn [bind].
          intros [= <-]. cbn [fst]. rewrite children_set_eq by exact E.
          intros [<-|[]]. right. now split.
      + destruct (dict_get adj (fst st)) as [names|] eqn:Eg.
        * rewrite Eg. cbn [bind]. intros [= <-]. cbn [fst].
          rewrite children_set_neq by exact E. now left.
        * destruct (dict_get adj (dict_set adj [] (fst st))) as [names|];
            [|discriminate].
          cbn [bind]. intros [= <-]. cbn [fst].
          rewrite !children_set_neq by exact E. now left. }
  destruct r as [b|h|c|d m|d].
  - intros H Hin.
    destruct (Hgen _ _ eq_refl eq_refl H Hin) as [Hl|[<- <-]];
      [now left|right; now split].
  - intros H Hin.
    destruct (Hgen _ _ eq_refl eq_refl H Hin) as [Hl|[<- <-]];
      [now left|right; now split].
  - destruct st. intros [= <-]. now left.
  - destruct st. intros [= <-]. now left.
  - destruct st. intros [= <-]. now left.
Qed.

Lemma generate_tree_names boxes : forall st st' a n,
  for_each boxes st generate_tree_step = Ok st' ->
  In n (children (fst st') a) ->
  In n (children (fst st) a) \/
  exists k r, In (k, r) boxes /\ name_of r = Ok n /\ adjacent_of r = Ok a.
Proof.
  induction boxes as [|[k r] boxes IH]; intros st st' a n H Hin.
  - injection H as <-. now left.
  - cbn [for_each] in H.
    destruct (generate_tree_step st (k, r)) as [st1|] eqn:E; [|discriminate].
    cbn [bind] in H.
    destruct (IH st1 st' a n H Hin) as [H1|(k' & r' & Hk & Hn & Ha)].
    + destruct (generate_tree_step_names st k r st1 a n E H1)
        as [H0|[Hn Ha]]; [now left|].
      right. exists k, r. split; [now left|now split].
    + right. exists k', r'. split; [now right|now split].
Qed.

Lemma starts_In boxes k n :
  In (k, n) (starts boxes) ->
  exists r, In (k, r) boxes /\ name_of r = Ok n /\
            adjacent_of r = Ok (PStr "start").
Proof.
  unfold starts. intros H. apply in_flat_map in H as ([k' r] & Hin & H).
  destruct r as [b|h|c|d m|d]; try destruct H.
  - destruct (str_eq (Box.adjacent b) "start") eqn:E; [|destruct H].
    destruct H as [[= <- <-]|[]]. exists (RBox b). split; [exact Hin|].
    split; [reflexivity|]. simpl. f_equal. now apply str_eq_true.
  - destruct (str_eq (Hole.adjacent h) "start") eqn:E; [|destruct H].
    destruct H as [[= <- <-]|[]]. exists (RHole h). split; [exact Hin|].
    split; [reflexivity|]. simpl. f_equal. now apply str_eq_true.
Qed.

Section TreeOfReadStore.
Context {rt : PyRuntime}.

(** X19 (read_layout, generate_tree): in the tree of a store that was read
    from rows, no name is a dependent twice, every dependent listed under a
    name is the key of a record of the store whose [adjacent] is that name,
    so that the resolver finds every dependent it looks up, and the starting
    record is a record of the store whose [adjacent] is ['start']. *)
Theorem tree_of_read_store rows opacity table boxes table' dependents
  first_box :
  name_cells rows ->
  read_layout rows opacity table = Ok (boxes, table') ->
  generate_tree boxes = Ok (dependents, first_box) ->
  tree_like dependents /\
  (forall a c, In c (children dependents a) ->
     exists r, dict_get c boxes = Some r /\ name_of r = Ok c /\
               adjacent_of r = Ok a) /\
  (forall root, first_box = Some root ->
     exists r, dict_get root boxes = Some r /\
               adjacent_of r = Ok (PStr "start")).
Proof.
  intros Hc Hread Htree.
  assert (Hf : fresh_store boxes).
  { apply (read_layout_fresh rows opacity [] table boxes table' Hc);
      [|exact Hread].
    split; [constructor|intros k r []]. }
  destruct Hf as [Hnd Hent].
  assert (Hname : forall k r, In (k, r) boxes ->
                    forall n, name_of r = Ok n -> n = k).
  { intros k r Hin. now apply (Hent k r Hin). }
  assert (Hget : forall k r, In (k, r) boxes -> dict_get k boxes = Some r).
  { intros k r Hin. apply nodup_keys_get; [exact Hnd| |exact Hin].
    now apply (Hent k r Hin). }
  split; [|split].
  - apply (generate_tree_tree_like boxes dependents first_box Htree).
    now apply record_names_nodup.
  - intros a c Hin.
    destruct (generate_tree_names boxes ([], None) _ a c Htree Hin)
      as [[]|(k & r & Hk & Hn & Ha)].
    pose proof (Hname k r Hk c Hn) as ->.
    exists r. split; [now apply Hget|now split].
  - intros root ->.
    pose proof (generate_tree_last_start boxes ([], None) _ Htree) as Hlast.
    destruct (rev (starts boxes)) as [|[k n] rest] eqn:Er.
    + destruct Hlast as [Hnone _]. discriminate Hnone.
    + destruct Hlast as [Hsome _]. cbn [snd] in Hsome.
      injection Hsome as ->.
      assert (Hin : In (k, n) (starts boxes)).
      { apply in_rev. rewrite Er. now left. }
      destruct (starts_In boxes k n Hin) as (r & Hr & _ & Ha).
      exists r. split; [now apply Hget|exact Ha].
Qed.

End TreeOfReadStore.

Lemma tree_of_read_store_witness :
  tree_like (fst plan_tree) /\
  (forall a c, In c (children (fst plan_tree) a) ->
     exists r, dict_get c (fst plan) = Some r /\ name_of r = Ok c /\
               adjacent_of r = Ok a) /\
  (forall root, snd plan_tree = Some root ->
     exists r, dict_get root (fst plan) = Some r /\
               adjacent_of r = Ok (PStr "start")).
Proof.
  apply (@tree_of_read_store sample_runtime plan_rows (PFloat 1) makers
           (fst plan) (snd plan) (fst plan_tree) (snd plan_tree)).
  - exact plan_name_cells.
  - vm_compute. reflexivity.
  - vm_compute. reflexivity.
Defined.

(** ** What the adjuster leaves alone *)

Lemma list_set_length {A} (v : A) : forall l i l',
  list_set l i v = Ok l' -> length l' = length l.
Proof.
  induction l as [|x l IH]; intros i l' H; [discriminate|].
  destruct i as [|i]; simpl in H.
  - now injection H as <-.
  - destruct (list_set l i v) as [r|] eqn:E; [|discriminate].
    injection H as <-. simpl. now rewrite (IH i r E).
Qed.

Lemma resized_refl r : resized r r.
Proof. destruct r as [b|h|c|d n|d]; simpl; try reflexivity;
  [now destruct b|now destruct h]. Qed.

Lemma add_to_dimension_resized b i v b' :
  add_to_dimension b i v = Ok b' ->
  b' = Box.set_dimensions b (Box.dimensions b') /\
  length (Box.dimensions b') = length (Box.dimensions b).
Proof.
  unfold add_to_dimension. intros H.
  destruct (list_get (Box.dimensions b) i) as [d_i|]; [|discriminate].
  cbn [bind] in H. destruct v as [v|]; [|discriminate]. cbn [bind] in H.
  destruct (float_add d_i v) as [r|]; [|discriminate]. cbn [bind] in H.
  destruct (list_set (Box.dimensions b) i r) as [dims|] eqn:E; [|discriminate].
  cbn [bind] in H. injection H as <-.
  apply list_set_length in E. now destruct b.
Qed.

Lemma adjust_record_resized wt ft ct r r' :
  adjust_record wt ft ct r = Ok r' -> resized r r'.
Proof.
  destruct r as [b|h|c|d n|d]; simpl;
    try (intros [= <-]; reflexivity).
  - destruct (str_eq (Box.box_type b) "room");
      [|intros [= <-]; now destruct b].
    intros H.
    destruct (add_to_dimension b 0 (Ok wt)) as [b0|] eqn:E0; [|discriminate].
    cbn [bind] in H.
    destruct (add_to_dimension b0 1 (Ok wt)) as [b1|] eqn:E1; [|discriminate].
    cbn [bind] in H.
    destruct (add_to_dimension b1 2 (py_add ft ct)) as [b2|] eqn:E2;
      [|discriminate].
    cbn [bind] in H. injection H as <-.
    apply add_to_dimension_resized in E0 as [H0 L0].
    apply add_to_dimension_resized in E1 as [H1 L1].
    apply add_to_dimension_resized in E2 as [H2 L2].
    split; [|congruence].
    rewrite H2, H1, H0. now destruct b.
  - intros H.
    destruct (py_mul_int wt 8) as [t|]; [|discriminate]. cbn [bind] in H.
    destruct (list_set (Hole.dimensions h) 2 t) as [dims|] eqn:E;
      [|discriminate].
    cbn [bind] in H. injection H as <-.
    apply list_set_length in E. now split.
Qed.

Lemma for_values_resized (f : record -> result record) :
  (forall r r', f r = Ok r' -> resized r r') ->
  forall d d', for_values d f = Ok d' ->
    Forall2 (fun e e' => fst e = fst e' /\ resized (snd e) (snd e')) d d'.
Proof.
  intros Hf. induction d as [|[k v] d IH]; intros d' H; simpl in H.
  - injection H as <-. constructor.
  - destruct (f v) as [v'|] eqn:E; [|discriminate]. cbn [bind] in H.
    destruct (for_values d f) as [r|]; [|discriminate].
    injection H as <-. constructor; [|now apply IH].
    split; [reflexivity|now apply Hf].
Qed.

Section AdjusterFrame.
Context {rt : PyRuntime}.

(** X20 (adjust_dimensions): when the adjuster returns, every record of the
    input stands where it stood, followed by the default constants that
    were missing, and a record differs from what it was only in its
    dimensions, of which it has as many as before: names, adjacency,
    directions, alignments, offsets, positions and holes are untouched,
    and so are constants. *)
Theorem adjuster_changes_dimensions_only boxes boxes' preamble :
  adjust_dimensions boxes = Ok (boxes', preamble) ->
  Forall2 (fun e e' => fst e = fst e' /\ resized (snd e) (snd e'))
    (boxes ++ missing_defaults boxes) boxes'.
Proof.
  intros H.
  unfold adjust_dimensions in H. rewrite add_default_constants_spec in H.
  cbn [bind] in H.
  destruct (c <- getitem _ (PStr "wall_thickness") ;; value_of c) as [wt|];
    [|discriminate].
  cbn [bind] in H.
  destruct (c <- getitem _ (PStr "floor_thickness") ;; value_of c) as [ft|];
    [|discriminate].
  cbn [bind] in H.
  destruct (c <- getitem _ (PStr "ceiling_thickness") ;; value_of c) as [ct|];
    [|discriminate].
  cbn [bind] in H.
  destruct (for_values _ _) as [bs|] eqn:E; [|discriminate].
  cbn [bind] in H.
  destruct (PREAMBLE0 wt ft ct); [|discriminate].
  injection H as <- _.
  apply (for_values_resized (adjust_record wt ft ct)); [|exact E].
  apply adjust_record_resized.
Qed.

End AdjusterFrame.

Lemma adjuster_changes_dimensions_only_witness :
  Forall2 (fun e e' => fst e = fst e' /\ resized (snd e) (snd e'))
    (hall_store ++ missing_defaults hall_store) (fst hall_adjusted).
Proof.
  apply (@adjuster_changes_dimensions_only sample_runtime hall_store
           (fst hall_adjusted) (snd hall_adjusted)).
  vm_compute. reflexivity.
Defined.

(** ** Two runs of the converter *)

Section TwoRuns.
Context {rt : PyRuntime}.






End TwoRuns.



